(** * discrete_RB: restless-bandit policies, shallow embedding

    The development follows [discrete_RB.py]: the simulation environments
    ([RB], [MeanFieldRB]), the single-armed LP helper ([SingleArmAnalyzer]),
    the policies ([PriorityPolicy], [RandomTBPolicy], [FTVAPolicy]) and the
    array helper [sa_list_to_freq].

    Conventions.
    - numpy arrays are lists; a state is a [nat], an action entry is a [Z]
      (the arrays hold 0 and 1, and the code computes [1 - virtual_actions]);
    - real numbers are rationals [Q]: exact arithmetic stands for the doubles
      where the code tests them within a tolerance or rounds a budget down or
      up; the code whose outcome turns on the rounding of the doubles
      themselves ([states_from_state_fracs], which truncates scaled partial
      sums, and [PriorityPolicy.get_sa_pair_fracs], which compares a running
      difference with zero) is not part of the embedding;
    - Python exceptions are the constructors of [exn], carried by [result];
    - objects mutated in place are threaded explicitly: a method returns the
      object after the call next to its value;
    - [numpy.random] and the convex solver are outside the file: every draw
      and every LP solution is an argument (an oracle), and the theorems
      quantify over all of them. *)

From Stdlib Require Import QArith Qround Qabs Qminmax Lqa.
From stdpp Require Import gmap strings list sorting.

(** ** Python runtime *)

Inductive exn : Type :=
  | IndexError
  | KeyError
  | ValueError
  | AssertionError
  | AttributeError
  | NotImplementedError
  | UnboundLocalError.

Inductive result (A : Type) : Type :=
  | Ok (a : A)
  | Raise (e : exn).
Arguments Ok {A} a.
Arguments Raise {A} e.

#[global] Instance result_ret : MRet result := λ A a, Ok a.
#[global] Instance result_bind : MBind result := λ A B k r,
  match r with
  | Ok a => k a
  | Raise e => Raise e
  end.

(** [int(x)] on a real: truncation toward zero. *)
Definition py_int (x : Q) : Z := Z.quot (Qnum x) (Z.pos (Qden x)).

Definition Qlt_bool (x y : Q) : bool := negb (Qle_bool y x).

(** An insertion-ordered dict, as Python's: [odict_set] overwrites the value of
    a present key in place and appends an absent one. *)
Fixpoint odict_get {V} (d : list (nat * V)) (k : nat) : option V :=
  match d with
  | [] => None
  | (k', v) :: d' => if decide (k' = k) then Some v else odict_get d' k
  end.

Fixpoint odict_set {V} (d : list (nat * V)) (k : nat) (v : V) : list (nat * V) :=
  match d with
  | [] => [(k, v)]
  | (k', v') :: d' =>
      if decide (k' = k) then (k, v) :: d' else (k', v') :: odict_set d' k v
  end.

Definition odict_keys {V} (d : list (nat * V)) : list nat := d.*1.

(** ** numpy *)

(** [np.where(mask)[0]]: the positions of the true entries, ascending. *)
Definition np_where (mask : list bool) : list nat :=
  filter (λ i, mask !! i = Some true) (seq 0 (length mask)).

(** [a == s] against a scalar and [a == b] elementwise. *)
Definition np_eq_scalar (a : list nat) (s : nat) : list bool :=
  (λ x, bool_decide (x = s)) <$> a.
Definition np_eq (a b : list nat) : list bool :=
  zip_with (λ x y, bool_decide (x = y)) a b.
Definition np_eqZ_scalar (a : list Z) (s : Z) : list bool :=
  (λ x, bool_decide (x = s)) <$> a.
Definition np_eqZ (a b : list Z) : list bool :=
  zip_with (λ x y, bool_decide (x = y)) a b.

(** Truth value of an integer entry, and [np.where] on an integer array. *)
Definition truthy (x : Z) : bool := negb (x =? 0)%Z.
Definition np_nonzero (a : list Z) : list nat := np_where (truthy <$> a).

(** [a[idxs] = v] with a scalar and [a[idxs] = vals] with an array; the index
    arrays of this program come from [np.where] on arrays as long as [a], so
    they are in range (numpy raises IndexError otherwise, the list update of
    this model is then the identity). *)
Definition set_at {A} (idxs : list nat) (v : A) (a : list A) : list A :=
  foldl (λ acc i, <[i:=v]> acc) a idxs.
Definition set_at_list {A} (idxs : list nat) (vals : list A) (a : list A) : list A :=
  foldl (λ acc iv, <[iv.1:=iv.2]> acc) a (zip idxs vals).

(** [a[idxs]] *)
Definition take_at {A} `{Inhabited A} (a : list A) (idxs : list nat) : list A :=
  (λ i, a !!! i) <$> idxs.

Definition np_sumZ (a : list Z) : Z := foldr Z.add 0%Z a.
Definition np_sumQ (a : list Q) : Q := foldr Qplus 0%Q a.

(** [np.arange(start, stop, step)] for a positive step, in exact arithmetic:
    [ceil((stop - start) / step)] points [start + i * step]. On doubles the
    end of numpy's grid can differ by a point; the general statements about
    the sweep hold for every grid, and none is about its number of points. *)
Definition np_arange (start stop step : Q) : list Q :=
  (λ i : nat, (start + inject_Z (Z.of_nat i) * step)%Q)
    <$> seq 0 (Z.to_nat (Qceiling ((stop - start) / step))).

(** [np.argsort]: the indices of [a] in ascending order of their entries. numpy
    leaves the order of equal entries open; this one keeps them in index
    order. *)
Fixpoint insert_by (key : nat → Q) (i : nat) (l : list nat) : list nat :=
  match l with
  | [] => [i]
  | j :: l' =>
      if Qle_bool (key i) (key j) then i :: l else j :: insert_by key i l'
  end.
Definition np_argsort (a : list Q) : list nat :=
  foldr (insert_by (λ i, nth i a 0%Q)) [] (seq 0 (length a)).

Definition np_flip {A} (a : list A) : list A := reverse a.

(** [sorted(keys, reverse=True)] on integer keys. *)
Fixpoint insert_desc (k : nat) (l : list nat) : list nat :=
  match l with
  | [] => [k]
  | j :: l' => if decide (j ≤ k) then k :: l else j :: insert_desc k l'
  end.
Definition sorted_reverse (keys : list nat) : list nat :=
  foldr insert_desc [] keys.

(** [np.isclose(a, b, atol=atol)] with the default [rtol = 1e-5]:
    [|a - b| <= atol + rtol * |b|]. *)
Definition np_isclose (a b atol : Q) : bool :=
  Qle_bool (Qabs (a - b)) (atol + (1 # 100000) * Qabs b).

(** Two arrays meet entry by entry when they are equally long; an array of one
    entry is repeated along the other; other shapes do not broadcast. *)
Definition np_broadcast {A B} (a : list A) (b : list B) : result (list (A * B)) :=
  if decide (length a = length b) then Ok (zip a b)
  else match a, b with
       | [x], _ => Ok ((λ y, (x, y)) <$> b)
       | _, [y] => Ok ((λ x, (x, y)) <$> a)
       | _, _ => Raise ValueError
       end.

(** [np.sum(m, axis=1)] and [np.sum(m)] of an array of two columns. *)
Definition row_sums (m : list (Q * Q)) : list Q := (λ r, (r.1 + r.2)%Q) <$> m.
Definition np_sum2 (m : list (Q * Q)) : Q := np_sumQ (row_sums m).

(** ** numpy.random

    One record per call of a method: the outcome of every draw the call makes.
    Within one call the draws of this program have distinct arguments, so a
    function of the arguments loses no outcome. *)
Record np_random : Type := {
  (** [np.random.binomial(1, p)] *)
  binomial1 : Q → Z;
  (** [np.random.choice(a, size, replace=False)] *)
  choice_without_replacement : list nat → nat → list nat;
  (** [np.random.choice(aspa, size, p=policy[state])] *)
  sample_action : nat → nat → list Z;
  (** [np.random.choice(sspa, size, p=trans_tensor[state, action])] *)
  sample_next_state : nat → Z → nat → list nat
}.

Definition np_binomial1 (rng : np_random) (p : Q) : result Z :=
  if Qle_bool 0 p && Qle_bool p 1 then Ok (binomial1 rng p) else Raise ValueError.

Definition np_choice (rng : np_random) (a : list nat) (size : Z) : result (list nat) :=
  if decide (0 ≤ size ∧ size ≤ Z.of_nat (length a))%Z
  then Ok (choice_without_replacement rng a (Z.to_nat size))
  else Raise ValueError.

(** What numpy guarantees about the draws. *)
Record np_random_ok (rng : np_random) : Prop := {
  binomial1_range : ∀ p, binomial1 rng p = 0%Z ∨ binomial1 rng p = 1%Z;
  binomial1_zero : ∀ p, (p == 0)%Q → binomial1 rng p = 0%Z;
  choice_length : ∀ a k, k ≤ length a →
    length (choice_without_replacement rng a k) = k;
  choice_NoDup : ∀ a k, k ≤ length a → NoDup a →
    NoDup (choice_without_replacement rng a k);
  choice_subset : ∀ a k, k ≤ length a →
    choice_without_replacement rng a k ⊆ a;
  sample_action_length : ∀ s n, length (sample_action rng s n) = n;
  sample_action_range : ∀ s n,
    Forall (λ a, a = 0%Z ∨ a = 1%Z) (sample_action rng s n);
  sample_next_state_length : ∀ s a n, length (sample_next_state rng s a n) = n
}.

(** ** The convex solver

    [problem.solve()] is an oracle: for the exact LP, or for the relaxed LP at a
    subsidy, it gives the optimal value, [y.value] (one pair of entries per
    state) and the dual value of the [i]-th constraint of the list the problem
    was built from. *)
Inductive lp_problem : Type :=
  | ExactLP
  | RelaxedLP (subsidy : Q).

Record cvx_solution : Type := {
  sol_value : Q;
  sol_y : list (Q * Q);
  sol_dual : nat → Q
}.

(** Entry [[s, a]] of an S x 2 array. *)
Definition entry (m : list (Q * Q)) (s : nat) (a : nat) : Q :=
  match a with
  | 0 => (nth s m (0, 0)%Q).1
  | _ => (nth s m (0, 0)%Q).2
  end.

Definition set_entry (m : list (Q * Q)) (s : nat) (a : nat) (v : Q) : list (Q * Q) :=
  match a with
  | 0 => <[s := (v, (nth s m (0, 0)%Q).2)]> m
  | _ => <[s := ((nth s m (0, 0)%Q).1, v)]> m
  end.

Module SingleArmAnalyzer.

(** [self.dualvar]: the [cp.Parameter] created by [__init__], with its
    [value], or whatever was assigned to the field later. *)
Inductive dualvar_obj : Type :=
  | CpParameter (value : option Q)
  | PlainNumber (v : Q).

Record t : Type := mk {
  sspa_size : nat;
  trans_tensor : list (list Q * list Q);
  reward_tensor : list (Q * Q);
  act_frac : Q;
  EPS : Q;
  DUALSTEP : Q;
  MINSUBSIDY : Q;
  MAXSUBSIDY : Q;
  y_value : option (list (Q * Q));
  dualvar : dualvar_obj;
  opt_value : option Q;
  avg_reward : option Q;
  opt_subsidy : option Q;
  value_func_relaxed : list Q;
  q_func_relaxed : list (Q * Q)
}.

Definition set_dualvar (d : dualvar_obj) (self : t) : t :=
  mk (sspa_size self) (trans_tensor self) (reward_tensor self) (act_frac self)
     (EPS self) (DUALSTEP self) (MINSUBSIDY self) (MAXSUBSIDY self)
     (y_value self) d (opt_value self) (avg_reward self) (opt_subsidy self)
     (value_func_relaxed self) (q_func_relaxed self).

Definition set_y_value (y : list (Q * Q)) (self : t) : t :=
  mk (sspa_size self) (trans_tensor self) (reward_tensor self) (act_frac self)
     (EPS self) (DUALSTEP self) (MINSUBSIDY self) (MAXSUBSIDY self)
     (Some y) (dualvar self) (opt_value self) (avg_reward self) (opt_subsidy self)
     (value_func_relaxed self) (q_func_relaxed self).

Definition set_solution (y : list (Q * Q)) (v g l : Q) (vf : list Q)
    (qf : list (Q * Q)) (self : t) : t :=
  mk (sspa_size self) (trans_tensor self) (reward_tensor self) (act_frac self)
     (EPS self) (DUALSTEP self) (MINSUBSIDY self) (MAXSUBSIDY self)
     (Some y) (dualvar self) (Some v) (Some g) (Some l) vf qf.

Definition sspa (self : t) : list nat := seq 0 (sspa_size self).

(** [np.min] and [np.max] of the reward tensor; both raise on an empty one. *)
Definition Qmin_list (l : list Q) : result Q :=
  match l with
  | [] => Raise ValueError
  | x :: l' => Ok (foldl Qmin x l')
  end.
Definition Qmax_list (l : list Q) : result Q :=
  match l with
  | [] => Raise ValueError
  | x :: l' => Ok (foldl Qmax x l')
  end.
Definition flatten (m : list (Q * Q)) : list Q :=
  m ≫= λ p, [p.1; p.2].

Definition init (S : nat) (P : list (list Q * list Q)) (r : list (Q * Q))
    (alpha : Q) : result t :=
  min_reward ← Qmin_list (flatten r);
  max_reward ← Qmax_list (flatten r);
  let step := (5 # 100)%Q in
  Ok (mk S P r alpha (1 # 10000000)%Q step
         (- (max_reward - min_reward) - step)%Q
         ((max_reward - min_reward) + step)%Q
         None (CpParameter None) None None None
         (replicate S 0%Q) (replicate S (0, 0)%Q)).

(** [np.sum(self.trans_tensor[i, j, :] * self.value_func_relaxed)] *)
Definition expected_value (self : t) (i j : nat) (vf : list Q) : Q :=
  let row := nth i (trans_tensor self) ([], []) in
  np_sumQ (zip_with Qmult (match j with 0 => row.1 | _ => row.2 end) vf).

Definition solve_LP_Priority (cvx : lp_problem → cvx_solution) (self : t)
    (fixed_dual : option Q) : list nat * t :=
  let S := sspa_size self in
  (* the constraint list: S stationary constraints, then the budget
     constraint when the subsidy is free, then the two basic constraints *)
  let '(self, problem, n_constrs) :=
    match fixed_dual with
    | None => (self, ExactLP, S + 1 + 2)
    | Some d => (set_dualvar (PlainNumber d) self, RelaxedLP d, S + 2)
    end in
  let sol := cvx problem in
  let avg := sol_dual sol (n_constrs - 1) in
  let vf :=
    foldl (λ vf i, <[i := (- sol_dual sol i)%Q]> vf)
          (value_func_relaxed self) (seq 0 S) in
  let subsidy :=
    match fixed_dual with
    | None => sol_dual sol S
    | Some d => d
    end in
  let qf :=
    foldl (λ qf i,
      foldl (λ qf j,
        set_entry qf i j
          (entry (reward_tensor self) i j
           + subsidy * (if decide (j = 0%nat) then 1 else 0)
           - avg + expected_value self i j vf)%Q)
        qf (seq 0 2))
      (q_func_relaxed self) (seq 0 S) in
  let gap := (λ row : Q * Q, (row.2 - row.1)%Q) <$> qf in
  (np_flip (np_argsort gap),
   set_solution (sol_y sol) (sol_value sol) avg subsidy vf qf self).

(** A state is recorded passive at a solution:
    [y.value[state, 0] > EPS and y.value[state, 1] < EPS]. *)
Definition passive (self : t) (y : list (Q * Q)) (state : nat) : bool :=
  Qlt_bool (EPS self) (entry y state 0) && Qlt_bool (entry y state 1) (EPS self).

(** The subsidy sweep: one relaxed LP per grid point, filling column [i] of
    the passive table. Assigning [self.dualvar.value] needs the parameter
    object. *)
Fixpoint sweep (cvx : lp_problem → cvx_solution) (self : t)
    (passive_table : list (list bool)) (grid : list (nat * Q))
    : result (list (list bool)) * t :=
  match grid with
  | [] => (Ok passive_table, self)
  | (i, subsidy) :: grid' =>
      match dualvar self with
      | PlainNumber _ => (Raise AttributeError, self)
      | CpParameter _ =>
          let self := set_dualvar (CpParameter (Some subsidy)) self in
          let sol := cvx (RelaxedLP subsidy) in
          let self := set_y_value (sol_y sol) self in
          let passive_table :=
            foldl (λ tbl state,
              if passive self (sol_y sol) state
              then <[state := <[i := true]> (nth state tbl [])]> tbl
              else tbl)
              passive_table (sspa self) in
          sweep cvx self passive_table grid'
      end
  end.

(** The loop over the states that reads the thresholds off the table. *)
Record index_acc : Type := mk_acc {
  wi2state : list (nat * list nat);
  indexable : option bool;
  stdout : list string
}.

Definition tie_warning : string :=
  "Warning: two states have the same Whittle's index. Breaking ties favoring smaller states".

Fixpoint index_loop (passive_table : list (list bool)) (states : list nat)
    (acc : index_acc) : result index_acc :=
  match states with
  | [] => Ok acc
  | state :: states' =>
      let row := nth state passive_table [] in
      match np_where row with
      | [] => Raise IndexError
      | approx_wi :: _ =>
          let indexable := forallb (λ b, b) (drop approx_wi row) in
          match odict_get (wi2state acc) approx_wi with
          | None =>
              index_loop passive_table states'
                (mk_acc (odict_set (wi2state acc) approx_wi [state])
                        (Some indexable) (stdout acc))
          | Some l =>
              index_loop passive_table states'
                (mk_acc (odict_set (wi2state acc) approx_wi (l ++ [state]))
                        (Some indexable) (stdout acc ++ [tie_warning]))
          end
      end
  end.

Definition subsidy_values (self : t) : list Q :=
  np_arange (MINSUBSIDY self) (MAXSUBSIDY self) (DUALSTEP self).

Definition enumerate {A} (l : list A) : list (nat * A) := zip (seq 0 (length l)) l.

(** The value is the priority list, the flag and what was printed. *)
Definition solve_whittles_policy (cvx : lp_problem → cvx_solution) (self : t)
    : result (list nat * bool * list string) * t :=
  let grid := subsidy_values self in
  let zeros := replicate (sspa_size self) (replicate (length grid) false) in
  match sweep cvx self zeros (enumerate grid) with
  | (Raise e, self) => (Raise e, self)
  | (Ok passive_table, self) =>
      (acc ← index_loop passive_table (sspa self) (mk_acc [] None []);
       let wi2state_keys_sorted := sorted_reverse (odict_keys (wi2state acc)) in
       let wi2state_sorted :=
         (λ key, (key, default [] (odict_get (wi2state acc) key)))
           <$> wi2state_keys_sorted in
       let priority_list := wi2state_sorted ≫= λ kv, kv.2 in
       match indexable acc with
       | None => Raise UnboundLocalError
       | Some flag => Ok (priority_list, flag, stdout acc)
       end,
       self)
  end.

End SingleArmAnalyzer.

(** The integer budget of one step: [int(N * act_frac)] plus the
    randomized-rounding draw. *)
Definition rounded_budget (rng : np_random) (N : nat) (act_frac : Q) : result Z :=
  let x := (inject_Z (Z.of_nat N) * act_frac)%Q in
  let budget := py_int x in
  draw ← np_binomial1 rng (x - inject_Z budget)%Q;
  Ok (budget + draw)%Z.

(** [np.sum(actions)]: the number of activated arms of a 0/1 action array. *)
Definition num_active (actions : list Z) : nat :=
  length (filter (λ a, a = 1%Z) actions).

(** The randomized policy of a solution [y], as the constructors of
    [RandomTBPolicy] and [FTVAPolicy] build it: row [state] of [y] over its sum
    when the sum exceeds [EPS], one half each otherwise; then the assertion
    that every row sums to one. *)
Fixpoint policy_loop (EPS : Q) (y : list (Q * Q)) (state_probs : list Q)
    (states : list nat) (policy : list (Q * Q)) : result (list (Q * Q)) :=
  match states with
  | [] => Ok policy
  | state :: states' =>
      match state_probs !! state, y !! state with
      | Some p, Some row =>
          if Qlt_bool EPS p
          then policy_loop EPS y state_probs states'
                 (<[state := (row.1 / p, row.2 / p)%Q]> policy)
          else policy_loop EPS y state_probs states'
                 (set_entry (set_entry policy state 0 (1 # 2)) state 1 (1 # 2))
      | _, _ => Raise IndexError
      end
  end.

Definition make_policy (EPS : Q) (sspa_size : nat) (y : list (Q * Q))
    : result (list (Q * Q)) :=
  policy ← policy_loop EPS y (row_sums y) (seq 0 sspa_size)
             (replicate sspa_size (0, 0)%Q);
  if forallb (λ p, np_isclose p 1 (1 # 10000)) (row_sums policy)
  then Ok policy else Raise AssertionError.

Module PriorityPolicy.

Record t : Type := mk {
  sspa_size : nat;
  priority_list : list nat;
  N : nat;
  act_frac : Q
}.

Definition sspa (self : t) : list nat := seq 0 (sspa_size self).

(** [s2indices]: a dict whose keys are the states of [sspa]. *)
Definition s2indices (self : t) (cur_states : list nat) : gmap nat (list nat) :=
  list_to_map ((λ state, (state, np_where (np_eq_scalar cur_states state))) <$> sspa self).

(** The walk down the priority list; the value is [(actions, rem_budget)]. *)
Fixpoint fill (rng : np_random) (s2i : gmap nat (list nat)) (states : list nat)
    (actions : list Z) (rem_budget : Z) : result (list Z * Z) :=
  match states with
  | [] => Ok (actions, rem_budget)
  | state :: states' =>
      match s2i !! state with
      | None => Raise KeyError
      | Some indices =>
          let num_arms_this_state := Z.of_nat (length indices) in
          if decide (num_arms_this_state ≤ rem_budget)%Z
          then fill rng s2i states' (set_at indices 1%Z actions)
                    (rem_budget - num_arms_this_state)%Z
          else
            chosen_indices ← np_choice rng indices rem_budget;
            Ok (set_at chosen_indices 1%Z actions, 0%Z)
      end
  end.

Definition get_actions (rng : np_random) (self : t) (cur_states : list nat)
    : result (list Z) :=
  let s2i := s2indices self cur_states in
  let actions := replicate (N self) 0%Z in
  rem_budget ← rounded_budget rng (N self) (act_frac self);
  '(actions, rem_budget) ← fill rng s2i (priority_list self) actions rem_budget;
  if decide (rem_budget = 0%Z) then Ok actions else Raise AssertionError.

End PriorityPolicy.

Module FTVAPolicy.

Record t : Type := mk {
  sspa_size : nat;
  trans_tensor : list (list Q * list Q);
  reward_tensor : list (Q * Q);
  N : nat;
  act_frac : Q;
  policy : list (Q * Q);
  virtual_states : list nat
}.

Definition set_virtual_states (vs : list nat) (self : t) : t :=
  mk (sspa_size self) (trans_tensor self) (reward_tensor self) (N self)
     (act_frac self) (policy self) vs.

Definition sspa (self : t) : list nat := seq 0 (sspa_size self).

(** [sa_pairs]: all states with action 0, then all states with action 1. *)
Definition sa_pairs (self : t) : list (nat * Z) :=
  [0%Z; 1%Z] ≫= λ action, (λ state, (state, action)) <$> sspa self.

(** The virtual actions, drawn state by state from the randomized policy. *)
Definition draw_virtual_actions (rng : np_random) (self : t) : list Z :=
  foldl (λ va state,
    let indices := np_where (np_eq_scalar (virtual_states self) state) in
    set_at_list indices (sample_action rng state (length indices)) va)
    (replicate (N self) 0%Z) (sspa self).

(** The budget walk shared by the three level-based tie-breaking rules. *)
Fixpoint fill_levels (rng : np_random) (priority_levels : list (list nat))
    (actions : list Z) (rem_budget : Z) : result (list Z) :=
  match priority_levels with
  | [] => Ok actions
  | level_i_indices :: levels' =>
      if decide (Z.of_nat (length level_i_indices) ≤ rem_budget)%Z
      then fill_levels rng levels' (set_at level_i_indices 1%Z actions)
             (rem_budget - Z.of_nat (length level_i_indices))%Z
      else
        activate_indices ← np_choice rng level_i_indices rem_budget;
        Ok (set_at activate_indices 1%Z actions)
  end.

(** The four goodness classes, as 0/1 arrays: request and good, request and
    bad, no request and bad, no request and good. *)
Definition goodness_classes (self : t) (cur_states : list nat)
    (virtual_actions : list Z) : list (list Z) :=
  let good_arm_mask := Z.b2z <$> np_eq cur_states (virtual_states self) in
  [ zip_with (λ v g, v * g)%Z virtual_actions good_arm_mask;
    zip_with (λ v g, v * (1 - g))%Z virtual_actions good_arm_mask;
    zip_with (λ v g, (1 - v) * (1 - g))%Z virtual_actions good_arm_mask;
    zip_with (λ v g, (1 - v) * g)%Z virtual_actions good_arm_mask ].

Definition action_classes (virtual_actions : list Z) : list (list Z) :=
  [ virtual_actions; (λ v, 1 - v)%Z <$> virtual_actions ].

(** Each rough class refined by the priority list of [tb_param]. *)
Definition refine_by_priority (self : t) (rough_classes : list (list Z))
    (tb_param : list nat) : list (list nat) :=
  rough_classes ≫= λ rough_class,
    (λ state,
       np_nonzero (zip_with (λ c m, c * Z.b2z m)%Z rough_class
                     (np_eq_scalar (virtual_states self) state)))
      <$> tb_param.

Definition naive_actions (rng : np_random) (virtual_actions : list Z) (budget : Z)
    : result (list Z) :=
  let actions := virtual_actions in
  let num_requests := np_sumZ actions in
  if decide (budget < num_requests)%Z
  then
    let indices_request := np_where (np_eqZ_scalar virtual_actions 1%Z) in
    request_ignored ← np_choice rng indices_request (num_requests - budget)%Z;
    Ok (set_at request_ignored 0%Z actions)
  else
    let indices_no_request := np_where (np_eqZ_scalar actions 0%Z) in
    no_request_pulled ← np_choice rng indices_no_request (budget - num_requests)%Z;
    Ok (set_at no_request_pulled 1%Z actions).

(** [get_actions]: the value is [(actions, virtual_actions)]; the policy after
    the call comes with it. [tb_rule] is [None] or a string, [tb_param] is
    [None] or a list. *)
Definition get_actions (rng : np_random) (self : t) (cur_states : list nat)
    (tb_rule : option string) (tb_param : option (list nat))
    : result (list Z * list Z) * t :=
  (budget ← rounded_budget rng (N self) (act_frac self);
   let virtual_actions := draw_virtual_actions rng self in
   let zeros := replicate (N self) 0%Z in
   actions ←
     (if decide (tb_rule = None ∨ tb_rule = Some "goodness") then
        fill_levels rng
          (np_nonzero <$> goodness_classes self cur_states virtual_actions)
          zeros budget
      else if decide (tb_rule = Some "naive") then
        naive_actions rng virtual_actions budget
      else if decide (tb_rule = Some "priority") then
        match tb_param with
        | None => Raise AssertionError
        | Some tb_param =>
            fill_levels rng
              (refine_by_priority self (action_classes virtual_actions) tb_param)
              zeros budget
        end
      else if decide (tb_rule = Some "goodness-priority") then
        match tb_param with
        | None => Raise AssertionError
        | Some tb_param =>
            fill_levels rng
              (refine_by_priority self
                 (goodness_classes self cur_states virtual_actions) tb_param)
              zeros budget
        end
      else Raise NotImplementedError);
   Ok (actions, virtual_actions),
   self).

(** [virtual_step]: agreeing arms are coupled to the new real state, the
    others move by a draw from the kernel at their virtual state and action.
    The buckets of the second loop are all computed before any draw is
    written. *)
Definition virtual_step (rng : np_random) (self : t)
    (prev_states cur_states : list nat) (actions virtual_actions : list Z) : t :=
  let agree_mask :=
    zip_with andb (np_eq prev_states (virtual_states self))
                  (np_eqZ actions virtual_actions) in
  let agree_indices := np_where agree_mask in
  let vs := set_at_list agree_indices (take_at cur_states agree_indices)
              (virtual_states self) in
  let sa2indices :=
    (λ sa_pair : nat * Z,
       (sa_pair,
        np_where (zip_with andb
                    (zip_with andb (np_eq_scalar vs sa_pair.1)
                                   (np_eqZ_scalar virtual_actions sa_pair.2))
                    (negb <$> agree_mask))))
      <$> sa_pairs self in
  let vs :=
    foldl (λ vs b,
      let '(sa_pair, cur_indices) := b in
      set_at_list cur_indices
        (sample_next_state rng sa_pair.1 sa_pair.2 (length cur_indices)) vs)
      vs sa2indices in
  set_virtual_states vs self.

Definition get_virtual_states (self : t) : list nat := virtual_states self.

(** [__init__]: the virtual states are a copy of [init_virtual], or a uniform
    draw [random_states] when it is absent; the policy is built from [y]. *)
Definition init (sspa_size : nat) (trans_tensor : list (list Q * list Q))
    (reward_tensor : list (Q * Q)) (y : list (Q * Q)) (N : nat) (act_frac : Q)
    (init_virtual : option (list nat)) (random_states : list nat) : result t :=
  policy ← make_policy (1 # 10000000) sspa_size y;
  Ok (mk sspa_size trans_tensor reward_tensor N act_frac policy
         (default random_states init_virtual)).

End FTVAPolicy.

Module RandomTBPolicy.

Record t : Type := mk {
  sspa_size : nat;
  N : nat;
  act_frac : Q;
  y : list (Q * Q);
  EPS : Q;
  state_probs : list Q;
  policy : list (Q * Q)
}.

Definition sspa (self : t) : list nat := seq 0 (sspa_size self).

Definition init (sspa_size : nat) (y : list (Q * Q)) (N : nat) (act_frac : Q)
    : result t :=
  policy ← make_policy (1 # 10000000) sspa_size y;
  Ok (mk sspa_size N act_frac y (1 # 10000000) (row_sums y) policy).

(** The actions drawn arm by arm from the policy at the real states. *)
Definition draw_actions (rng : np_random) (self : t) (cur_states : list nat) : list Z :=
  foldl (λ actions state,
    let indices := np_where (np_eq_scalar cur_states state) in
    set_at_list indices (sample_action rng state (length indices)) actions)
    (replicate (N self) 0%Z) (sspa self).

(** [get_actions]: the drawn actions, repaired to the budget by switching a
    uniformly chosen part of the requests off, or of the others on. *)
Definition get_actions (rng : np_random) (self : t) (cur_states : list nat)
    : result (list Z) :=
  let actions := draw_actions rng self cur_states in
  budget ← rounded_budget rng (N self) (act_frac self);
  let num_requests := np_sumZ actions in
  if decide (budget < num_requests)%Z
  then
    let indices_request := np_where (np_eqZ_scalar actions 1%Z) in
    request_ignored ← np_choice rng indices_request (num_requests - budget)%Z;
    Ok (set_at request_ignored 0%Z actions)
  else
    let indices_no_request := np_where (np_eqZ_scalar actions 0%Z) in
    no_request_pulled ← np_choice rng indices_no_request (budget - num_requests)%Z;
    Ok (set_at no_request_pulled 1%Z actions).

End RandomTBPolicy.

Module RB.

Record t : Type := mk {
  sspa_size : nat;
  trans_tensor : list (list Q * list Q);
  reward_tensor : list (Q * Q);
  N : nat;
  states : list nat
}.

Definition set_states (states : list nat) (self : t) : t :=
  mk (sspa_size self) (trans_tensor self) (reward_tensor self) (N self) states.

Definition sspa (self : t) : list nat := seq 0 (sspa_size self).

Definition sa_pairs (self : t) : list (nat * Z) :=
  [0%Z; 1%Z] ≫= λ action, (λ state, (state, action)) <$> sspa self.

(** [__init__]: the two dicts read the tensors at every state-action pair,
    which needs a row per state; the states are a copy of [init_states], or all
    arms in state 0. *)
Definition init (sspa_size : nat) (trans_tensor : list (list Q * list Q))
    (reward_tensor : list (Q * Q)) (N : nat) (init_states : option (list nat))
    : result t :=
  if decide (sspa_size ≤ length trans_tensor ∧ sspa_size ≤ length reward_tensor)
  then Ok (mk sspa_size trans_tensor reward_tensor N
              (default (replicate N 0) init_states))
  else Raise IndexError.

Definition get_states (self : t) : list nat := states self.

(** [reward_dict[sa_pair]] *)
Definition reward_of (self : t) (sa_pair : nat * Z) : Q :=
  entry (reward_tensor self) sa_pair.1 (Z.to_nat sa_pair.2).

(** [step]: the arms of every state-action pair are bucketed first; then,
    pair by pair, the arms of the bucket move by a draw from the kernel and pay
    the reward of the pair. The value is the reward per arm. *)
Definition step (rng : np_random) (self : t) (actions : list Z) : Q * t :=
  let sa2indices :=
    (λ sa_pair : nat * Z,
       (sa_pair,
        np_where (zip_with andb (np_eq_scalar (states self) sa_pair.1)
                                (np_eqZ_scalar actions sa_pair.2))))
      <$> sa_pairs self in
  let '(states, instant_reward) :=
    foldl (λ acc b,
      let '(states, instant_reward) := acc in
      let '(sa_pair, indices) := b in
      (set_at_list indices
         (sample_next_state rng sa_pair.1 sa_pair.2 (length indices)) states,
       (instant_reward
        + reward_of self sa_pair * inject_Z (Z.of_nat (length indices)))%Q))
      (states self, 0%Q) sa2indices in
  ((instant_reward / inject_Z (Z.of_nat (N self)))%Q, set_states states self).

(** [np.where([mask])[0]]: the mask is wrapped in a list, so the first index
    array holds the row number 0 once per true entry. *)
Definition np_where_wrapped_rows (mask : list bool) : list nat :=
  (λ _, 0) <$> np_where mask.

Definition get_s_counts (self : t) : list Q :=
  foldl (λ s_counts state,
    <[state := inject_Z (Z.of_nat (length
                 (np_where_wrapped_rows (np_eq_scalar (states self) state))))]>
      s_counts)
    (replicate (sspa_size self) 0%Q) (sspa self).

Definition get_s_fracs (self : t) : list Q :=
  let s_counts := get_s_counts self in
  foldl (λ s_fracs state,
    <[state := (nth state s_counts 0 / inject_Z (Z.of_nat (N self)))%Q]> s_fracs)
    (replicate (sspa_size self) 0%Q) (sspa self).

End RB.

Module MeanFieldRB.

Record t : Type := mk {
  sspa_size : nat;
  trans_tensor : list (list Q * list Q);
  reward_tensor : list (Q * Q);
  EPS : Q;
  state_fracs : list Q
}.

Definition set_state_fracs (state_fracs : list Q) (self : t) : t :=
  mk (sspa_size self) (trans_tensor self) (reward_tensor self) (EPS self) state_fracs.

Definition sspa (self : t) : list nat := seq 0 (sspa_size self).

(** [__init__]: a copy of [init_state_fracs], or all the mass on state 0
    (which needs a state 0). *)
Definition init (sspa_size : nat) (trans_tensor : list (list Q * list Q))
    (reward_tensor : list (Q * Q)) (init_state_fracs : option (list Q)) : result t :=
  match init_state_fracs with
  | Some fracs => Ok (mk sspa_size trans_tensor reward_tensor (1 # 10000000) fracs)
  | None =>
      if decide (0 < sspa_size)
      then Ok (mk sspa_size trans_tensor reward_tensor (1 # 10000000)
                  (<[0 := 1%Q]> (replicate sspa_size 0%Q)))
      else Raise IndexError
  end.

(** [trans_tensor[:, :, new_state]]: one pair of entries per state (an
    ndarray is rectangular; its last axis is taken to have an entry for every
    state, as the kernel of a model has). *)
Definition trans_slice (self : t) (new_state : nat) : list (Q * Q) :=
  (λ row : list Q * list Q, (nth new_state row.1 0%Q, nth new_state row.2 0%Q))
    <$> trans_tensor self.

(** [np.sum(a * b)] of two arrays of two columns. *)
Definition sum_product (a b : list (Q * Q)) : result Q :=
  ab ← np_broadcast a b;
  Ok (np_sum2 ((λ p : (Q * Q) * (Q * Q), (p.1.1 * p.2.1, p.1.2 * p.2.2)%Q) <$> ab)).

Fixpoint new_fracs_loop (self : t) (sa_pair_fracs : list (Q * Q)) (states : list nat)
    (new_state_fracs : list Q) : result (list Q) :=
  match states with
  | [] => Ok new_state_fracs
  | new_state :: states' =>
      x ← sum_product sa_pair_fracs (trans_slice self new_state);
      new_fracs_loop self sa_pair_fracs states' (<[new_state := x]> new_state_fracs)
  end.

(** [step]: the value is the reward; the state fractions are replaced only
    when both assertions hold. *)
Definition step (self : t) (sa_pair_fracs : list (Q * Q)) : result Q * t :=
  match
    (sums ← np_broadcast (row_sums sa_pair_fracs) (state_fracs self);
     if forallb (λ p : Q * Q, np_isclose p.1 p.2 (1 # 10000)) sums then
       new_state_fracs ← new_fracs_loop self sa_pair_fracs (sspa self)
                           (replicate (sspa_size self) 0%Q);
       instant_reward ← sum_product sa_pair_fracs (reward_tensor self);
       if np_isclose (np_sumQ new_state_fracs) 1 (1 # 10000)
       then Ok (instant_reward, new_state_fracs)
       else Raise AssertionError
     else Raise AssertionError)
  with
  | Ok (instant_reward, new_state_fracs) =>
      (Ok instant_reward, set_state_fracs new_state_fracs self)
  | Raise e => (Raise e, self)
  end.

Definition get_state_fracs (self : t) : list Q := state_fracs self.

End MeanFieldRB.

(** ** Array helpers *)

(** The counting loop of [sa_list_to_freq]; [int(actions[i])] may be negative,
    which indexes the two columns from the end. *)
Fixpoint count_sa (sa : list (nat * Z)) (tbl : list (Z * Z))
    : result (list (Z * Z)) :=
  match sa with
  | [] => Ok tbl
  | (s, a) :: sa' =>
      match tbl !! s with
      | None => Raise IndexError
      | Some (c0, c1) =>
          if decide (a = 0 ∨ a = -2)%Z
          then count_sa sa' (<[s := ((c0 + 1)%Z, c1)]> tbl)
          else if decide (a = 1 ∨ a = -1)%Z
          then count_sa sa' (<[s := (c0, (c1 + 1)%Z)]> tbl)
          else Raise IndexError
      end
  end.

(** The frequencies are the counts over [len(states)]; on empty arrays numpy
    divides 0 by 0, which the rationals of this model do not render: the
    statements below take at least one arm. *)
Definition sa_list_to_freq (sspa_size : nat) (states : list nat) (actions : list Z)
    : result (list (Q * Q)) :=
  if decide (length states = length actions) then
    sa_pair_freq ← count_sa (zip states actions) (replicate sspa_size (0, 0)%Z);
    let n := inject_Z (Z.of_nat (length states)) in
    Ok (fmap (M:=list) (λ c : Z * Z, (inject_Z c.1 / n, inject_Z c.2 / n)%Q)
             sa_pair_freq)
  else Raise AssertionError.

(** ** Notions used by the statements *)

(** The analyzer as [__init__] leaves it and as the solve methods keep it: a
    nonempty state space, scratch arrays of one entry per state, a positive
    grid step and a subsidy interval that is not empty. *)
Record analyzer_ok (self : SingleArmAnalyzer.t) : Prop := {
  ok_states : 0 < SingleArmAnalyzer.sspa_size self;
  ok_value_func :
    length (SingleArmAnalyzer.value_func_relaxed self) = SingleArmAnalyzer.sspa_size self;
  ok_q_func :
    length (SingleArmAnalyzer.q_func_relaxed self) = SingleArmAnalyzer.sspa_size self;
  ok_step : (0 < SingleArmAnalyzer.DUALSTEP self)%Q;
  ok_grid : (SingleArmAnalyzer.MINSUBSIDY self < SingleArmAnalyzer.MAXSUBSIDY self)%Q
}.

(** Row [state] of the passive table, read off the solver: entry [i] tells
    whether the state is recorded passive at the [i]-th subsidy of the grid. *)
Definition passive_row (cvx : lp_problem → cvx_solution) (self : SingleArmAnalyzer.t)
    (state : nat) : list bool :=
  (λ subsidy, SingleArmAnalyzer.passive self (sol_y (cvx (RelaxedLP subsidy))) state)
    <$> SingleArmAnalyzer.subsidy_values self.

(** The threshold of a state: the first grid position at which it is passive. *)
Definition approx_wi (cvx : lp_problem → cvx_solution) (self : SingleArmAnalyzer.t)
    (state : nat) : option nat :=
  head (np_where (passive_row cvx self state)).

(** Indexability of one state on the grid: passive at every grid position from
    its threshold on. *)
Definition stays_passive (cvx : lp_problem → cvx_solution)
    (self : SingleArmAnalyzer.t) (state : nat) : Prop :=
  ∀ i j, approx_wi cvx self state = Some i → i ≤ j →
    j < length (passive_row cvx self state) →
    passive_row cvx self state !! j = Some true.

(** Higher priority in the Whittle order: a larger threshold, or the same
    threshold and a smaller state. *)
Definition whittle_before (cvx : lp_problem → cvx_solution)
    (self : SingleArmAnalyzer.t) (s t : nat) : Prop :=
  ∃ ws wt, approx_wi cvx self s = Some ws ∧ approx_wi cvx self t = Some wt ∧
    (wt < ws ∨ (wt = ws ∧ s < t)).

(** Modelled from the spec: the simulation driver is not among the sources; it
    calls [virtual_step] once per round with the real states before and after
    the round, so the current states of one round are the previous states of
    the next. A round carries its draws, the new real states and the two
    action arrays. *)
Record round : Type := {
  round_rng : np_random;
  round_cur_states : list nat;
  round_actions : list Z;
  round_virtual_actions : list Z
}.

Fixpoint run_rounds (self : FTVAPolicy.t) (prev_states : list nat)
    (rounds : list round) : FTVAPolicy.t * list nat :=
  match rounds with
  | [] => (self, prev_states)
  | r :: rounds' =>
      run_rounds
        (FTVAPolicy.virtual_step (round_rng r) self prev_states
           (round_cur_states r) (round_actions r) (round_virtual_actions r))
        (round_cur_states r) rounds'
  end.

(** A round is well-shaped for [n] arms, and arm [i] takes its virtual action. *)
Definition round_shape (n : nat) (r : round) : Prop :=
  length (round_cur_states r) = n ∧ length (round_actions r) = n ∧
  length (round_virtual_actions r) = n.
Definition round_agrees (i : nat) (r : round) : Prop :=
  round_actions r !! i = round_virtual_actions r !! i.

(** The priority level of an arm under the goodness rule, 0 the highest. *)
Definition goodness_level (cur_state virtual_state : nat) (virtual_action : Z) : nat :=
  if decide (virtual_action = 1%Z) then
    if decide (cur_state = virtual_state) then 0 else 1
  else
    if decide (cur_state = virtual_state) then 3 else 2.

(** The level of arm [i] and the arms of a level, given the three arrays. *)
Definition arm_level (cur_states virtual_states : list nat)
    (virtual_actions : list Z) (i : nat) : option nat :=
  c ← cur_states !! i;
  v ← virtual_states !! i;
  a ← virtual_actions !! i;
  Some (goodness_level c v a).

Definition level_arms (cur_states virtual_states : list nat)
    (virtual_actions : list Z) (lvl : nat) : list nat :=
  filter (λ i, arm_level cur_states virtual_states virtual_actions i = Some lvl)
    (seq 0 (length virtual_actions)).

(** The passive table the sweep builds when it runs to its end, and the
    threshold read off one of its rows. *)
Definition passive_table_of (cvx : lp_problem → cvx_solution)
    (self : SingleArmAnalyzer.t) : list (list bool) :=
  passive_row cvx self <$> SingleArmAnalyzer.sspa self.

Definition row_threshold (passive_table : list (list bool)) (state : nat) : option nat :=
  head (np_where (nth state passive_table [])).

(** The states of [states] whose threshold is [k], in the order of [states]. *)
Definition states_at (passive_table : list (list bool)) (k : nat)
    (states : list nat) : list nat :=
  filter (λ s, row_threshold passive_table s = Some k) states.

(** A state of the list repeats the threshold of an earlier one. *)
Definition has_tie (cvx : lp_problem → cvx_solution) (self : SingleArmAnalyzer.t)
    : Prop :=
  ∃ s t k, s < t ∧ t < SingleArmAnalyzer.sspa_size self ∧
    approx_wi cvx self s = Some k ∧ approx_wi cvx self t = Some k.

(** The rows of the table after the columns of [done] are filled and before
    the [n] remaining ones are. *)
Definition partial_table (cvx : lp_problem → cvx_solution) (self : SingleArmAnalyzer.t)
    (done : list Q) (n : nat) : list (list bool) :=
  (λ state,
     ((λ subsidy, SingleArmAnalyzer.passive self (sol_y (cvx (RelaxedLP subsidy))) state)
        <$> done) ++ replicate n false)
    <$> SingleArmAnalyzer.sspa self.

(** The check of one row: passive at every column from the threshold on. *)
Definition row_check (passive_table : list (list bool)) (state : nat) : bool :=
  match row_threshold passive_table state with
  | Some approx_wi => forallb (λ b, b) (drop approx_wi (nth state passive_table []))
  | None => false
  end.

(** The entry of a key once the states [l] have been filed under it. *)
Definition filed (entry : option (list nat)) (l : list nat) : option (list nat) :=
  match entry with
  | Some l0 => Some (l0 ++ l)
  | None => match l with [] => None | _ => Some l end
  end.

(** The number of activated arms among the arms of [arms]. *)
Definition active_in (actions : list Z) (arms : list nat) : nat :=
  length (filter (λ i, actions !! i = Some 1%Z) arms).

(** The budget left after the walk over the levels. *)
Fixpoint rem_after (priority_levels : list (list nat)) (rem_budget : Z) : Z :=
  match priority_levels with
  | [] => rem_budget
  | level_i_indices :: levels' =>
      if decide (Z.of_nat (length level_i_indices) ≤ rem_budget)%Z
      then rem_after levels' (rem_budget - Z.of_nat (length level_i_indices))%Z
      else 0%Z
  end.

(** The number of arms in state [s]. *)
Definition count_state (states : list nat) (s : nat) : nat :=
  length (filter (λ x, x = s) states).

(** Row [state] of the randomized policy of [y]. *)
Definition policy_row (EPS : Q) (y : list (Q * Q)) (state : nat) : Q * Q :=
  let row := nth state y (0, 0)%Q in
  let p := (row.1 + row.2)%Q in
  if Qlt_bool EPS p then (row.1 / p, row.2 / p)%Q else (1 # 2, 1 # 2)%Q.

(** The arms whose previous real state and real action equal the virtual
    ones, as a mask; and the other arms with virtual state and virtual action
    [sa_pair], ascending. *)
Definition agree_mask (self : FTVAPolicy.t) (prev_states : list nat)
    (actions virtual_actions : list Z) : list bool :=
  zip_with andb (np_eq prev_states (FTVAPolicy.virtual_states self))
                (np_eqZ actions virtual_actions).

Definition bad_arms (self : FTVAPolicy.t) (prev_states : list nat)
    (actions virtual_actions : list Z) (sa_pair : nat * Z) : list nat :=
  np_where (zip_with andb
              (zip_with andb (np_eq_scalar (FTVAPolicy.virtual_states self) sa_pair.1)
                             (np_eqZ_scalar virtual_actions sa_pair.2))
              (negb <$> agree_mask self prev_states actions virtual_actions)).

(** A distribution over [S] states, and a kernel with a distribution per
    state and action. *)
Definition simplex (S : nat) (f : list Q) : Prop :=
  length f = S ∧ Forall (λ x, 0 <= x)%Q f ∧ (np_sumQ f == 1)%Q.

Definition stochastic (S : nat) (P : list (list Q * list Q)) : Prop :=
  length P = S ∧ Forall (λ row, simplex S row.1 ∧ simplex S row.2) P.

(** The mean-field image of state-action fractions: the mass that moves to
    [new_state], and the reward. *)
Definition mean_field_next (sa_pair_fracs : list (Q * Q))
    (trans_tensor : list (list Q * list Q)) (new_state : nat) : Q :=
  np_sumQ (zip_with (λ x row, x.1 * nth new_state row.1 0 + x.2 * nth new_state row.2 0)%Q
             sa_pair_fracs trans_tensor).

Definition mean_field_reward (sa_pair_fracs reward_tensor : list (Q * Q)) : Q :=
  np_sumQ (zip_with (λ x r, x.1 * r.1 + x.2 * r.2)%Q sa_pair_fracs reward_tensor).

(** The action gap of state [s] in a q-function: [q[s, 1] - q[s, 0]]. *)
Definition action_gap (q_func : list (Q * Q)) (s : nat) : Q :=
  (entry q_func s 1 - entry q_func s 0)%Q.

(** ** Concrete inputs *)

(** Draws: the rounding draw is 1 whenever it can be, a choice without
    replacement takes the first entries, every sampled action is 1 and every
    sampled next state is the state itself. *)
Definition rng_first : np_random := {|
  binomial1 := λ p, if Qle_bool p 0 then 0%Z else 1%Z;
  choice_without_replacement := λ a k, take k a;
  sample_action := λ s n, replicate n 1%Z;
  sample_next_state := λ s a n, replicate n s
|}.

(** Two arms over two states; arm 0 starts coupled. *)
Definition ftva_two_arms : FTVAPolicy.t :=
  FTVAPolicy.mk 2 [([1; 0], [0; 1]); ([0; 1], [1; 0])]%Q [(0, 0); (1, 1)]%Q
                2 (1 # 2) [(1 # 2, 1 # 2); (1 # 2, 1 # 2)]%Q [0; 1].

Definition round_a : round :=
  {| round_rng := rng_first; round_cur_states := [1; 0];
     round_actions := [1; 0]%Z; round_virtual_actions := [1; 1]%Z |}.
Definition round_b : round :=
  {| round_rng := rng_first; round_cur_states := [0; 0];
     round_actions := [0; 1]%Z; round_virtual_actions := [0; 0]%Z |}.

(** A two-state arm. Passive, both states move to state 1; active, both move
    to state 0; activating pays 1/2 in state 1 and costs 1/2 in state 0. *)
Definition two_state_P : list (list Q * list Q) :=
  [([0; 1], [1; 0]); ([0; 1], [1; 0])]%Q.
Definition two_state_r : list (Q * Q) := [(0, - (1 # 2)); (0, 1 # 2)]%Q.

Definition analyzer_two_states : SingleArmAnalyzer.t :=
  SingleArmAnalyzer.mk 2 two_state_P two_state_r (1 # 2)
    (1 # 10000000) (5 # 100)
    (- ((1 # 2) - - (1 # 2)) - (5 # 100))%Q (((1 # 2) - - (1 # 2)) + (5 # 100))%Q
    None (SingleArmAnalyzer.CpParameter None) None None None
    [0; 0]%Q [(0, 0); (0, 0)]%Q.

(** Its LP solutions, with the floor [1e-8] of [y]: below the subsidy 1/2 the
    arm alternates (passive in state 0, active in state 1); from 1/2 on it
    rests in state 1, and state 0 keeps only the floor. *)
Definition y_alternate : list (Q * Q) :=
  [((1 # 2) - (1 # 100000000), 1 # 100000000);
   (1 # 100000000, (1 # 2) - (1 # 100000000))]%Q.
Definition y_rest : list (Q * Q) :=
  [(1 # 100000000, 1 # 100000000);
   (1 - (3 # 100000000), 1 # 100000000)]%Q.

Definition cvx_two_states (problem : lp_problem) : cvx_solution :=
  match problem with
  | ExactLP =>
      {| sol_value := 0; sol_y := y_alternate; sol_dual := λ _, 0%Q |}
  | RelaxedLP subsidy =>
      {| sol_value := 0;
         sol_y := if Qlt_bool subsidy (1 # 2) then y_alternate else y_rest;
         sol_dual := λ _, 0%Q |}
  end.

(** A solver that always answers with the alternating solution: state 1 is
    never recorded passive. *)
Definition cvx_alternate (problem : lp_problem) : cvx_solution :=
  {| sol_value := 0; sol_y := y_alternate; sol_dual := λ _, 0%Q |}.

(** Five arms over two states, state 1 first, half of the arms activated. *)
Definition priority_policy_five : PriorityPolicy.t :=
  PriorityPolicy.mk 2 [1; 0] 5 (1 # 2).

(** Five arms, the even split as solution: every state requests with
    probability one half. *)
Definition random_tb_five : RandomTBPolicy.t :=
  RandomTBPolicy.mk 2 5 (1 # 2) [(1 # 4, 1 # 4); (1 # 4, 1 # 4)]%Q (1 # 10000000)
    [1 # 2; 1 # 2]%Q [(1 # 2, 1 # 2); (1 # 2, 1 # 2)]%Q.

(** Five arms of the two-state model in the environment. *)
Definition rb_five : RB.t := RB.mk 2 two_state_P two_state_r 5 [0; 1; 0; 1; 1].

(** The mean-field system of the two-state model, all the mass on state 0. *)
Definition mean_field_two_states : MeanFieldRB.t :=
  MeanFieldRB.mk 2 two_state_P two_state_r (1 # 10000000) [1; 0]%Q.
(** * Properties

    ** Arrays *)

Lemma elem_of_np_where (mask : list bool) (i : nat) :
  i ∈ np_where mask ↔ mask !! i = Some true.
Proof.
  unfold np_where. rewrite list_elem_of_filter, elem_of_seq. split.
  - tauto.
  - intros H. split; [done|]. apply lookup_lt_Some in H. lia.
Qed.

Lemma NoDup_np_where (mask : list bool) : NoDup (np_where mask).
Proof. apply NoDup_filter, NoDup_seq. Qed.

Lemma np_where_lt (mask : list bool) (i : nat) :
  i ∈ np_where mask → i < length mask.
Proof. rewrite elem_of_np_where. apply lookup_lt_Some. Qed.

Lemma length_set_at {A} (idxs : list nat) (v : A) (a : list A) :
  length (set_at idxs v a) = length a.
Proof.
  unfold set_at. revert a. induction idxs as [|i idxs IH]; intros a; simpl; [done|].
  by rewrite IH, length_insert.
Qed.

Lemma lookup_set_at_notin {A} (idxs : list nat) (v : A) (a : list A) (i : nat) :
  i ∉ idxs → set_at idxs v a !! i = a !! i.
Proof.
  unfold set_at. revert a. induction idxs as [|j idxs IH]; intros a Hi; simpl; [done|].
  apply not_elem_of_cons in Hi as [Hne Hi].
  rewrite IH by done. by apply list_lookup_insert_ne.
Qed.

Lemma lookup_set_at_in {A} (idxs : list nat) (v : A) (a : list A) (i : nat) :
  i ∈ idxs → i < length a → set_at idxs v a !! i = Some v.
Proof.
  unfold set_at. revert a. induction idxs as [|j idxs IH]; intros a Hi Hlt; simpl.
  - by apply elem_of_nil in Hi.
  - destruct (decide (i ∈ idxs)) as [Hin|Hnin].
    + apply IH; [done|]. by rewrite length_insert.
    + apply elem_of_cons in Hi as [->|]; [|done].
      fold (set_at idxs v (<[j:=v]> a)). rewrite lookup_set_at_notin by done.
      by apply list_lookup_insert_eq.
Qed.

Lemma length_set_at_list {A} (idxs : list nat) (vals : list A) (a : list A) :
  length (set_at_list idxs vals a) = length a.
Proof.
  unfold set_at_list. generalize (zip idxs vals) as l. intros l. revert a.
  induction l as [|[i x] l IH]; intros a; simpl; [done|].
  by rewrite IH, length_insert.
Qed.

Lemma lookup_set_at_list_notin {A} (idxs : list nat) (vals : list A) (a : list A) (i : nat) :
  i ∉ idxs → set_at_list idxs vals a !! i = a !! i.
Proof.
  unfold set_at_list. revert vals a.
  induction idxs as [|j idxs IH]; intros vals a Hi; simpl; [done|].
  destruct vals as [|x vals]; simpl; [done|].
  apply not_elem_of_cons in Hi as [Hne Hi].
  rewrite IH by done. by apply list_lookup_insert_ne.
Qed.

Lemma lookup_set_at_list_in {A} (idxs : list nat) (vals : list A) (a : list A)
    (k i : nat) (x : A) :
  NoDup idxs → idxs !! k = Some i → vals !! k = Some x → i < length a →
  set_at_list idxs vals a !! i = Some x.
Proof.
  unfold set_at_list. revert vals a k.
  induction idxs as [|j idxs IH]; intros vals a k Hnd Hk Hx Hlt; [done|].
  destruct vals as [|y vals]; [done|].
  apply NoDup_cons in Hnd as [Hj Hnd]. destruct k as [|k]; simpl in *.
  - simplify_eq. fold (set_at_list idxs vals (<[i:=x]> a)).
    rewrite lookup_set_at_list_notin by done. by apply list_lookup_insert_eq.
  - eapply IH; eauto. by rewrite length_insert.
Qed.

(** ** FTVA: the coupling step *)

Lemma lookup_np_eq (a b : list nat) (i : nat) (x y : nat) :
  a !! i = Some x → b !! i = Some y →
  np_eq a b !! i = Some (bool_decide (x = y)).
Proof.
  intros Ha Hb. unfold np_eq. rewrite lookup_zip_with, Ha. simpl. by rewrite Hb.
Qed.

Lemma lookup_np_eqZ (a b : list Z) (i : nat) (x y : Z) :
  a !! i = Some x → b !! i = Some y →
  np_eqZ a b !! i = Some (bool_decide (x = y)).
Proof.
  intros Ha Hb. unfold np_eqZ. rewrite lookup_zip_with, Ha. simpl. by rewrite Hb.
Qed.

Lemma lookup_take_at (a : list nat) (idxs : list nat) (k i : nat) (x : nat) :
  idxs !! k = Some i → a !! i = Some x → take_at a idxs !! k = Some x.
Proof.
  intros Hk Hi. unfold take_at. rewrite list_lookup_fmap, Hk. simpl.
  f_equal. by apply list_lookup_total_correct.
Qed.

(** Writing draws into buckets that do not hold arm [i] leaves its entry. *)
Lemma lookup_fold_buckets (rng : np_random) (buckets : list (nat * Z * list nat))
    (vs : list nat) (i : nat) :
  Forall (λ b, i ∉ b.2) buckets →
  foldl (λ vs b,
      let '(sa_pair, cur_indices) := b in
      set_at_list cur_indices
        (sample_next_state rng sa_pair.1 sa_pair.2 (length cur_indices)) vs)
    vs buckets !! i = vs !! i.
Proof.
  revert vs. induction buckets as [|[sa idx] buckets IH]; intros vs Hb; simpl; [done|].
  apply Forall_cons in Hb as [Hi Hb]. rewrite IH by done.
  by apply lookup_set_at_list_notin.
Qed.

Lemma length_fold_buckets (rng : np_random) (buckets : list (nat * Z * list nat))
    (vs : list nat) :
  length (foldl (λ vs b,
      let '(sa_pair, cur_indices) := b in
      set_at_list cur_indices
        (sample_next_state rng sa_pair.1 sa_pair.2 (length cur_indices)) vs)
    vs buckets) = length vs.
Proof.
  revert vs. induction buckets as [|[sa idx] buckets IH]; intros vs; simpl; [done|].
  by rewrite IH, length_set_at_list.
Qed.

Lemma length_virtual_step rng self prev cur actions va :
  length (FTVAPolicy.virtual_states (FTVAPolicy.virtual_step rng self prev cur actions va))
  = length (FTVAPolicy.virtual_states self).
Proof.
  unfold FTVAPolicy.virtual_step. simpl.
  by rewrite length_fold_buckets, length_set_at_list.
Qed.

(** One step: an agreeing arm gets its new real state. *)
Lemma virtual_step_agree rng self prev cur actions va (i : nat) (p c : nat) (a : Z) :
  prev !! i = Some p → FTVAPolicy.virtual_states self !! i = Some p →
  actions !! i = Some a → va !! i = Some a → cur !! i = Some c →
  FTVAPolicy.virtual_states (FTVAPolicy.virtual_step rng self prev cur actions va) !! i
  = Some c.
Proof.
  intros Hp Hv Ha Hva Hc. unfold FTVAPolicy.virtual_step. simpl.
  set (agree_mask := zip_with andb (np_eq prev (FTVAPolicy.virtual_states self))
                       (np_eqZ actions va)).
  assert (Hmask : agree_mask !! i = Some true).
  { unfold agree_mask. rewrite lookup_zip_with.
    rewrite (lookup_np_eq _ _ _ _ _ Hp Hv). simpl.
    rewrite (lookup_np_eqZ _ _ _ _ _ Ha Hva). simpl.
    by rewrite !bool_decide_eq_true_2. }
  rewrite lookup_fold_buckets.
  - assert (Hin : i ∈ np_where agree_mask) by by apply elem_of_np_where.
    apply list_elem_of_lookup in Hin as [k Hk].
    eapply lookup_set_at_list_in; eauto using NoDup_np_where, lookup_take_at.
    by apply lookup_lt_Some in Hv.
  - apply Forall_fmap, Forall_forall. intros sa _. simpl.
    rewrite elem_of_np_where, lookup_zip_with.
    destruct (zip_with andb _ _ !! i) as [b|]; simpl; [|done].
    rewrite list_lookup_fmap, Hmask. simpl. by rewrite andb_false_r.
Qed.

(** C2. An arm whose previous real state equals its virtual state and whose
    real action equals its virtual action is coupled by [virtual_step]: its
    virtual state becomes its new real state. Hence, over any sequence of
    rounds in which the arm keeps taking its virtual action, starting from a
    round at which its real and virtual states coincide, the virtual state
    equals the real state after every round (the statement holds for every
    length of the sequence, so for every round of it). *)
Theorem ftva_coupling_absorbing (self : FTVAPolicy.t) (prev_states : list nat)
    (first : round) (rest : list round) (n i : nat) :
  length (FTVAPolicy.virtual_states self) = n →
  length prev_states = n →
  Forall (round_shape n) (first :: rest) →
  i < n →
  prev_states !! i = FTVAPolicy.virtual_states self !! i →
  Forall (round_agrees i) (first :: rest) →
  ∃ s, FTVAPolicy.virtual_states (run_rounds self prev_states (first :: rest)).1 !! i
       = Some s
     ∧ (run_rounds self prev_states (first :: rest)).2 !! i = Some s.
Proof.
  generalize (first :: rest) as rounds. clear first rest.
  intros rounds. revert self prev_states.
  induction rounds as [|r rounds IH]; intros self prev Hvs Hprev Hshape Hi Heq Hagree.
  - simpl. destruct (lookup_lt_is_Some_2 prev i) as [s Hs]; [lia|].
    exists s. by rewrite <- Heq.
  - apply Forall_cons in Hshape as [(Hc & Ha & Hva) Hshape].
    apply Forall_cons in Hagree as [Hag Hagree].
    destruct (lookup_lt_is_Some_2 prev i) as [p Hp]; [lia|].
    destruct (lookup_lt_is_Some_2 (round_cur_states r) i) as [c Hcur]; [lia|].
    destruct (lookup_lt_is_Some_2 (round_actions r) i) as [a Hact]; [lia|].
    simpl. apply IH; try done.
    + by rewrite length_virtual_step.
    + rewrite Hcur. symmetry. eapply virtual_step_agree; eauto.
      * by rewrite <- Heq.
      * by rewrite <- Hag.
Qed.

Lemma ftva_coupling_absorbing_witness :
  ∃ s, FTVAPolicy.virtual_states
         (run_rounds ftva_two_arms [0; 0] [round_a; round_b]).1 !! 0 = Some s
     ∧ (run_rounds ftva_two_arms [0; 0] [round_a; round_b]).2 !! 0 = Some s.
Proof.
  apply (ftva_coupling_absorbing ftva_two_arms [0; 0] round_a [round_b] 2 0);
    [reflexivity | reflexivity | repeat constructor | lia | reflexivity
    | repeat constructor].
Defined.

(** ** FTVA: unsupported tie-breaking rules *)

(** C5. With a [tb_rule] that is a string other than "goodness", "naive",
    "priority" and "goodness-priority", [get_actions] raises instead of
    returning actions (NotImplementedError, or the ValueError of the rounding
    draw when [N * act_frac] is out of range), and the policy after the call,
    its [virtual_states] included, is the policy before it. *)
Theorem get_actions_unsupported_rule (rng : np_random) (self : FTVAPolicy.t)
    (cur_states : list nat) (tb_rule : string) (tb_param : option (list nat)) :
  tb_rule ≠ "goodness" → tb_rule ≠ "naive" → tb_rule ≠ "priority" →
  tb_rule ≠ "goodness-priority" →
  ∃ e, FTVAPolicy.get_actions rng self cur_states (Some tb_rule) tb_param
       = (Raise e, self)
     ∧ (e = NotImplementedError ∨ e = ValueError)
     ∧ FTVAPolicy.virtual_states
         (FTVAPolicy.get_actions rng self cur_states (Some tb_rule) tb_param).2
       = FTVAPolicy.virtual_states self.
Proof.
  intros H1 H2 H3 H4. unfold FTVAPolicy.get_actions.
  destruct (rounded_budget rng (FTVAPolicy.N self) (FTVAPolicy.act_frac self))
    as [budget|e] eqn:Hb; simpl.
  - rewrite decide_False by (intros [?|?]; congruence).
    rewrite !decide_False by congruence. simpl.
    exists NotImplementedError. auto.
  - exists e. split_and!; [done| |done].
    unfold rounded_budget in Hb. unfold np_binomial1 in Hb.
    destruct (_ && _); simpl in Hb; [done|]. right. congruence.
Qed.

Lemma get_actions_unsupported_rule_witness :
  ∃ e, FTVAPolicy.get_actions rng_first ftva_two_arms [0; 0] (Some "greedy") None
       = (Raise e, ftva_two_arms)
     ∧ (e = NotImplementedError ∨ e = ValueError)
     ∧ FTVAPolicy.virtual_states
         (FTVAPolicy.get_actions rng_first ftva_two_arms [0; 0] (Some "greedy") None).2
       = FTVAPolicy.virtual_states ftva_two_arms.
Proof.
  apply (get_actions_unsupported_rule rng_first ftva_two_arms [0; 0] "greedy" None);
    by vm_compute.
Defined.

(** ** The analyzer *)

Lemma Qceiling_pos (x : Q) : (0 < x)%Q → (0 < Qceiling x)%Z.
Proof.
  intros Hx. pose proof (Qle_ceiling x) as Hc.
  assert (H : (inject_Z 0 < inject_Z (Qceiling x))%Q) by (eapply Qlt_le_trans; eauto).
  by rewrite <- Zlt_Qlt in H.
Qed.

Lemma subsidy_values_nonempty (self : SingleArmAnalyzer.t) :
  analyzer_ok self → 0 < length (SingleArmAnalyzer.subsidy_values self).
Proof.
  intros [_ _ _ Hstep Hgrid]. unfold SingleArmAnalyzer.subsidy_values, np_arange.
  rewrite length_fmap, length_seq.
  assert (0 < Qceiling ((SingleArmAnalyzer.MAXSUBSIDY self
                         - SingleArmAnalyzer.MINSUBSIDY self)
                        / SingleArmAnalyzer.DUALSTEP self))%Z; [|lia].
  apply Qceiling_pos. apply Qlt_shift_div_l; [done|].
  rewrite Qmult_0_l. by apply (Qlt_minus_iff (SingleArmAnalyzer.MINSUBSIDY self)).
Qed.

Lemma length_set_entry (m : list (Q * Q)) (s a : nat) (v : Q) :
  length (set_entry m s a v) = length m.
Proof. destruct a; simpl; apply length_insert. Qed.

Lemma length_foldl_preserve {A B} (f : list A → B → list A) (l : list B) (a : list A) :
  (∀ a b, length (f a b) = length a) → length (foldl f a l) = length a.
Proof.
  intros Hf. revert a. induction l as [|b l IH]; intros a; simpl; [done|].
  by rewrite IH, Hf.
Qed.

(** [solve_LP_Priority] keeps the shape of the analyzer. *)
Lemma solve_LP_Priority_ok cvx self fixed_dual :
  analyzer_ok self → analyzer_ok (SingleArmAnalyzer.solve_LP_Priority cvx self fixed_dual).2.
Proof.
  intros [HS Hvf Hqf Hstep Hgrid].
  unfold SingleArmAnalyzer.solve_LP_Priority.
  destruct fixed_dual as [d|]; simpl; split; simpl; try done.
  all: rewrite length_foldl_preserve; [done|]; intros a b.
  all: by rewrite !length_insert.
Qed.

(** C10. [solve_LP_Priority] with a subsidy overwrites the [dualvar] field
    with the plain number, whatever it held before; on the analyzer it leaves,
    [solve_whittles_policy] raises AttributeError at the first assignment to
    [dualvar.value] of the sweep, whatever the solver would answer. *)
Theorem fixed_dual_breaks_whittles (cvx cvx' : lp_problem → cvx_solution)
    (self : SingleArmAnalyzer.t) (d : Q) :
  analyzer_ok self →
  SingleArmAnalyzer.dualvar (SingleArmAnalyzer.solve_LP_Priority cvx self (Some d)).2
  = SingleArmAnalyzer.PlainNumber d
  ∧ (SingleArmAnalyzer.solve_whittles_policy cvx'
       (SingleArmAnalyzer.solve_LP_Priority cvx self (Some d)).2).1
    = Raise AttributeError.
Proof.
  intros Hok. split; [done|].
  pose proof (solve_LP_Priority_ok cvx self (Some d) Hok) as Hok'.
  apply subsidy_values_nonempty in Hok'.
  unfold SingleArmAnalyzer.solve_whittles_policy, SingleArmAnalyzer.enumerate.
  destruct (SingleArmAnalyzer.subsidy_values _) as [|l grid] eqn:Hg;
    [simpl in Hok'; lia|].
  done.
Qed.

Lemma fixed_dual_breaks_whittles_witness :
  SingleArmAnalyzer.dualvar
    (SingleArmAnalyzer.solve_LP_Priority cvx_two_states analyzer_two_states (Some 0%Q)).2
  = SingleArmAnalyzer.PlainNumber 0%Q
  ∧ (SingleArmAnalyzer.solve_whittles_policy cvx_two_states
       (SingleArmAnalyzer.solve_LP_Priority cvx_two_states analyzer_two_states
          (Some 0%Q)).2).1
    = Raise AttributeError.
Proof.
  apply (fixed_dual_breaks_whittles cvx_two_states cvx_two_states
           analyzer_two_states 0%Q).
  split; [simpl; lia | reflexivity..].
Defined.

Lemma foldl_Qmin_le (l : list Q) (x : Q) : (foldl Qmin x l <= x)%Q.
Proof.
  revert x. induction l as [|y l IH]; intros x; simpl; [apply Qle_refl|].
  eapply Qle_trans; [apply IH|]. apply Q.le_min_l.
Qed.

Lemma foldl_Qmax_ge (l : list Q) (x : Q) : (x <= foldl Qmax x l)%Q.
Proof.
  revert x. induction l as [|y l IH]; intros x; simpl; [apply Qle_refl|].
  eapply Qle_trans; [|apply IH]. apply Q.le_max_l.
Qed.

(** [__init__] gives a well-shaped analyzer whose [dualvar] is the parameter
    object. *)
Lemma init_ok (S : nat) P r alpha (self : SingleArmAnalyzer.t) :
  0 < S → SingleArmAnalyzer.init S P r alpha = Ok self →
  analyzer_ok self
  ∧ SingleArmAnalyzer.dualvar self = SingleArmAnalyzer.CpParameter None.
Proof.
  intros HS. unfold SingleArmAnalyzer.init.
  destruct (SingleArmAnalyzer.flatten r) as [|x l]; simpl; [done|].
  intros [= <-]. split; [|done].
  split; simpl; try done; try apply length_replicate.
  pose proof (foldl_Qmin_le l x). pose proof (foldl_Qmax_ge l x). lra.
Qed.

Lemma init_two_states :
  SingleArmAnalyzer.init 2 two_state_P two_state_r (1 # 2) = Ok analyzer_two_states.
Proof. reflexivity. Qed.

(** ** The subsidy sweep *)

Lemma passive_EPS (self1 self2 : SingleArmAnalyzer.t) y state :
  SingleArmAnalyzer.EPS self1 = SingleArmAnalyzer.EPS self2 →
  SingleArmAnalyzer.passive self1 y state = SingleArmAnalyzer.passive self2 y state.
Proof. unfold SingleArmAnalyzer.passive. by intros ->. Qed.

(** One column: the loop over the states marks row [state] at column [i]
    exactly when [p state] holds. *)
Lemma mark_column_lookup (p : nat → bool) (i : nat) (states : list nat)
    (tbl : list (list bool)) (s : nat) :
  NoDup states →
  foldl (λ tbl state,
      if p state then <[state := <[i := true]> (nth state tbl [])]> tbl else tbl)
    tbl states !! s
  = if decide (s ∈ states) then
      (if p s then <[i := true]> <$> tbl !! s else tbl !! s)
    else tbl !! s.
Proof.
  revert tbl. induction states as [|st states IH]; intros tbl Hnd.
  { cbn [foldl]. destruct (decide (s ∈ [])) as [H|_]; [|done].
    by apply elem_of_nil in H. }
  apply NoDup_cons in Hnd as [Hst Hnd]. cbn [foldl]. rewrite IH by done.
  destruct (decide (s = st)) as [->|Hne].
  - destruct (decide (st ∈ states)) as [?|_]; [done|].
    destruct (decide (st ∈ st :: states)) as [_|H]; [|set_solver].
    destruct (p st); [|done].
    destruct (decide (st < length tbl)) as [Hlt|Hge].
    + rewrite list_lookup_insert_eq by done.
      destruct (lookup_lt_is_Some_2 tbl st Hlt) as [row Hrow].
      rewrite Hrow. simpl. by rewrite (nth_lookup_Some _ _ _ _ Hrow).
    + rewrite list_insert_ge by lia. by rewrite lookup_ge_None_2 by lia.
  - assert (Heq : (if p st then <[st := <[i := true]> (nth st tbl [])]> tbl else tbl) !! s
                  = tbl !! s).
    { destruct (p st); [|done]. by apply list_lookup_insert_ne. }
    rewrite Heq. destruct (decide (s ∈ states)) as [Hin|Hnin].
    + destruct (decide (s ∈ st :: states)) as [_|H]; [done|].
      set_solver.
    + destruct (decide (s ∈ st :: states)) as [Hc|_]; [|done].
      apply elem_of_cons in Hc as [?|?]; done.
Qed.

Lemma sspa_size_set_dualvar d self :
  SingleArmAnalyzer.sspa (SingleArmAnalyzer.set_dualvar d self) = SingleArmAnalyzer.sspa self.
Proof. done. Qed.

Lemma lookup_partial_table cvx self done n state :
  state < SingleArmAnalyzer.sspa_size self →
  partial_table cvx self done n !! state
  = Some (((λ subsidy,
              SingleArmAnalyzer.passive self (sol_y (cvx (RelaxedLP subsidy))) state)
             <$> done) ++ replicate n false).
Proof.
  intros Hlt. unfold partial_table, SingleArmAnalyzer.sspa.
  rewrite list_lookup_fmap, lookup_seq_lt by done. done.
Qed.

(** Filling column [length done] turns the table of [done] into the table of
    [done ++ [subsidy]]. *)
Lemma mark_column_partial cvx (self self' : SingleArmAnalyzer.t) done subsidy n :
  SingleArmAnalyzer.EPS self' = SingleArmAnalyzer.EPS self →
  SingleArmAnalyzer.sspa_size self' = SingleArmAnalyzer.sspa_size self →
  foldl (λ tbl state,
      if SingleArmAnalyzer.passive self' (sol_y (cvx (RelaxedLP subsidy))) state
      then <[state := <[length done := true]> (nth state tbl [])]> tbl else tbl)
    (partial_table cvx self done (S n)) (SingleArmAnalyzer.sspa self')
  = partial_table cvx self (done ++ [subsidy]) n.
Proof.
  intros HE HS. apply list_eq. intros s.
  rewrite mark_column_lookup by apply NoDup_seq.
  unfold SingleArmAnalyzer.sspa. rewrite HS.
  destruct (decide (s < SingleArmAnalyzer.sspa_size self)) as [Hlt|Hge].
  - destruct (decide (s ∈ seq 0 (SingleArmAnalyzer.sspa_size self))) as [_|Hn];
      [|by destruct Hn; apply elem_of_seq; lia].
    rewrite !lookup_partial_table by done.
    rewrite (passive_EPS self' self) by done.
    rewrite fmap_app. cbn [fmap list_fmap]. rewrite <- app_assoc. cbn [app].
    destruct (SingleArmAnalyzer.passive self _ s); [|done].
    cbn [fmap option_fmap option_map]. f_equal.
    rewrite insert_app_r_alt by (rewrite length_fmap; lia).
    rewrite length_fmap, Nat.sub_diag. done.
  - assert (Hnone : ∀ d k, partial_table cvx self d k !! s = None).
    { intros d k. apply lookup_ge_None_2. unfold partial_table, SingleArmAnalyzer.sspa.
      rewrite length_fmap, length_seq. lia. }
    rewrite !Hnone.
    destruct (decide _); [destruct (SingleArmAnalyzer.passive _ _ _)|]; done.
Qed.

Lemma sweep_partial cvx (self0 : SingleArmAnalyzer.t) (rest done : list Q)
    (self : SingleArmAnalyzer.t) v :
  SingleArmAnalyzer.dualvar self = SingleArmAnalyzer.CpParameter v →
  SingleArmAnalyzer.EPS self = SingleArmAnalyzer.EPS self0 →
  SingleArmAnalyzer.sspa_size self = SingleArmAnalyzer.sspa_size self0 →
  ∃ self',
    SingleArmAnalyzer.sweep cvx self (partial_table cvx self0 done (length rest))
      (zip (seq (length done) (length rest)) rest)
    = (Ok (partial_table cvx self0 (done ++ rest) 0), self')
    ∧ SingleArmAnalyzer.sspa_size self' = SingleArmAnalyzer.sspa_size self0.
Proof.
  revert done self v. induction rest as [|subsidy rest IH]; intros done self v Hd HE HS.
  - exists self. by rewrite app_nil_r.
  - cbn [length seq zip zip_with SingleArmAnalyzer.sweep]. rewrite Hd.
    set (self1 := SingleArmAnalyzer.set_y_value _ _).
    rewrite (mark_column_partial cvx self0 self1 done subsidy (length rest)) by done.
    destruct (IH (done ++ [subsidy]) self1 (Some subsidy)) as (self' & Hsw & HS');
      try done.
    exists self'. split; [|done].
    rewrite length_app in Hsw. cbn [length] in Hsw.
    rewrite Nat.add_1_r in Hsw. rewrite Hsw. by rewrite <- app_assoc.
Qed.

Lemma partial_table_nil cvx self n :
  partial_table cvx self [] n
  = replicate (SingleArmAnalyzer.sspa_size self) (replicate n false).
Proof.
  unfold partial_table, SingleArmAnalyzer.sspa. cbn [fmap list_fmap app].
  generalize 0. induction (SingleArmAnalyzer.sspa_size self) as [|k IH]; intros m;
    [done|]. cbn [seq fmap list_fmap replicate]. f_equal. apply IH.
Qed.

Lemma partial_table_full cvx self :
  partial_table cvx self (SingleArmAnalyzer.subsidy_values self) 0
  = passive_table_of cvx self.
Proof.
  unfold partial_table, passive_table_of, passive_row. apply list_fmap_ext.
  intros _ state _. cbn [replicate]. by rewrite app_nil_r.
Qed.

(** With the parameter object in place, the sweep runs to its end and leaves
    the table whose rows are the [passive_row]s. *)
Lemma sweep_passive_table cvx (self : SingleArmAnalyzer.t) v :
  SingleArmAnalyzer.dualvar self = SingleArmAnalyzer.CpParameter v →
  ∃ self',
    SingleArmAnalyzer.sweep cvx self
      (replicate (SingleArmAnalyzer.sspa_size self)
         (replicate (length (SingleArmAnalyzer.subsidy_values self)) false))
      (SingleArmAnalyzer.enumerate (SingleArmAnalyzer.subsidy_values self))
    = (Ok (passive_table_of cvx self), self')
    ∧ SingleArmAnalyzer.sspa_size self' = SingleArmAnalyzer.sspa_size self.
Proof.
  intros Hd.
  destruct (sweep_partial cvx self (SingleArmAnalyzer.subsidy_values self) [] self v)
    as (self' & Hsw & HS); try done.
  exists self'. split; [|done].
  rewrite partial_table_nil in Hsw. cbn [length app] in Hsw.
  by rewrite partial_table_full in Hsw.
Qed.

Lemma nth_passive_table_of cvx self state :
  state < SingleArmAnalyzer.sspa_size self →
  nth state (passive_table_of cvx self) [] = passive_row cvx self state.
Proof.
  intros Hlt. apply nth_lookup_Some with (d := []).
  unfold passive_table_of, SingleArmAnalyzer.sspa.
  by rewrite list_lookup_fmap, lookup_seq_lt.
Qed.

Lemma row_threshold_approx_wi cvx self state :
  state < SingleArmAnalyzer.sspa_size self →
  row_threshold (passive_table_of cvx self) state = approx_wi cvx self state.
Proof.
  intros Hlt. unfold row_threshold, approx_wi. by rewrite nth_passive_table_of.
Qed.

(** ** Ordered dicts *)

Lemma odict_get_set {V} (d : list (nat * V)) (k k' : nat) (v : V) :
  odict_get (odict_set d k v) k' = if decide (k = k') then Some v else odict_get d k'.
Proof.
  induction d as [|[k0 v0] d IH]; simpl.
  - by destruct (decide (k = k')).
  - destruct (decide (k0 = k)) as [->|Hne]; simpl.
    + by destruct (decide (k = k')).
    + rewrite IH. destruct (decide (k0 = k')) as [->|]; [|done].
      by rewrite decide_False by done.
Qed.

Lemma elem_of_odict_keys {V} (d : list (nat * V)) (k : nat) :
  k ∈ odict_keys d ↔ is_Some (odict_get d k).
Proof.
  unfold odict_keys. induction d as [|[k0 v0] d IH]; csimpl.
  - rewrite elem_of_nil. split; [done|]. by intros [? ?].
  - rewrite elem_of_cons, IH. destruct (decide (k0 = k)) as [->|Hne].
    + split; eauto.
    + split; [|by right]. by intros [?|?].
Qed.

Lemma odict_keys_set {V} (d : list (nat * V)) (k : nat) (v : V) :
  odict_keys (odict_set d k v)
  = match odict_get d k with
    | Some _ => odict_keys d
    | None => odict_keys d ++ [k]
    end.
Proof.
  unfold odict_keys. induction d as [|[k0 v0] d IH]; csimpl; [done|].
  destruct (decide (k0 = k)) as [->|Hne]; csimpl; [done|].
  rewrite IH. by destruct (odict_get d k).
Qed.

Lemma NoDup_odict_keys_set {V} (d : list (nat * V)) (k : nat) (v : V) :
  NoDup (odict_keys d) → NoDup (odict_keys (odict_set d k v)).
Proof.
  intros Hnd. rewrite odict_keys_set.
  destruct (odict_get d k) eqn:Hk; [done|].
  apply NoDup_app. split_and!; [done| |apply NoDup_singleton].
  intros x Hx ->%list_elem_of_singleton.
  apply elem_of_odict_keys in Hx as [? ?]. congruence.
Qed.

(** ** Reading the thresholds *)

Lemma np_where_head_threshold table state :
  head (np_where (nth state table [])) = row_threshold table state.
Proof. done. Qed.

(** A state with no passive column stops the loop. *)
Lemma index_loop_raise table (states : list nat) acc :
  (∃ s, s ∈ states ∧ row_threshold table s = None) →
  SingleArmAnalyzer.index_loop table states acc = Raise IndexError.
Proof.
  revert acc. induction states as [|s0 states IH]; intros acc (s & Hs & Hnone).
  { by apply elem_of_nil in Hs. }
  cbn [SingleArmAnalyzer.index_loop].
  destruct (np_where (nth s0 table [])) as [|k0 rest] eqn:Hw; [done|].
  assert (Hin : s ∈ states).
  { apply elem_of_cons in Hs as [->|]; [|done].
    unfold row_threshold in Hnone. by rewrite Hw in Hnone. }
  destruct (odict_get _ k0); apply IH; eauto.
Qed.

Lemma states_at_cons table k s states :
  states_at table k (s :: states)
  = if decide (row_threshold table s = Some k) then s :: states_at table k states
    else states_at table k states.
Proof. unfold states_at. by rewrite filter_cons. Qed.

(** When every state has a threshold the loop ends; the dict files every state
    under its threshold, in the order of the loop, and the flag is the check of
    the last state of the loop. *)
Lemma index_loop_ok table (states : list nat) acc :
  Forall (λ s, is_Some (row_threshold table s)) states →
  NoDup (odict_keys (SingleArmAnalyzer.wi2state acc)) →
  ∃ acc', SingleArmAnalyzer.index_loop table states acc = Ok acc'
    ∧ NoDup (odict_keys (SingleArmAnalyzer.wi2state acc'))
    ∧ (∀ k, odict_get (SingleArmAnalyzer.wi2state acc') k
            = filed (odict_get (SingleArmAnalyzer.wi2state acc) k)
                    (states_at table k states))
    ∧ SingleArmAnalyzer.indexable acc'
      = match last states with
        | Some s => Some (row_check table s)
        | None => SingleArmAnalyzer.indexable acc
        end.
Proof.
  revert acc. induction states as [|s0 states IH]; intros acc Hall Hnd.
  { exists acc. split_and!; [done|done| |done]. intros k.
    unfold states_at, filed. rewrite filter_nil.
    destruct (odict_get _ k); [|done]. by rewrite app_nil_r. }
  apply Forall_cons in Hall as [[k0 Hk0] Hall].
  cbn [SingleArmAnalyzer.index_loop].
  pose proof Hk0 as Hw. unfold row_threshold in Hw.
  apply head_Some in Hw as [rest Hw]. rewrite Hw.
  set (flag := forallb (λ b, b) (drop k0 (nth s0 table []))).
  assert (Hflag : row_check table s0 = flag).
  { unfold row_check. by rewrite Hk0. }
  destruct (odict_get (SingleArmAnalyzer.wi2state acc) k0) as [l0|] eqn:Hget.
  - edestruct (IH (SingleArmAnalyzer.mk_acc
                    (odict_set (SingleArmAnalyzer.wi2state acc) k0 (l0 ++ [s0]))
                    (Some flag) (SingleArmAnalyzer.stdout acc ++ [SingleArmAnalyzer.tie_warning])))
      as (acc' & Hrun & Hnd' & Hget' & Hidx); [done|by apply NoDup_odict_keys_set|].
    exists acc'. split_and!; [done|done| |].
    + intros k. rewrite Hget'. cbn [SingleArmAnalyzer.wi2state].
      rewrite odict_get_set, states_at_cons.
      destruct (decide (k0 = k)) as [<-|Hne].
      * rewrite decide_True by done. rewrite Hget. cbn. by rewrite <- app_assoc.
      * rewrite decide_False by congruence. done.
    + rewrite Hidx. cbn [SingleArmAnalyzer.indexable].
      destruct states as [|s1 states]; [cbn; by rewrite Hflag|].
      rewrite last_cons_cons.
      destruct (last (s1 :: states)) eqn:Hl; [done|]. by apply last_None in Hl.
  - edestruct (IH (SingleArmAnalyzer.mk_acc
                    (odict_set (SingleArmAnalyzer.wi2state acc) k0 [s0])
                    (Some flag) (SingleArmAnalyzer.stdout acc)))
      as (acc' & Hrun & Hnd' & Hget' & Hidx); [done|by apply NoDup_odict_keys_set|].
    exists acc'. split_and!; [done|done| |].
    + intros k. rewrite Hget'. cbn [SingleArmAnalyzer.wi2state].
      rewrite odict_get_set, states_at_cons.
      destruct (decide (k0 = k)) as [<-|Hne].
      * rewrite decide_True by done. rewrite Hget. done.
      * rewrite decide_False by congruence. done.
    + rewrite Hidx. cbn [SingleArmAnalyzer.indexable].
      destruct states as [|s1 states]; [cbn; by rewrite Hflag|].
      rewrite last_cons_cons.
      destruct (last (s1 :: states)) eqn:Hl; [done|]. by apply last_None in Hl.
Qed.

(** What the loop prints: one warning for each state whose threshold is already
    a key of the dict, nothing else. *)
Lemma index_loop_stdout table (states : list nat) acc acc' :
  SingleArmAnalyzer.index_loop table states acc = Ok acc' →
  ∃ extra,
    SingleArmAnalyzer.stdout acc' = SingleArmAnalyzer.stdout acc ++ extra
    ∧ Forall (λ line, line = SingleArmAnalyzer.tie_warning) extra
    ∧ (extra ≠ [] ↔
       ∃ i s k, states !! i = Some s ∧ row_threshold table s = Some k ∧
         (is_Some (odict_get (SingleArmAnalyzer.wi2state acc) k)
          ∨ ∃ i' s', i' < i ∧ states !! i' = Some s' ∧ row_threshold table s' = Some k)).
Proof.
  revert acc. induction states as [|s0 states IH]; intros acc Hrun.
  { cbn in Hrun. injection Hrun as <-. exists []. rewrite app_nil_r.
    split_and!; [done|done|]. split; [done|]. by intros (i & s & k & ? & _). }
  cbn [SingleArmAnalyzer.index_loop] in Hrun.
  destruct (np_where (nth s0 table [])) as [|k0 rest] eqn:Hw; [done|].
  assert (Hk0 : row_threshold table s0 = Some k0).
  { unfold row_threshold. by rewrite Hw. }
  destruct (odict_get (SingleArmAnalyzer.wi2state acc) k0) as [l0|] eqn:Hget.
  - apply IH in Hrun as (extra & Hout & Hall & _).
    cbn [SingleArmAnalyzer.stdout] in Hout.
    exists (SingleArmAnalyzer.tie_warning :: extra). split_and!.
    + by rewrite Hout, <- app_assoc.
    + by constructor.
    + split; [|done]. intros _. exists 0, s0, k0. split_and!; [done|done|].
      left. by rewrite Hget.
  - apply IH in Hrun as (extra & Hout & Hall & Hiff).
    cbn [SingleArmAnalyzer.stdout SingleArmAnalyzer.wi2state] in Hout, Hiff.
    exists extra. split_and!; [done|done|]. rewrite Hiff. split.
    + intros (i & s & k & Hi & Hk & Hcase). exists (S i), s, k.
      split_and!; [done|done|]. rewrite odict_get_set in Hcase.
      destruct Hcase as [Hsome|(i' & s' & Hlt & Hi' & Hk')].
      * destruct (decide (k0 = k)) as [<-|Hne]; [|by left].
        right. exists 0, s0. split_and!; [lia|done|done].
      * right. exists (S i'), s'. split_and!; [lia|done|done].
    + intros (i & s & k & Hi & Hk & Hcase). destruct i as [|i].
      { injection Hi as <-. assert (k = k0) as -> by congruence.
        destruct Hcase as [[? Hsome]|(i' & ? & ? & _)]; [congruence|lia]. }
      exists i, s, k. split_and!; [done|done|]. rewrite odict_get_set.
      destruct Hcase as [Hsome|(i' & s' & Hlt & Hi' & Hk')].
      * left. by destruct (decide (k0 = k)).
      * destruct i' as [|i'].
        -- injection Hi' as <-. assert (k = k0) as -> by congruence.
           left. by rewrite decide_True.
        -- right. exists i', s'. split_and!; [lia|done|done].
Qed.

(** ** Sorting the keys *)

Lemma insert_desc_Permutation k l : insert_desc k l ≡ₚ k :: l.
Proof.
  induction l as [|j l IH]; simpl; [done|].
  destruct (decide (j ≤ k)); [done|]. rewrite IH. apply Permutation_swap.
Qed.

Lemma sorted_reverse_Permutation keys : sorted_reverse keys ≡ₚ keys.
Proof.
  induction keys as [|k keys IH]; simpl; [done|].
  by rewrite insert_desc_Permutation, IH.
Qed.

Lemma insert_desc_sorted k l :
  StronglySorted (λ a b, b ≤ a) l → StronglySorted (λ a b, b ≤ a) (insert_desc k l).
Proof.
  induction 1 as [|j l Hs IH Hall]; simpl.
  - repeat constructor.
  - destruct (decide (j ≤ k)) as [Hle|Hgt].
    + constructor; [by constructor|]. constructor; [done|].
      eapply Forall_impl; [exact Hall|]. simpl. lia.
    + constructor; [done|]. rewrite insert_desc_Permutation.
      constructor; [lia|done].
Qed.

Lemma sorted_reverse_sorted keys :
  StronglySorted (λ a b, b ≤ a) (sorted_reverse keys).
Proof.
  induction keys as [|k keys IH]; simpl; [constructor|].
  by apply insert_desc_sorted.
Qed.

(** ** [solve_whittles_policy] *)

Lemma last_seq (n : nat) : 0 < n → last (seq 0 n) = Some (n - 1).
Proof.
  intros Hn. destruct n as [|n]; [lia|].
  rewrite seq_S, last_snoc. f_equal. lia.
Qed.

Lemma default_filed_None (l : list nat) : default [] (filed None l) = l.
Proof. by destruct l. Qed.

Lemma bind_sorted_entries (d : list (nat * list nat)) (f : nat → list nat) (ks : list nat) :
  (∀ k, default [] (odict_get d k) = f k) →
  ((λ key, (key, default [] (odict_get d key))) <$> ks) ≫= (λ kv, kv.2) = ks ≫= f.
Proof.
  intros Hf. induction ks as [|k ks IH]; csimpl; [done|]. by rewrite IH, Hf.
Qed.

(** The run of [solve_whittles_policy] on an analyzer whose [dualvar] is the
    parameter object, when every state is passive somewhere on the grid: the
    value, in terms of the passive table. *)
Lemma solve_whittles_policy_run cvx (self : SingleArmAnalyzer.t) v :
  SingleArmAnalyzer.dualvar self = SingleArmAnalyzer.CpParameter v →
  0 < SingleArmAnalyzer.sspa_size self →
  (∀ s, s < SingleArmAnalyzer.sspa_size self → is_Some (approx_wi cvx self s)) →
  ∃ keys out,
    (SingleArmAnalyzer.solve_whittles_policy cvx self).1
    = Ok (keys ≫= (λ k, states_at (passive_table_of cvx self) k
                          (SingleArmAnalyzer.sspa self)),
          row_check (passive_table_of cvx self) (SingleArmAnalyzer.sspa_size self - 1),
          out)
    ∧ NoDup keys
    ∧ StronglySorted (λ a b, b ≤ a) keys
    ∧ (∀ k, k ∈ keys ↔
            states_at (passive_table_of cvx self) k (SingleArmAnalyzer.sspa self) ≠ [])
    ∧ Forall (λ line, line = SingleArmAnalyzer.tie_warning) out
    ∧ (out ≠ [] ↔ has_tie cvx self).
Proof.
  intros Hd HS Hall.
  destruct (sweep_passive_table cvx self v Hd) as (self' & Hsw & HS').
  set (T := passive_table_of cvx self).
  assert (Hsspa : SingleArmAnalyzer.sspa self' = SingleArmAnalyzer.sspa self).
  { unfold SingleArmAnalyzer.sspa. by rewrite HS'. }
  assert (Hthr : Forall (λ s, is_Some (row_threshold T s)) (SingleArmAnalyzer.sspa self)).
  { apply Forall_forall. intros s [_ Hs]%elem_of_seq.
    unfold T. rewrite row_threshold_approx_wi by (simpl in Hs; lia).
    apply Hall. simpl in Hs. lia. }
  destruct (index_loop_ok T (SingleArmAnalyzer.sspa self)
              (SingleArmAnalyzer.mk_acc [] None []) Hthr)
    as (acc & Hrun & Hnd & Hget & Hidx); [constructor|].
  destruct (index_loop_stdout _ _ _ _ Hrun) as (extra & Hout & Hwarn & Htie).
  cbn [SingleArmAnalyzer.wi2state SingleArmAnalyzer.stdout odict_get app] in Hget, Hout, Htie.
  unfold SingleArmAnalyzer.sspa at 1 in Hidx. rewrite last_seq in Hidx by done.
  exists (sorted_reverse (odict_keys (SingleArmAnalyzer.wi2state acc))), extra.
  split_and!.
  - unfold SingleArmAnalyzer.solve_whittles_policy. rewrite Hsw. cbn [fst].
    rewrite Hsspa. fold T. rewrite Hrun. cbn [mbind result_bind]. rewrite Hidx, Hout.
    rewrite (bind_sorted_entries _ (λ k, states_at T k (SingleArmAnalyzer.sspa self)));
      [done|].
    intros k. rewrite Hget. apply default_filed_None.
  - by rewrite sorted_reverse_Permutation.
  - apply sorted_reverse_sorted.
  - intros k. rewrite sorted_reverse_Permutation, elem_of_odict_keys, Hget.
    destruct (states_at T k (SingleArmAnalyzer.sspa self)); cbn.
    + split; [by intros [? ?]|done].
    + split; [done|eauto].
  - done.
  - rewrite Htie. unfold has_tie. split.
    + intros (i & s & k & Hi & Hk & [[? ?]|(i' & s' & Hlt & Hi' & Hk')]); [done|].
      apply lookup_seq in Hi as [-> Hi]. apply lookup_seq in Hi' as [-> Hi'].
      simpl in *. exists i', i, k.
      rewrite <- !row_threshold_approx_wi by lia. done.
    + intros (s & t & k & Hlt & Ht & Hs & Hk).
      rewrite <- !row_threshold_approx_wi in Hs, Hk by lia.
      exists t, t, k. split_and!; [by apply lookup_seq_lt|done|].
      right. exists s, s. split_and!; [done| |done]. apply lookup_seq_lt. lia.
Qed.

Lemma np_where_nil_iff (mask : list bool) :
  np_where mask = [] ↔ ∀ i, mask !! i ≠ Some true.
Proof.
  split.
  - intros Hnil i Hi. apply elem_of_np_where in Hi. rewrite Hnil in Hi.
    by apply elem_of_nil in Hi.
  - intros Hall. apply elem_of_nil_inv. intros i Hi%elem_of_np_where.
    by apply (Hall i).
Qed.

(** C9. On an analyzer whose [dualvar] is the parameter object (so that the
    sweep itself runs), if some state is not recorded passive at any subsidy of
    the grid, [solve_whittles_policy] raises IndexError when it reads that
    state's threshold, and returns no priority list. *)
Theorem whittles_threshold_unguarded cvx (self : SingleArmAnalyzer.t) v (state : nat) :
  SingleArmAnalyzer.dualvar self = SingleArmAnalyzer.CpParameter v →
  state < SingleArmAnalyzer.sspa_size self →
  (∀ subsidy, subsidy ∈ SingleArmAnalyzer.subsidy_values self →
     SingleArmAnalyzer.passive self (sol_y (cvx (RelaxedLP subsidy))) state = false) →
  (SingleArmAnalyzer.solve_whittles_policy cvx self).1 = Raise IndexError.
Proof.
  intros Hd Hstate Hnever.
  destruct (sweep_passive_table cvx self v Hd) as (self' & Hsw & HS').
  unfold SingleArmAnalyzer.solve_whittles_policy. rewrite Hsw. cbn [fst].
  rewrite index_loop_raise; [done|].
  exists state. split.
  - unfold SingleArmAnalyzer.sspa. rewrite HS'. apply elem_of_seq. lia.
  - rewrite row_threshold_approx_wi by done. unfold approx_wi.
    apply head_None, np_where_nil_iff. intros i Hi.
    unfold passive_row in Hi. rewrite list_lookup_fmap in Hi.
    destruct (SingleArmAnalyzer.subsidy_values self !! i) as [subsidy|] eqn:Hsub;
      [|done].
    simpl in Hi. rewrite Hnever in Hi; [done|].
    by eapply list_elem_of_lookup_2.
Qed.

Lemma whittles_threshold_unguarded_witness :
  (SingleArmAnalyzer.solve_whittles_policy cvx_alternate analyzer_two_states).1
  = Raise IndexError.
Proof.
  apply (whittles_threshold_unguarded cvx_alternate analyzer_two_states None 1);
    [reflexivity | simpl; lia | intros subsidy _; reflexivity].
Defined.

(** ** Priority lists are permutations *)

Lemma insert_by_Permutation key i l : insert_by key i l ≡ₚ i :: l.
Proof.
  induction l as [|j l IH]; simpl; [done|].
  destruct (Qle_bool (key i) (key j)); [done|]. rewrite IH. apply Permutation_swap.
Qed.

Lemma np_argsort_Permutation (a : list Q) : np_argsort a ≡ₚ seq 0 (length a).
Proof.
  unfold np_argsort. generalize (λ i : nat, nth i a 0%Q) as key.
  intros key. induction (seq 0 (length a)) as [|i l IH]; simpl; [done|].
  by rewrite insert_by_Permutation, IH.
Qed.

Lemma solve_LP_Priority_Permutation cvx self fixed_dual :
  analyzer_ok self →
  (SingleArmAnalyzer.solve_LP_Priority cvx self fixed_dual).1
  ≡ₚ seq 0 (SingleArmAnalyzer.sspa_size self).
Proof.
  intros Hok.
  pose proof (ok_q_func _ (solve_LP_Priority_ok cvx self fixed_dual Hok)) as Hlen.
  destruct fixed_dual as [d|].
  all: unfold SingleArmAnalyzer.solve_LP_Priority; cbn [fst].
  all: unfold np_flip; rewrite reverse_Permutation, np_argsort_Permutation, length_fmap.
  all: match goal with
       | |- seq 0 (length ?qf) ≡ₚ _ =>
           assert (Hq : length qf = SingleArmAnalyzer.sspa_size self) by exact Hlen;
           by rewrite Hq
       end.
Qed.

Lemma StronglySorted_lt_seq (j n : nat) : StronglySorted lt (seq j n).
Proof.
  revert j. induction n as [|n IH]; intros j; simpl; constructor; [apply IH|].
  apply Forall_forall. intros x [? ?]%elem_of_seq. lia.
Qed.

Lemma elem_of_states_at table k states s :
  s ∈ states_at table k states ↔ row_threshold table s = Some k ∧ s ∈ states.
Proof. unfold states_at. by rewrite list_elem_of_filter. Qed.

(** The list built from the sorted keys holds every state once. *)
Lemma threshold_blocks_Permutation table (keys states : list nat) :
  NoDup keys → NoDup states →
  (∀ k, k ∈ keys ↔ states_at table k states ≠ []) →
  Forall (λ s, is_Some (row_threshold table s)) states →
  keys ≫= (λ k, states_at table k states) ≡ₚ states.
Proof.
  intros Hkeys Hstates Hin Hthr. apply NoDup_Permutation; [|done|].
  - apply NoDup_bind; [|intros; by apply NoDup_filter|done].
    intros k1 k2 s _ _ [H1 _]%elem_of_states_at [H2 _]%elem_of_states_at. congruence.
  - intros s. rewrite list_elem_of_bind. split.
    + by intros (k & [_ ?]%elem_of_states_at & _).
    + intros Hs. rewrite Forall_forall in Hthr. destruct (Hthr s Hs) as [k Hk].
      assert (Hsk : s ∈ states_at table k states) by by apply elem_of_states_at.
      exists k. split; [done|]. apply Hin. intros Hnil. rewrite Hnil in Hsk.
      by apply elem_of_nil in Hsk.
Qed.

(** What an [Ok] of [solve_whittles_policy] needs. *)
Lemma solve_whittles_policy_Ok_inv cvx (self : SingleArmAnalyzer.t) value :
  analyzer_ok self →
  (SingleArmAnalyzer.solve_whittles_policy cvx self).1 = Ok value →
  (∃ v, SingleArmAnalyzer.dualvar self = SingleArmAnalyzer.CpParameter v)
  ∧ ∀ s, s < SingleArmAnalyzer.sspa_size self → is_Some (approx_wi cvx self s).
Proof.
  intros Hok Hrun.
  destruct (SingleArmAnalyzer.dualvar self) as [v|x] eqn:Hd.
  - split; [by eexists|]. intros s Hs.
    destruct (approx_wi cvx self s) as [k|] eqn:Hk; [by eexists|].
    destruct (sweep_passive_table cvx self v Hd) as (self' & Hsw & HS').
    unfold SingleArmAnalyzer.solve_whittles_policy in Hrun. rewrite Hsw in Hrun.
    cbn [fst] in Hrun. rewrite index_loop_raise in Hrun; [done|].
    exists s. split.
    + unfold SingleArmAnalyzer.sspa. rewrite HS'. apply elem_of_seq. lia.
    + by rewrite row_threshold_approx_wi.
  - pose proof (subsidy_values_nonempty self Hok) as Hgrid.
    unfold SingleArmAnalyzer.solve_whittles_policy, SingleArmAnalyzer.enumerate in Hrun.
    destruct (SingleArmAnalyzer.subsidy_values self) as [|l grid]; [simpl in Hgrid; lia|].
    cbn in Hrun. rewrite Hd in Hrun. done.
Qed.

(** C6. For a well-shaped analyzer with [S] states, the priority list returned
    by [solve_LP_Priority] has length [S] and is a permutation of the states
    0..S-1; so is every priority list [solve_whittles_policy] returns, and it
    does return one when [dualvar] is the parameter object and every state is
    passive somewhere on the grid. *)
Theorem priority_lists_are_permutations cvx (self : SingleArmAnalyzer.t)
    (fixed_dual : option Q) :
  analyzer_ok self →
  ((SingleArmAnalyzer.solve_LP_Priority cvx self fixed_dual).1
     ≡ₚ seq 0 (SingleArmAnalyzer.sspa_size self)
   ∧ length (SingleArmAnalyzer.solve_LP_Priority cvx self fixed_dual).1
     = SingleArmAnalyzer.sspa_size self)
  ∧ (∀ priority_list flag out,
       (SingleArmAnalyzer.solve_whittles_policy cvx self).1
       = Ok (priority_list, flag, out) →
       priority_list ≡ₚ seq 0 (SingleArmAnalyzer.sspa_size self)
       ∧ length priority_list = SingleArmAnalyzer.sspa_size self)
  ∧ (∀ v, SingleArmAnalyzer.dualvar self = SingleArmAnalyzer.CpParameter v →
       (∀ s, s < SingleArmAnalyzer.sspa_size self → is_Some (approx_wi cvx self s)) →
       ∃ priority_list flag out,
         (SingleArmAnalyzer.solve_whittles_policy cvx self).1
         = Ok (priority_list, flag, out)).
Proof.
  intros Hok. split_and!.
  - by apply solve_LP_Priority_Permutation.
  - rewrite solve_LP_Priority_Permutation by done. apply length_seq.
  - intros pl flag out Hrun.
    destruct (solve_whittles_policy_Ok_inv cvx self _ Hok Hrun) as [[v Hd] Hall].
    destruct (solve_whittles_policy_run cvx self v Hd (ok_states _ Hok) Hall)
      as (keys & out' & Hrun' & Hnd & _ & Hkeys & _).
    rewrite Hrun' in Hrun. injection Hrun as <- _ _.
    assert (Hperm : keys ≫= (λ k, states_at (passive_table_of cvx self) k
                                   (SingleArmAnalyzer.sspa self))
                    ≡ₚ seq 0 (SingleArmAnalyzer.sspa_size self)).
    { apply threshold_blocks_Permutation; [done|apply NoDup_seq|done|].
      apply Forall_forall. intros s [_ Hs]%elem_of_seq. simpl in Hs.
      rewrite row_threshold_approx_wi by lia. apply Hall. lia. }
    split; [done|]. rewrite Hperm. apply length_seq.
  - intros v Hd Hall.
    destruct (solve_whittles_policy_run cvx self v Hd (ok_states _ Hok) Hall)
      as (keys & out' & Hrun' & _). eauto.
Qed.

Lemma analyzer_two_states_ok : analyzer_ok analyzer_two_states.
Proof. split; [simpl; lia | reflexivity..]. Qed.

Lemma priority_lists_are_permutations_witness :
  ((SingleArmAnalyzer.solve_LP_Priority cvx_two_states analyzer_two_states None).1
     ≡ₚ seq 0 (SingleArmAnalyzer.sspa_size analyzer_two_states)
   ∧ length (SingleArmAnalyzer.solve_LP_Priority cvx_two_states analyzer_two_states None).1
     = SingleArmAnalyzer.sspa_size analyzer_two_states)
  ∧ (∀ priority_list flag out,
       (SingleArmAnalyzer.solve_whittles_policy cvx_two_states analyzer_two_states).1
       = Ok (priority_list, flag, out) →
       priority_list ≡ₚ seq 0 (SingleArmAnalyzer.sspa_size analyzer_two_states)
       ∧ length priority_list = SingleArmAnalyzer.sspa_size analyzer_two_states)
  ∧ (∀ v, SingleArmAnalyzer.dualvar analyzer_two_states
          = SingleArmAnalyzer.CpParameter v →
       (∀ s, s < SingleArmAnalyzer.sspa_size analyzer_two_states →
          is_Some (approx_wi cvx_two_states analyzer_two_states s)) →
       ∃ priority_list flag out,
         (SingleArmAnalyzer.solve_whittles_policy cvx_two_states analyzer_two_states).1
         = Ok (priority_list, flag, out)).
Proof.
  apply (priority_lists_are_permutations cvx_two_states analyzer_two_states None).
  split; [simpl; lia | reflexivity..].
Defined.

(** ** The order of the Whittle priority list *)

Lemma StronglySorted_lookup {A} (R : relation A) (l : list A) (i j : nat) (x y : A) :
  StronglySorted R l → i < j → l !! i = Some x → l !! j = Some y → R x y.
Proof.
  intros Hs. revert i j. induction Hs as [|a l Hs IH Hall]; intros i j Hij Hi Hj; [done|].
  destruct j as [|j]; [lia|]. destruct i as [|i]; simpl in *.
  - injection Hi as <-. rewrite Forall_forall in Hall. apply Hall.
    by eapply list_elem_of_lookup_2.
  - apply (IH i j); [lia|done|done].
Qed.

Lemma states_at_sorted cvx self k n :
  n ≤ SingleArmAnalyzer.sspa_size self →
  StronglySorted (whittle_before cvx self)
    (states_at (passive_table_of cvx self) k (seq 0 n)).
Proof.
  intros Hn. unfold states_at.
  assert (Hgen : ∀ l, StronglySorted lt l →
            Forall (λ s, s < SingleArmAnalyzer.sspa_size self) l →
            StronglySorted (whittle_before cvx self)
              (filter (λ s, row_threshold (passive_table_of cvx self) s = Some k) l)).
  { induction 1 as [|s l Hs IH Hall]; intros Hlt; [constructor|].
    apply Forall_cons in Hlt as [Hs_lt Hlt]. rewrite filter_cons.
    destruct (decide _) as [Hk|_]; [|by apply IH].
    constructor; [by apply IH|]. apply Forall_forall.
    intros t [Ht Hin]%list_elem_of_filter.
    rewrite Forall_forall in Hall, Hlt.
    rewrite row_threshold_approx_wi in Hk, Ht by eauto.
    exists k, k. split_and!; [done|done|]. right. split; [done|]. by apply Hall. }
  apply Hgen; [apply StronglySorted_lt_seq|].
  apply Forall_forall. intros s [_ Hs]%elem_of_seq. simpl in Hs. lia.
Qed.

Lemma threshold_blocks_sorted cvx self (keys : list nat) :
  NoDup keys → StronglySorted (λ a b, b ≤ a) keys →
  StronglySorted (whittle_before cvx self)
    (keys ≫= (λ k, states_at (passive_table_of cvx self) k (SingleArmAnalyzer.sspa self))).
Proof.
  intros Hnd Hs. induction Hs as [|k keys Hs IH Hall]; csimpl; [constructor|].
  apply NoDup_cons in Hnd as [Hk Hnd]. apply StronglySorted_app. split_and!.
  - intros s t [Hks Hs_in]%elem_of_states_at
      (k' & [Hkt Ht_in]%elem_of_states_at & Hk')%list_elem_of_bind.
    apply elem_of_seq in Hs_in as [_ Hs_lt]. apply elem_of_seq in Ht_in as [_ Ht_lt].
    simpl in *. rewrite row_threshold_approx_wi in Hks, Hkt by lia.
    exists k, k'. split_and!; [done|done|]. left.
    rewrite Forall_forall in Hall. pose proof (Hall k' Hk').
    assert (k' ≠ k) by (intros ->; done). lia.
  - by apply states_at_sorted.
  - by apply IH.
Qed.

(** C7. When [solve_whittles_policy] returns (every state is passive
    somewhere on the grid, and [dualvar] is the parameter object), its priority
    list is in Whittle order: of two entries, the earlier one has the strictly
    larger threshold position, or the same threshold and the smaller state
    number; hence states sharing a threshold are consecutive. A warning is
    printed exactly when two states share a threshold, and nothing else is
    printed. *)
Theorem whittles_priority_order cvx (self : SingleArmAnalyzer.t) v :
  SingleArmAnalyzer.dualvar self = SingleArmAnalyzer.CpParameter v →
  0 < SingleArmAnalyzer.sspa_size self →
  (∀ s, s < SingleArmAnalyzer.sspa_size self → is_Some (approx_wi cvx self s)) →
  ∃ priority_list flag out,
    (SingleArmAnalyzer.solve_whittles_policy cvx self).1 = Ok (priority_list, flag, out)
    ∧ StronglySorted (whittle_before cvx self) priority_list
    ∧ (∀ i j s t, i < j → priority_list !! i = Some s → priority_list !! j = Some t →
         whittle_before cvx self s t)
    ∧ (∀ i j k s t u, i < j → j < k →
         priority_list !! i = Some s → priority_list !! j = Some t →
         priority_list !! k = Some u →
         approx_wi cvx self s = approx_wi cvx self u →
         approx_wi cvx self t = approx_wi cvx self s)
    ∧ Forall (λ line, line = SingleArmAnalyzer.tie_warning) out
    ∧ (has_tie cvx self ↔ out ≠ []).
Proof.
  intros Hd HS Hall.
  destruct (solve_whittles_policy_run cvx self v Hd HS Hall)
    as (keys & out & Hrun & Hnd & Hsorted & _ & Hwarn & Htie).
  pose proof (threshold_blocks_sorted cvx self keys Hnd Hsorted) as Hpl.
  eexists _, _, out. split_and!; [exact Hrun|exact Hpl| | |done|done].
  - intros i j s t. by apply StronglySorted_lookup.
  - intros i j k s t u Hij Hjk Hi Hj Hk Heq.
    destruct (StronglySorted_lookup _ _ _ _ _ _ Hpl Hij Hi Hj)
      as (ws & wt & Hws & Hwt & Hst).
    destruct (StronglySorted_lookup _ _ _ _ _ _ Hpl Hjk Hj Hk)
      as (wt' & wu & Hwt' & Hwu & Htu).
    rewrite Hws, Hwu in Heq. rewrite Hwt, Hws. f_equal.
    rewrite Hwt in Hwt'. injection Hwt' as <-. injection Heq as <-. lia.
Qed.

Lemma whittles_priority_order_witness :
  ∃ priority_list flag out,
    (SingleArmAnalyzer.solve_whittles_policy cvx_two_states analyzer_two_states).1
    = Ok (priority_list, flag, out)
    ∧ StronglySorted (whittle_before cvx_two_states analyzer_two_states) priority_list
    ∧ (∀ i j s t, i < j → priority_list !! i = Some s → priority_list !! j = Some t →
         whittle_before cvx_two_states analyzer_two_states s t)
    ∧ (∀ i j k s t u, i < j → j < k →
         priority_list !! i = Some s → priority_list !! j = Some t →
         priority_list !! k = Some u →
         approx_wi cvx_two_states analyzer_two_states s
         = approx_wi cvx_two_states analyzer_two_states u →
         approx_wi cvx_two_states analyzer_two_states t
         = approx_wi cvx_two_states analyzer_two_states s)
    ∧ Forall (λ line, line = SingleArmAnalyzer.tie_warning) out
    ∧ (has_tie cvx_two_states analyzer_two_states ↔ out ≠ []).
Proof.
  apply (whittles_priority_order cvx_two_states analyzer_two_states None);
    [reflexivity | simpl; lia |].
  intros s Hs. destruct s as [|[|s]]; [by exists 0 | by exists 31 | simpl in Hs; lia].
Defined.

(** ** The indexability flag *)

Lemma forallb_drop_true (row : list bool) (w : nat) :
  forallb (λ b, b) (drop w row) = true
  ↔ ∀ j, w ≤ j → j < length row → row !! j = Some true.
Proof.
  rewrite forallb_forall. split.
  - intros Hall j Hwj Hj. destruct (lookup_lt_is_Some_2 row j Hj) as [b Hb].
    rewrite Hb. f_equal. apply Hall. apply list_elem_of_In.
    apply list_elem_of_lookup. exists (j - w). rewrite lookup_drop.
    by replace (w + (j - w)) with j by lia.
  - intros Hall b [i Hi]%list_elem_of_In%list_elem_of_lookup.
    rewrite lookup_drop in Hi. pose proof (lookup_lt_Some _ _ _ Hi).
    rewrite Hall in Hi by lia. congruence.
Qed.

Lemma row_check_stays_passive cvx self state :
  state < SingleArmAnalyzer.sspa_size self →
  is_Some (approx_wi cvx self state) →
  row_check (passive_table_of cvx self) state = true ↔ stays_passive cvx self state.
Proof.
  intros Hlt [w Hw]. unfold row_check, stays_passive.
  rewrite row_threshold_approx_wi, Hw, nth_passive_table_of by done.
  rewrite forallb_drop_true. split.
  - intros Hall i j [= <-]. apply Hall.
  - intros Hall j. by apply Hall.
Qed.

(** The flag [solve_whittles_policy] returns is the check of the last state
    alone: the assignment in the loop overwrites the checks of the states
    before it. *)
Theorem whittles_flag_is_last_state cvx (self : SingleArmAnalyzer.t) v :
  SingleArmAnalyzer.dualvar self = SingleArmAnalyzer.CpParameter v →
  0 < SingleArmAnalyzer.sspa_size self →
  (∀ s, s < SingleArmAnalyzer.sspa_size self → is_Some (approx_wi cvx self s)) →
  ∃ priority_list flag out,
    (SingleArmAnalyzer.solve_whittles_policy cvx self).1 = Ok (priority_list, flag, out)
    ∧ (flag = true ↔ stays_passive cvx self (SingleArmAnalyzer.sspa_size self - 1)).
Proof.
  intros Hd HS Hall.
  destruct (solve_whittles_policy_run cvx self v Hd HS Hall)
    as (keys & out & Hrun & _).
  eexists _, _, out. split; [exact Hrun|].
  apply row_check_stays_passive; [lia|]. apply Hall. lia.
Qed.

(** C1, at the two-state arm: state 0 is passive at the first grid position
    and no longer at the last one, so indexability fails for state 0; the flag
    returned is nevertheless [true], the check of state 1. *)
Theorem whittles_flag_misses_state_0 :
  (SingleArmAnalyzer.solve_whittles_policy cvx_two_states analyzer_two_states).1
  = Ok ([1; 0], true, [])
  ∧ approx_wi cvx_two_states analyzer_two_states 0 = Some 0
  ∧ passive_row cvx_two_states analyzer_two_states 0 !! 41 = Some false
  ∧ ¬ stays_passive cvx_two_states analyzer_two_states 0
  ∧ stays_passive cvx_two_states analyzer_two_states 1.
Proof.
  assert (H0 : approx_wi cvx_two_states analyzer_two_states 0 = Some 0)
    by by vm_compute.
  assert (H41 : passive_row cvx_two_states analyzer_two_states 0 !! 41 = Some false)
    by by vm_compute.
  split_and!; [by vm_compute|done|done| |].
  - intros Hstay. specialize (Hstay 0 41 H0).
    rewrite H41 in Hstay. discriminate Hstay; [lia|by vm_compute].
  - apply row_check_stays_passive; [simpl; lia|by exists 31|by vm_compute].
Qed.

(** ** The rounded budget *)

Lemma py_int_Qfloor (x : Q) : (0 <= x)%Q → py_int x = Qfloor x.
Proof.
  intros Hx. destruct x as [n d]. unfold py_int, Qfloor. simpl.
  apply Z.quot_div_nonneg; [|lia].
  unfold Qle in Hx. simpl in Hx. lia.
Qed.

Lemma Qfloor_nonneg (x : Q) : (0 <= x)%Q → (0 ≤ Qfloor x)%Z.
Proof. intros Hx. by apply (Qfloor_resp_le 0 x) in Hx. Qed.

Lemma Qceiling_above_floor (x : Q) :
  (inject_Z (Qfloor x) < x)%Q → Qceiling x = (Qfloor x + 1)%Z.
Proof.
  intros Hlt.
  pose proof (Qle_ceiling x) as Hc. pose proof (Qceiling_lt x) as Hc'.
  pose proof (Qlt_floor x) as Hf.
  assert (H1 : (inject_Z (Qfloor x) < inject_Z (Qceiling x))%Q) by lra.
  assert (H2 : (inject_Z (Qceiling x - 1) < inject_Z (Qfloor x + 1))%Q) by lra.
  rewrite <- Zlt_Qlt in H1, H2. lia.
Qed.

Lemma Qle_bool_true (x y : Q) : (x <= y)%Q → Qle_bool x y = true.
Proof. apply Qle_bool_iff. Qed.

(** The budget is drawn without error; it is the floor of [N * act_frac] plus
    the rounding draw, lies between 0 and [N], and is the floor or the
    ceiling. *)
Lemma rounded_budget_spec (rng : np_random) (N : nat) (act_frac : Q) :
  np_random_ok rng → (0 <= act_frac)%Q → (act_frac <= 1)%Q →
  ∃ budget,
    rounded_budget rng N act_frac = Ok budget
    ∧ budget
      = (Qfloor (inject_Z (Z.of_nat N) * act_frac)
         + binomial1 rng (inject_Z (Z.of_nat N) * act_frac
                          - inject_Z (Qfloor (inject_Z (Z.of_nat N) * act_frac))))%Z
    ∧ (0 ≤ budget ≤ Z.of_nat N)%Z
    ∧ (budget = Qfloor (inject_Z (Z.of_nat N) * act_frac)
       ∨ budget = Qceiling (inject_Z (Z.of_nat N) * act_frac)).
Proof.
  intros Hrng H0 H1. unfold rounded_budget.
  set (x := (inject_Z (Z.of_nat N) * act_frac)%Q).
  assert (HN : (0 <= inject_Z (Z.of_nat N))%Q).
  { change 0%Q with (inject_Z 0). rewrite <- Zle_Qle. lia. }
  assert (Hx0 : (0 <= x)%Q) by (unfold x; nra).
  assert (HxN : (x <= inject_Z (Z.of_nat N))%Q) by (unfold x; nra).
  rewrite py_int_Qfloor by done.
  pose proof (Qfloor_le x) as Hfl. pose proof (Qlt_floor x) as Hfu.
  pose proof (Qfloor_nonneg x Hx0) as Hf0.
  rewrite inject_Z_plus in Hfu. change (inject_Z 1) with 1%Q in Hfu.
  unfold np_binomial1.
  rewrite (Qle_bool_true 0) by lra. rewrite Qle_bool_true by lra.
  cbn [andb mbind result_bind].
  exists (Qfloor x + binomial1 rng (x - inject_Z (Qfloor x)))%Z.
  split; [done|]. split; [done|].
  pose proof (Qfloor_resp_le _ _ HxN) as HfN. rewrite Qfloor_Z in HfN.
  destruct (binomial1_range rng Hrng (x - inject_Z (Qfloor x))%Q) as [Hd|Hd];
    rewrite Hd.
  - split; [lia|]. left. lia.
  - assert (Hne : ¬ (x - inject_Z (Qfloor x) == 0)%Q).
    { intros Hz. apply (binomial1_zero rng Hrng) in Hz. lia. }
    assert (Hlt : (inject_Z (Qfloor x) < x)%Q).
    { apply Qle_lteq in Hfl as [?|Heq]; [done|]. destruct Hne. lra. }
    split; [|right; by rewrite Qceiling_above_floor].
    assert (Hlt' : (inject_Z (Qfloor x) < inject_Z (Z.of_nat N))%Q) by lra.
    rewrite <- Zlt_Qlt in Hlt'. lia.
Qed.

Lemma rng_first_ok : np_random_ok rng_first.
Proof.
  split; simpl.
  - intros p. destruct (Qle_bool p 0); auto.
  - intros p Hp. rewrite Qle_bool_true; [done|]. lra.
  - intros a k Hk. rewrite length_take. lia.
  - intros a k _ Hnd. apply (sublist_NoDup _ a); [done|apply sublist_take].
  - intros a k _. apply subseteq_take.
  - intros s n. apply length_replicate.
  - intros s n. apply Forall_replicate. by right.
  - intros s a n. apply length_replicate.
Qed.

(** ** Activating arms *)

Lemma num_active_app (a b : list Z) : num_active (a ++ b) = num_active a + num_active b.
Proof. unfold num_active. by rewrite filter_app, length_app. Qed.

Lemma num_active_cons (x : Z) (a : list Z) :
  num_active (x :: a) = (if decide (x = 1%Z) then 1 else 0) + num_active a.
Proof. unfold num_active. rewrite filter_cons. by destruct (decide (x = 1%Z)). Qed.

Lemma num_active_insert (actions : list Z) (i : nat) :
  actions !! i = Some 0%Z →
  num_active (<[i := 1%Z]> actions) = S (num_active actions).
Proof.
  intros Hi. pose proof (lookup_lt_Some _ _ _ Hi) as Hlt.
  rewrite insert_take_drop by done.
  rewrite <- (take_drop_middle actions i 0%Z Hi) at 3.
  rewrite !num_active_app, !num_active_cons. simpl. lia.
Qed.

Lemma set_at_cons {A} (i : nat) (idxs : list nat) (v : A) (a : list A) :
  set_at (i :: idxs) v a = set_at idxs v (<[i := v]> a).
Proof. done. Qed.

Lemma num_active_set_at (idxs : list nat) (actions : list Z) :
  NoDup idxs → Forall (λ i, actions !! i = Some 0%Z) idxs →
  num_active (set_at idxs 1%Z actions) = num_active actions + length idxs.
Proof.
  revert actions. induction idxs as [|i idxs IH]; intros actions Hnd Hz.
  { simpl. lia. }
  apply NoDup_cons in Hnd as [Hi Hnd]. apply Forall_cons in Hz as [Hzi Hz].
  rewrite set_at_cons, IH; [|done|].
  - rewrite num_active_insert by done. simpl. lia.
  - rewrite Forall_forall in Hz. apply Forall_forall. intros j Hj.
    rewrite list_lookup_insert_ne; [by apply Hz|]. by intros ->.
Qed.

Lemma Forall_set_at {A} (P : A → Prop) (idxs : list nat) (v : A) (a : list A) :
  P v → Forall P a → Forall P (set_at idxs v a).
Proof.
  intros Hv. revert a. induction idxs as [|i idxs IH]; intros a Ha; [done|].
  rewrite set_at_cons. apply IH. by apply Forall_insert.
Qed.

Lemma active_in_all (actions : list Z) (arms : list nat) :
  Forall (λ i, actions !! i = Some 1%Z) arms → active_in actions arms = length arms.
Proof.
  intros Hall. unfold active_in. induction Hall as [|i arms Hi Hall IH]; [done|].
  rewrite filter_cons_True by done. simpl. by rewrite IH.
Qed.

Lemma active_in_none (actions : list Z) (arms : list nat) :
  Forall (λ i, actions !! i = Some 0%Z) arms → active_in actions arms = 0.
Proof.
  intros Hall. unfold active_in. induction Hall as [|i arms Hi Hall IH]; [done|].
  rewrite filter_cons_False; [done|]. rewrite Hi. by intros [=].
Qed.

(** Activating a duplicate-free part [chosen] of [arms], all at 0 before. *)
Lemma active_in_chosen (actions : list Z) (arms chosen : list nat) :
  NoDup arms → NoDup chosen → chosen ⊆ arms →
  Forall (λ i, actions !! i = Some 0%Z) arms →
  active_in (set_at chosen 1%Z actions) arms = length chosen.
Proof.
  intros Harms Hchosen Hsub Hz. unfold active_in.
  apply Permutation_length, NoDup_Permutation; [by apply NoDup_filter|done|].
  intros i. rewrite list_elem_of_filter. rewrite Forall_forall in Hz. split.
  - intros [Hone Hin]. destruct (decide (i ∈ chosen)) as [|Hnot]; [done|].
    rewrite lookup_set_at_notin, Hz in Hone by done. by injection Hone.
  - intros Hin. split; [|by apply Hsub].
    apply lookup_set_at_in; [done|]. eapply lookup_lt_Some, Hz, Hsub, Hin.
Qed.

(** ** The walk over the priority levels *)

(** The levels are disjoint and duplicate-free, and their arms are at 0. The
    walk activates level after level while the budget covers them, then a part
    of the first level it does not cover, and nothing below. *)
Lemma fill_levels_spec rng (levels : list (list nat)) (actions : list Z) (rem : Z) :
  np_random_ok rng → (0 ≤ rem)%Z →
  NoDup (concat levels) →
  Forall (λ i, actions !! i = Some 0%Z) (concat levels) →
  Forall (λ a, a = 0 ∨ a = 1)%Z actions →
  ∃ actions',
    FTVAPolicy.fill_levels rng levels actions rem = Ok actions'
    ∧ length actions' = length actions
    ∧ Forall (λ a, a = 0 ∨ a = 1)%Z actions'
    ∧ (∀ i, i ∉ concat levels → actions' !! i = actions !! i)
    ∧ (∀ pre lvl post, levels = pre ++ lvl :: post →
         Z.of_nat (active_in actions' lvl)
         = Z.min (Z.of_nat (length lvl))
                 (Z.max 0 (rem - Z.of_nat (length (concat pre)))))
    ∧ Z.of_nat (num_active actions')
      = (Z.of_nat (num_active actions)
         + Z.min rem (Z.of_nat (length (concat levels))))%Z.
Proof.
  intros Hrng. revert actions rem.
  induction levels as [|l0 ls IH]; intros actions rem Hrem Hnd Hz H01.
  { exists actions. split_and!; try done.
    - intros pre lvl post Heq. by destruct pre.
    - simpl. lia. }
  cbn [concat] in Hnd, Hz. apply NoDup_app in Hnd as (Hnd0 & Hdisj & Hnds).
  apply Forall_app in Hz as [Hz0 Hzs].
  cbn [FTVAPolicy.fill_levels].
  destruct (decide (Z.of_nat (length l0) ≤ rem)%Z) as [Hle|Hgt].
  - destruct (IH (set_at l0 1%Z actions) (rem - Z.of_nat (length l0))%Z)
      as (actions' & Hrun & Hlen & H01' & Hout & Hlvl & Hnum); [lia|done| | |].
    { rewrite Forall_forall in Hzs. apply Forall_forall. intros i Hi.
      rewrite lookup_set_at_notin; [by apply Hzs|]. intros Hi0. by apply (Hdisj i). }
    { apply Forall_set_at; [by right|done]. }
    exists actions'. split_and!; [done| |done| | |].
    + by rewrite Hlen, length_set_at.
    + intros i Hi. cbn [concat] in Hi. rewrite elem_of_app in Hi.
      rewrite Hout by tauto. apply lookup_set_at_notin. tauto.
    + intros pre lvl post Heq. destruct pre as [|p pre]; cbn in Heq.
      * injection Heq as <- <-. rewrite active_in_all.
        -- cbn. lia.
        -- rewrite Forall_forall in Hz0. apply Forall_forall. intros i Hi.
           rewrite Hout by by apply Hdisj.
           apply lookup_set_at_in; [done|]. eapply lookup_lt_Some, Hz0, Hi.
      * injection Heq as <- ->. rewrite (Hlvl pre lvl post eq_refl).
        cbn [concat]. rewrite length_app. lia.
    + rewrite Hnum, num_active_set_at by done. cbn [concat]. rewrite length_app. lia.
  - unfold np_choice. rewrite decide_True by lia. cbn [mbind result_bind].
    set (k := Z.to_nat rem). assert (Hk : k ≤ length l0) by lia.
    pose proof (choice_length rng Hrng l0 k Hk) as Hclen.
    pose proof (choice_NoDup rng Hrng l0 k Hk Hnd0) as Hcnd.
    pose proof (choice_subset rng Hrng l0 k Hk) as Hcsub.
    set (chosen := choice_without_replacement rng l0 k) in *.
    exists (set_at chosen 1%Z actions). split_and!; [done| | | | |].
    + apply length_set_at.
    + apply Forall_set_at; [by right|done].
    + intros i Hi. cbn [concat] in Hi. rewrite elem_of_app in Hi.
      apply lookup_set_at_notin. intros Hc. apply Hi. left. by apply Hcsub.
    + intros pre lvl post Heq. destruct pre as [|p pre]; cbn in Heq.
      * injection Heq as <- <-. rewrite active_in_chosen by done. cbn. lia.
      * injection Heq as <- ->. rewrite active_in_none.
        -- cbn [concat]. rewrite length_app. lia.
        -- rewrite Forall_forall in Hzs. apply Forall_forall. intros i Hi.
           assert (Hin : i ∈ concat (pre ++ lvl :: post)).
           { rewrite concat_app. cbn [concat]. rewrite !elem_of_app. auto. }
           rewrite lookup_set_at_notin; [by apply Hzs|].
           intros Hc. apply (Hdisj i); [by apply Hcsub|done].
    + rewrite num_active_set_at; [|done|].
      * cbn [concat]. rewrite length_app. lia.
      * rewrite Forall_forall in Hz0. apply Forall_forall. intros i Hi.
        apply Hz0. by apply Hcsub.
Qed.

(** ** The priority policy *)

Lemma elem_of_bucket (cur_states : list nat) (s i : nat) :
  i ∈ np_where (np_eq_scalar cur_states s) ↔ cur_states !! i = Some s.
Proof.
  rewrite elem_of_np_where. unfold np_eq_scalar. rewrite list_lookup_fmap.
  destruct (cur_states !! i) as [x|]; simpl; [|done].
  split.
  - intros [= Hx]. apply bool_decide_eq_true in Hx. by subst.
  - intros [= ->]. by rewrite bool_decide_eq_true_2.
Qed.

Lemma s2indices_lookup (self : PriorityPolicy.t) (cur_states : list nat) (s : nat) :
  s < PriorityPolicy.sspa_size self →
  PriorityPolicy.s2indices self cur_states !! s
  = Some (np_where (np_eq_scalar cur_states s)).
Proof.
  intros Hs. unfold PriorityPolicy.s2indices, PriorityPolicy.sspa.
  apply elem_of_list_to_map_1.
  - assert (Hfst : ∀ l : list nat,
              ((λ state, (state, np_where (np_eq_scalar cur_states state))) <$> l).*1 = l).
    { induction l as [|x l IH]; csimpl; [done|]. by rewrite IH. }
    rewrite Hfst. apply NoDup_seq.
  - apply list_elem_of_fmap. exists s. split; [done|]. apply elem_of_seq. lia.
Qed.

Lemma fill_as_levels rng (self : PriorityPolicy.t) (cur_states states : list nat)
    (actions : list Z) (rem : Z) :
  Forall (λ s, s < PriorityPolicy.sspa_size self) states →
  PriorityPolicy.fill rng (PriorityPolicy.s2indices self cur_states) states actions rem
  = (actions' ← FTVAPolicy.fill_levels rng
                  ((λ s, np_where (np_eq_scalar cur_states s)) <$> states) actions rem;
     Ok (actions',
         rem_after ((λ s, np_where (np_eq_scalar cur_states s)) <$> states) rem)).
Proof.
  revert actions rem. induction states as [|s states IH]; intros actions rem Hall.
  { done. }
  apply Forall_cons in Hall as [Hs Hall].
  cbn [PriorityPolicy.fill fmap list_fmap FTVAPolicy.fill_levels rem_after].
  rewrite s2indices_lookup by done.
  destruct (decide _) as [Hle|Hgt]; [by apply IH|].
  by destruct (np_choice rng _ rem).
Qed.

Lemma rem_after_spec (levels : list (list nat)) (rem : Z) :
  (0 ≤ rem)%Z →
  rem_after levels rem = Z.max 0 (rem - Z.of_nat (length (concat levels))).
Proof.
  revert rem. induction levels as [|l ls IH]; intros rem Hrem; simpl; [lia|].
  rewrite length_app. destruct (decide _) as [Hle|Hgt]; [|lia].
  rewrite IH by lia. lia.
Qed.

Lemma elem_of_concat_fmap {A} (f : A → list nat) (l : list A) (i : nat) :
  i ∈ concat (f <$> l) ↔ ∃ x, x ∈ l ∧ i ∈ f x.
Proof.
  induction l as [|x l IH]; csimpl.
  - rewrite elem_of_nil. split; [done|]. intros (x & Hx & _). by apply elem_of_nil in Hx.
  - rewrite elem_of_app, IH. split.
    + intros [Hi|(y & Hy & Hi)]; [exists x|exists y]; split; try done.
      * apply elem_of_cons. by left.
      * apply elem_of_cons. by right.
    + intros (y & [->|Hy]%elem_of_cons & Hi); [by left|]. right. eauto.
Qed.

Lemma NoDup_concat_fmap {A} (f : A → list nat) (l : list A) :
  NoDup l → (∀ x, x ∈ l → NoDup (f x)) →
  (∀ x y i, x ∈ l → y ∈ l → i ∈ f x → i ∈ f y → x = y) →
  NoDup (concat (f <$> l)).
Proof.
  intros Hnd Hf Hinj. induction Hnd as [|x l Hx Hnd IH]; csimpl; [constructor|].
  apply NoDup_app. split_and!.
  - apply Hf. apply elem_of_cons. by left.
  - intros i Hi (y & Hy & Hiy)%elem_of_concat_fmap.
    assert (x = y) as ->; [|done].
    apply (Hinj x y i); [apply elem_of_cons; by left|apply elem_of_cons; by right|done..].
  - apply IH.
    + intros y Hy. apply Hf. apply elem_of_cons. by right.
    + intros y z i Hy Hz. apply Hinj; apply elem_of_cons; by right.
Qed.

(** The buckets of a duplicate-free priority list that covers the current
    states hold every arm once. *)
Lemma buckets_Permutation (cur_states states : list nat) :
  NoDup states → Forall (λ s, s ∈ states) cur_states →
  concat ((λ s, np_where (np_eq_scalar cur_states s)) <$> states)
  ≡ₚ seq 0 (length cur_states).
Proof.
  intros Hnd Hcover. apply NoDup_Permutation; [|apply NoDup_seq|].
  - apply NoDup_concat_fmap; [done|intros; apply NoDup_np_where|].
    intros x y i _ _ Hx%elem_of_bucket Hy%elem_of_bucket. congruence.
  - intros i. rewrite elem_of_concat_fmap, elem_of_seq. split.
    + intros (s & _ & Hi%elem_of_bucket). apply lookup_lt_Some in Hi. lia.
    + intros [_ Hi]. destruct (lookup_lt_is_Some_2 cur_states i) as [s Hs]; [lia|].
      exists s. split; [|by apply elem_of_bucket].
      rewrite Forall_forall in Hcover. apply Hcover. by eapply list_elem_of_lookup_2.
Qed.

Lemma num_active_replicate_0 (n : nat) : num_active (replicate n 0%Z) = 0.
Proof.
  induction n as [|n IH]; [done|]. cbn [replicate]. by rewrite num_active_cons, IH.
Qed.

(** C3. For a priority list without repetition whose states are states of the
    policy, an activation fraction in [0, 1], current states of length [N] that
    all occur in the priority list, and any outcome of the draws,
    [PriorityPolicy.get_actions] returns a 0/1 action vector of length [N]
    whose number of 1-entries is the floor of [N * act_frac] plus the rounding
    draw: exactly the floor or exactly the ceiling of [N * act_frac]. *)
Theorem priority_policy_budget rng (self : PriorityPolicy.t) (cur_states : list nat) :
  np_random_ok rng →
  (0 <= PriorityPolicy.act_frac self)%Q → (PriorityPolicy.act_frac self <= 1)%Q →
  NoDup (PriorityPolicy.priority_list self) →
  Forall (λ s, s < PriorityPolicy.sspa_size self) (PriorityPolicy.priority_list self) →
  length cur_states = PriorityPolicy.N self →
  Forall (λ s, s ∈ PriorityPolicy.priority_list self) cur_states →
  ∃ actions,
    PriorityPolicy.get_actions rng self cur_states = Ok actions
    ∧ length actions = PriorityPolicy.N self
    ∧ Forall (λ a, a = 0 ∨ a = 1)%Z actions
    ∧ Z.of_nat (num_active actions)
      = (Qfloor (inject_Z (Z.of_nat (PriorityPolicy.N self)) * PriorityPolicy.act_frac self)
         + binomial1 rng
             (inject_Z (Z.of_nat (PriorityPolicy.N self)) * PriorityPolicy.act_frac self
              - inject_Z (Qfloor (inject_Z (Z.of_nat (PriorityPolicy.N self))
                                  * PriorityPolicy.act_frac self))))%Z
    ∧ (Z.of_nat (num_active actions)
       = Qfloor (inject_Z (Z.of_nat (PriorityPolicy.N self)) * PriorityPolicy.act_frac self)
       ∨ Z.of_nat (num_active actions)
         = Qceiling (inject_Z (Z.of_nat (PriorityPolicy.N self))
                     * PriorityPolicy.act_frac self)).
Proof.
  intros Hrng H0 H1 Hnd Hin Hlen Hcover.
  destruct (rounded_budget_spec rng (PriorityPolicy.N self)
              (PriorityPolicy.act_frac self) Hrng H0 H1)
    as (budget & Hbudget & Hformula & Hrange & Hfc).
  set (levels := (λ s, np_where (np_eq_scalar cur_states s))
                   <$> PriorityPolicy.priority_list self).
  pose proof (buckets_Permutation cur_states _ Hnd Hcover) as Hperm. fold levels in Hperm.
  assert (Hsize : length (concat levels) = PriorityPolicy.N self).
  { by rewrite Hperm, length_seq. }
  destruct (fill_levels_spec rng levels (replicate (PriorityPolicy.N self) 0%Z) budget)
    as (actions & Hrun & Hlen' & H01 & _ & _ & Hnum); [done|lia| | | |].
  { rewrite Hperm. apply NoDup_seq. }
  { apply Forall_forall. intros i Hi. rewrite Hperm in Hi.
    apply elem_of_seq in Hi. apply lookup_replicate_2. lia. }
  { apply Forall_replicate. by left. }
  exists actions. rewrite length_replicate in Hlen'.
  rewrite num_active_replicate_0, Hsize in Hnum.
  assert (Hact : Z.of_nat (num_active actions) = budget) by lia.
  split_and!; [|done|done|by rewrite Hact|by rewrite Hact].
  unfold PriorityPolicy.get_actions. rewrite Hbudget. cbn [mbind result_bind].
  rewrite fill_as_levels by done. fold levels. rewrite Hrun. cbn [mbind result_bind].
  rewrite rem_after_spec, Hsize by lia. rewrite decide_True by lia. done.
Qed.

Lemma priority_policy_budget_witness :
  ∃ actions,
    PriorityPolicy.get_actions rng_first priority_policy_five [0; 1; 0; 1; 1] = Ok actions
    ∧ length actions = PriorityPolicy.N priority_policy_five
    ∧ Forall (λ a, a = 0 ∨ a = 1)%Z actions
    ∧ Z.of_nat (num_active actions)
      = (Qfloor (inject_Z (Z.of_nat (PriorityPolicy.N priority_policy_five))
                 * PriorityPolicy.act_frac priority_policy_five)
         + binomial1 rng_first
             (inject_Z (Z.of_nat (PriorityPolicy.N priority_policy_five))
              * PriorityPolicy.act_frac priority_policy_five
              - inject_Z (Qfloor (inject_Z (Z.of_nat (PriorityPolicy.N priority_policy_five))
                                  * PriorityPolicy.act_frac priority_policy_five))))%Z
    ∧ (Z.of_nat (num_active actions)
       = Qfloor (inject_Z (Z.of_nat (PriorityPolicy.N priority_policy_five))
                 * PriorityPolicy.act_frac priority_policy_five)
       ∨ Z.of_nat (num_active actions)
         = Qceiling (inject_Z (Z.of_nat (PriorityPolicy.N priority_policy_five))
                     * PriorityPolicy.act_frac priority_policy_five)).
Proof.
  apply (priority_policy_budget rng_first priority_policy_five [0; 1; 0; 1; 1]).
  - exact rng_first_ok.
  - by vm_compute.
  - by vm_compute.
  - simpl. apply (bool_decide_unpack _). by vm_compute.
  - simpl. repeat constructor.
  - reflexivity.
  - simpl. apply (bool_decide_unpack _). by vm_compute.
Defined.

(** The hypothesis on repetitions is used: a state listed twice is charged
    twice to the budget. With the list [0; 0; 1], four arms in states 0, 1, 1, 1
    and a budget of 2, arm 0 is activated and nothing else. *)
Example priority_list_repetition :
  PriorityPolicy.get_actions rng_first (PriorityPolicy.mk 2 [0; 0; 1] 4 (1 # 2))
    [0; 1; 1; 1]
  = Ok [1; 0; 0; 0]%Z.
Proof. by vm_compute. Qed.

(** ** FTVA: the goodness rule *)

Lemma Forall_set_at_list {A} (P : A → Prop) (idxs : list nat) (vals a : list A) :
  Forall P vals → Forall P a → Forall P (set_at_list idxs vals a).
Proof.
  unfold set_at_list. revert vals a.
  induction idxs as [|i idxs IH]; intros vals a Hv Ha; [done|].
  destruct vals as [|x vals]; [done|]. apply Forall_cons in Hv as [Hx Hv].
  cbn [zip zip_with foldl]. apply IH; [done|]. by apply Forall_insert.
Qed.

(** The virtual actions: one 0/1 entry per arm. *)
Lemma draw_virtual_actions_spec rng (self : FTVAPolicy.t) :
  np_random_ok rng →
  length (FTVAPolicy.draw_virtual_actions rng self) = FTVAPolicy.N self
  ∧ Forall (λ a, a = 0 ∨ a = 1)%Z (FTVAPolicy.draw_virtual_actions rng self).
Proof.
  intros Hrng. unfold FTVAPolicy.draw_virtual_actions.
  assert (Hgen : ∀ (states : list nat) (va : list Z),
            length va = FTVAPolicy.N self → Forall (λ a, a = 0 ∨ a = 1)%Z va →
            length (foldl (λ va state,
                      let indices := np_where (np_eq_scalar (FTVAPolicy.virtual_states self) state) in
                      set_at_list indices (sample_action rng state (length indices)) va)
                    va states) = FTVAPolicy.N self
            ∧ Forall (λ a, a = 0 ∨ a = 1)%Z
                (foldl (λ va state,
                      let indices := np_where (np_eq_scalar (FTVAPolicy.virtual_states self) state) in
                      set_at_list indices (sample_action rng state (length indices)) va)
                    va states)).
  { induction states as [|s states IH]; intros va Hlen H01; [done|].
    cbn [foldl]. apply IH.
    - by rewrite length_set_at_list.
    - apply Forall_set_at_list; [apply (sample_action_range rng Hrng)|done]. }
  apply Hgen; [apply length_replicate|]. apply Forall_replicate. by left.
Qed.

Lemma arm_level_Some (cur_states virtual_states : list nat) (va : list Z)
    (i c v : nat) (a : Z) :
  cur_states !! i = Some c → virtual_states !! i = Some v → va !! i = Some a →
  arm_level cur_states virtual_states va i = Some (goodness_level c v a).
Proof. intros Hc Hv Ha. unfold arm_level. by rewrite Hc, Hv, Ha. Qed.

Lemma arm_level_lt (cur_states virtual_states : list nat) (va : list Z) (i lvl : nat) :
  arm_level cur_states virtual_states va i = Some lvl →
  i < length va ∧ lvl < 4.
Proof.
  unfold arm_level. intros H.
  destruct (cur_states !! i) as [c|]; [|done].
  destruct (virtual_states !! i) as [v|]; [|done].
  destruct (va !! i) as [a|] eqn:Ha; [|done]. simpl in H. injection H as <-.
  split; [by eapply lookup_lt_Some|].
  unfold goodness_level. repeat destruct (decide _); lia.
Qed.

Lemma elem_of_level_arms (cur_states virtual_states : list nat) (va : list Z)
    (lvl i : nat) :
  i ∈ level_arms cur_states virtual_states va lvl
  ↔ arm_level cur_states virtual_states va i = Some lvl.
Proof.
  unfold level_arms. rewrite list_elem_of_filter, elem_of_seq. split; [tauto|].
  intros H. split; [done|]. apply arm_level_lt in H. lia.
Qed.

(** The four index arrays of the code are the four levels. *)
Lemma goodness_classes_levels (self : FTVAPolicy.t) (cur_states : list nat) (va : list Z) :
  length cur_states = FTVAPolicy.N self →
  length (FTVAPolicy.virtual_states self) = FTVAPolicy.N self →
  length va = FTVAPolicy.N self →
  Forall (λ a, a = 0 ∨ a = 1)%Z va →
  np_nonzero <$> FTVAPolicy.goodness_classes self cur_states va
  = level_arms cur_states (FTVAPolicy.virtual_states self) va <$> seq 0 4.
Proof.
  intros Hc Hv Ha H01.
  assert (Hgen : ∀ (f : Z → Z → Z) (lvl : nat),
            (∀ c v a, (a = 0 ∨ a = 1)%Z →
               truthy (f a (Z.b2z (bool_decide (c = v)))) = true
               ↔ goodness_level c v a = lvl) →
            np_nonzero (zip_with f va
                          (Z.b2z <$> np_eq cur_states (FTVAPolicy.virtual_states self)))
            = level_arms cur_states (FTVAPolicy.virtual_states self) va lvl).
  { intros f lvl Hf. unfold np_nonzero, np_where, level_arms.
    rewrite length_fmap, length_zip_with, length_fmap.
    assert (Hleq : length (np_eq cur_states (FTVAPolicy.virtual_states self))
                   = length cur_states `min` length (FTVAPolicy.virtual_states self))
      by apply length_zip_with.
    rewrite Hleq.
    replace (length va `min` (length cur_states `min` length (FTVAPolicy.virtual_states self)))
      with (length va) by lia.
    apply list_filter_iff. intros i.
    rewrite list_lookup_fmap, lookup_zip_with, list_lookup_fmap.
    unfold arm_level, np_eq. rewrite lookup_zip_with.
    destruct (va !! i) as [a|] eqn:Hai; simpl.
    - rewrite Forall_forall in H01.
      assert (Ha01 : (a = 0 ∨ a = 1)%Z) by (apply H01; by eapply list_elem_of_lookup_2).
      destruct (cur_states !! i) as [c|]; simpl; [|done].
      destruct (FTVAPolicy.virtual_states self !! i) as [v|]; simpl; [|done].
      pose proof (Hf c v a Ha01) as [Hf1 Hf2]. split.
      * intros [= Ht]. f_equal. by apply Hf1.
      * intros [= Hl]. f_equal. by apply Hf2.
    - destruct (cur_states !! i) as [c|]; simpl; [|done].
      by destruct (FTVAPolicy.virtual_states self !! i). }
  unfold FTVAPolicy.goodness_classes. cbn [fmap list_fmap seq].
  rewrite (Hgen _ 0), (Hgen _ 1), (Hgen _ 2), (Hgen _ 3); [done|..].
  all: intros c v a [-> | ->]; unfold goodness_level, truthy;
    destruct (decide (c = v)) as [Hcv|Hcv];
    rewrite ?(bool_decide_eq_true_2 _ Hcv), ?(bool_decide_eq_false_2 _ Hcv);
    simpl; split; (done || lia || discriminate).
Qed.

Lemma levels_Permutation (cur_states virtual_states : list nat) (va : list Z) :
  length cur_states = length va → length virtual_states = length va →
  concat (level_arms cur_states virtual_states va <$> seq 0 4) ≡ₚ seq 0 (length va).
Proof.
  intros Hc Hv. apply NoDup_Permutation; [|apply NoDup_seq|].
  - apply NoDup_concat_fmap; [apply NoDup_seq| |].
    + intros lvl _. apply NoDup_filter, NoDup_seq.
    + intros x y i _ _ Hx%elem_of_level_arms Hy%elem_of_level_arms. congruence.
  - intros i. rewrite elem_of_concat_fmap, elem_of_seq. split.
    + intros (lvl & _ & Hi%elem_of_level_arms). apply arm_level_lt in Hi. lia.
    + intros [_ Hi]. simpl in Hi.
      destruct (lookup_lt_is_Some_2 cur_states i) as [c Hci]; [lia|].
      destruct (lookup_lt_is_Some_2 virtual_states i) as [v Hvi]; [lia|].
      destruct (lookup_lt_is_Some_2 va i) as [a Hai]; [lia|].
      pose proof (arm_level_Some _ _ _ _ _ _ _ Hci Hvi Hai) as Hl.
      exists (goodness_level c v a). split; [|by apply elem_of_level_arms].
      apply arm_level_lt in Hl. apply elem_of_seq. lia.
Qed.

Lemma active_in_pos (actions : list Z) (arms : list nat) (i : nat) :
  i ∈ arms → actions !! i = Some 1%Z → 0 < active_in actions arms.
Proof.
  intros Hi Hone. unfold active_in.
  assert (Hin : i ∈ filter (λ i, actions !! i = Some 1%Z) arms)
    by by apply list_elem_of_filter.
  destruct (filter _ arms); [by apply elem_of_nil in Hin|simpl; lia].
Qed.

Lemma active_in_full (actions : list Z) (arms : list nat) (i : nat) :
  active_in actions arms = length arms → i ∈ arms → actions !! i = Some 1%Z.
Proof.
  unfold active_in. induction arms as [|j arms IH]; intros Hlen Hi.
  { by apply elem_of_nil in Hi. }
  pose proof (length_filter (λ i, actions !! i = Some 1%Z) arms) as Hle.
  rewrite filter_cons in Hlen. destruct (decide (actions !! j = Some 1%Z)) as [Hj|Hj].
  - simpl in Hlen. apply elem_of_cons in Hi as [->|Hi]; [done|].
    apply IH; [lia|done].
  - simpl in Hlen. lia.
Qed.

(** C4. Under the default rule ([tb_rule] absent or "goodness"), with an
    activation fraction in [0, 1] and arrays of one entry per arm,
    [FTVAPolicy.get_actions] returns; the levels are filled greedily from the
    top (level [lvl] gets as many activations as it has arms, or what is left
    of the budget after the levels above it), so an activated arm has all arms
    of the strictly higher levels activated; and the total number of activated
    arms is the rounded budget. Levels: 0 is (virtual action 1, real state
    equals virtual state), 1 is (1, different), 2 is (0, different), 3 is
    (0, equal). *)
Theorem ftva_goodness_levels rng (self : FTVAPolicy.t) (cur_states : list nat)
    (tb_rule : option string) (tb_param : option (list nat)) :
  np_random_ok rng →
  tb_rule = None ∨ tb_rule = Some "goodness" →
  (0 <= FTVAPolicy.act_frac self)%Q → (FTVAPolicy.act_frac self <= 1)%Q →
  length cur_states = FTVAPolicy.N self →
  length (FTVAPolicy.virtual_states self) = FTVAPolicy.N self →
  ∃ budget actions virtual_actions,
    rounded_budget rng (FTVAPolicy.N self) (FTVAPolicy.act_frac self) = Ok budget
    ∧ virtual_actions = FTVAPolicy.draw_virtual_actions rng self
    ∧ FTVAPolicy.get_actions rng self cur_states tb_rule tb_param
      = (Ok (actions, virtual_actions), self)
    ∧ length actions = FTVAPolicy.N self
    ∧ Forall (λ a, a = 0 ∨ a = 1)%Z actions
    ∧ (∀ i j li lj,
         arm_level cur_states (FTVAPolicy.virtual_states self) virtual_actions i = Some li →
         arm_level cur_states (FTVAPolicy.virtual_states self) virtual_actions j = Some lj →
         li < lj → actions !! j = Some 1%Z → actions !! i = Some 1%Z)
    ∧ (∀ lvl, lvl < 4 →
         Z.of_nat (active_in actions
                     (level_arms cur_states (FTVAPolicy.virtual_states self)
                        virtual_actions lvl))
         = Z.min
             (Z.of_nat (length (level_arms cur_states (FTVAPolicy.virtual_states self)
                                  virtual_actions lvl)))
             (Z.max 0
                (budget
                 - Z.of_nat (length (concat
                     (level_arms cur_states (FTVAPolicy.virtual_states self)
                        virtual_actions <$> seq 0 lvl))))))
    ∧ Z.of_nat (num_active actions) = budget
    ∧ (budget = Qfloor (inject_Z (Z.of_nat (FTVAPolicy.N self)) * FTVAPolicy.act_frac self)
       ∨ budget = Qceiling (inject_Z (Z.of_nat (FTVAPolicy.N self))
                            * FTVAPolicy.act_frac self)).
Proof.
  intros Hrng Hrule H0 H1 Hc Hv.
  destruct (rounded_budget_spec rng (FTVAPolicy.N self) (FTVAPolicy.act_frac self)
              Hrng H0 H1) as (budget & Hbudget & _ & Hrange & Hfc).
  destruct (draw_virtual_actions_spec rng self Hrng) as [Hva Hva01].
  set (va := FTVAPolicy.draw_virtual_actions rng self) in *.
  set (L := level_arms cur_states (FTVAPolicy.virtual_states self) va).
  pose proof (levels_Permutation cur_states (FTVAPolicy.virtual_states self) va)
    as Hperm. fold L in Hperm. rewrite Hva in Hperm.
  specialize (Hperm Hc Hv).
  assert (Hsize : length (concat (L <$> seq 0 4)) = FTVAPolicy.N self)
    by by rewrite Hperm, length_seq.
  destruct (fill_levels_spec rng (L <$> seq 0 4) (replicate (FTVAPolicy.N self) 0%Z) budget)
    as (actions & Hrun & Hlen & H01 & _ & Hlvl & Hnum); [done|lia| | | |].
  { rewrite Hperm. apply NoDup_seq. }
  { apply Forall_forall. intros i Hi. rewrite Hperm in Hi.
    apply elem_of_seq in Hi. apply lookup_replicate_2. lia. }
  { apply Forall_replicate. by left. }
  rewrite length_replicate in Hlen.
  rewrite num_active_replicate_0, Hsize in Hnum.
  pose proof (Hlvl [] (L 0) [L 1; L 2; L 3] eq_refl) as Ha0.
  pose proof (Hlvl [L 0] (L 1) [L 2; L 3] eq_refl) as Ha1.
  pose proof (Hlvl [L 0; L 1] (L 2) [L 3] eq_refl) as Ha2.
  pose proof (Hlvl [L 0; L 1; L 2] (L 3) [] eq_refl) as Ha3.
  assert (Hgreedy : ∀ lvl, lvl < 4 →
            Z.of_nat (active_in actions (L lvl))
            = Z.min (Z.of_nat (length (L lvl)))
                (Z.max 0 (budget - Z.of_nat (length (concat (L <$> seq 0 lvl)))))).
  { intros lvl Hlt. destruct lvl as [|[|[|[|lvl]]]]; [done..|lia]. }
  exists budget, actions, va. split_and!; [done|done| |done|done| |done|lia|done].
  - unfold FTVAPolicy.get_actions. rewrite Hbudget. cbn [mbind result_bind].
    rewrite decide_True by done. fold va.
    rewrite goodness_classes_levels by done. fold L. by rewrite Hrun.
  - intros i j li lj Hi Hj Hlt Hact.
    pose proof (arm_level_lt _ _ _ _ _ Hj) as [_ Hlj].
    apply elem_of_level_arms in Hi, Hj. fold L in Hi, Hj.
    pose proof (active_in_pos actions (L lj) j Hj Hact) as Hpos.
    apply (active_in_full actions (L li)); [|done].
    cbn [seq fmap list_fmap concat] in Ha0, Ha1, Ha2, Ha3.
    rewrite !length_app in Ha1. rewrite !length_app in Ha2. rewrite !length_app in Ha3.
    cbn [length] in Ha0, Ha1, Ha2, Ha3.
    destruct lj as [|[|[|[|lj]]]]; [lia| | | |lia];
      destruct li as [|[|[|li]]]; lia.
Qed.

Lemma ftva_goodness_levels_witness :
  ∃ budget actions virtual_actions,
    rounded_budget rng_first (FTVAPolicy.N ftva_two_arms) (FTVAPolicy.act_frac ftva_two_arms)
    = Ok budget
    ∧ virtual_actions = FTVAPolicy.draw_virtual_actions rng_first ftva_two_arms
    ∧ FTVAPolicy.get_actions rng_first ftva_two_arms [0; 0] None None
      = (Ok (actions, virtual_actions), ftva_two_arms)
    ∧ length actions = FTVAPolicy.N ftva_two_arms
    ∧ Forall (λ a, a = 0 ∨ a = 1)%Z actions
    ∧ (∀ i j li lj,
         arm_level [0; 0] (FTVAPolicy.virtual_states ftva_two_arms) virtual_actions i
         = Some li →
         arm_level [0; 0] (FTVAPolicy.virtual_states ftva_two_arms) virtual_actions j
         = Some lj →
         li < lj → actions !! j = Some 1%Z → actions !! i = Some 1%Z)
    ∧ (∀ lvl, lvl < 4 →
         Z.of_nat (active_in actions
                     (level_arms [0; 0] (FTVAPolicy.virtual_states ftva_two_arms)
                        virtual_actions lvl))
         = Z.min
             (Z.of_nat (length (level_arms [0; 0]
                                  (FTVAPolicy.virtual_states ftva_two_arms)
                                  virtual_actions lvl)))
             (Z.max 0
                (budget
                 - Z.of_nat (length (concat
                     (level_arms [0; 0] (FTVAPolicy.virtual_states ftva_two_arms)
                        virtual_actions <$> seq 0 lvl))))))
    ∧ Z.of_nat (num_active actions) = budget
    ∧ (budget = Qfloor (inject_Z (Z.of_nat (FTVAPolicy.N ftva_two_arms))
                        * FTVAPolicy.act_frac ftva_two_arms)
       ∨ budget = Qceiling (inject_Z (Z.of_nat (FTVAPolicy.N ftva_two_arms))
                            * FTVAPolicy.act_frac ftva_two_arms)).
Proof.
  apply (ftva_goodness_levels rng_first ftva_two_arms [0; 0] None None).
  - exact rng_first_ok.
  - by left.
  - by vm_compute.
  - by vm_compute.
  - reflexivity.
  - reflexivity.
Defined.

(** ** Sums and counts *)

Lemma np_sumQ_app (a b : list Q) : (np_sumQ (a ++ b) == np_sumQ a + np_sumQ b)%Q.
Proof.
  induction a as [|x a IH]; simpl; [lra|]. rewrite IH. lra.
Qed.

Lemma np_sumQ_nonneg (l : list Q) : Forall (λ x, 0 <= x)%Q l → (0 <= np_sumQ l)%Q.
Proof. induction 1 as [|x l Hx Hl IH]; simpl; lra. Qed.

Lemma count_state_app (a b : list nat) (s : nat) :
  count_state (a ++ b) s = count_state a s + count_state b s.
Proof. unfold count_state. by rewrite filter_app, length_app. Qed.

Lemma count_state_replicate (n x s : nat) :
  count_state (replicate n x) s = if decide (x = s) then n else 0.
Proof.
  unfold count_state. induction n as [|n IH]; cbn [replicate].
  - by destruct (decide (x = s)).
  - rewrite filter_cons. destruct (decide (x = s)); simpl; by rewrite IH.
Qed.

Lemma count_state_cons (x : nat) (l : list nat) (s : nat) :
  count_state (x :: l) s = (if decide (x = s) then 1 else 0) + count_state l s.
Proof. unfold count_state. rewrite filter_cons. by destruct (decide (x = s)). Qed.

(** ** Repairing drawn actions to the budget *)

Lemma np_sumZ_num_active (a : list Z) :
  Forall (λ x, x = 0 ∨ x = 1)%Z a → np_sumZ a = Z.of_nat (num_active a).
Proof.
  induction 1 as [|x a Hx Ha IH]; [done|].
  cbn [np_sumZ foldr]. fold (np_sumZ a). rewrite IH, num_active_cons.
  destruct Hx as [-> | ->]; simpl; lia.
Qed.

Lemma num_active_insert_0 (actions : list Z) (i : nat) :
  actions !! i = Some 1%Z →
  S (num_active (<[i := 0%Z]> actions)) = num_active actions.
Proof.
  intros Hi. pose proof (lookup_lt_Some _ _ _ Hi) as Hlt.
  rewrite insert_take_drop by done.
  rewrite <- (take_drop_middle actions i 1%Z Hi) at 3.
  rewrite !num_active_app, !num_active_cons. simpl. lia.
Qed.

Lemma num_active_set_at_0 (idxs : list nat) (actions : list Z) :
  NoDup idxs → Forall (λ i, actions !! i = Some 1%Z) idxs →
  num_active (set_at idxs 0%Z actions) + length idxs = num_active actions.
Proof.
  revert actions. induction idxs as [|i idxs IH]; intros actions Hnd Hz.
  { simpl. lia. }
  apply NoDup_cons in Hnd as [Hi Hnd]. apply Forall_cons in Hz as [Hzi Hz].
  rewrite set_at_cons. pose proof (num_active_insert_0 actions i Hzi) as Hins.
  specialize (IH (<[i := 0%Z]> actions) Hnd). simpl. rewrite <- Hins.
  rewrite <- IH; [lia|].
  rewrite Forall_forall in Hz. apply Forall_forall. intros j Hj.
  rewrite list_lookup_insert_ne; [by apply Hz|]. by intros ->.
Qed.

Lemma elem_of_where_eqZ (a : list Z) (v : Z) (i : nat) :
  i ∈ np_where (np_eqZ_scalar a v) ↔ a !! i = Some v.
Proof.
  rewrite elem_of_np_where. unfold np_eqZ_scalar. rewrite list_lookup_fmap.
  destruct (a !! i) as [x|]; simpl; [|done]. split.
  - intros [= Hx]. apply bool_decide_eq_true in Hx. by subst.
  - intros [= ->]. by rewrite bool_decide_eq_true_2.
Qed.

Lemma filter_ext_in {A} (P1 P2 : A → Prop) `{!∀ x, Decision (P1 x)}
    `{!∀ x, Decision (P2 x)} (l : list A) :
  (∀ x, x ∈ l → P1 x ↔ P2 x) → filter P1 l = filter P2 l.
Proof.
  induction l as [|x l IH]; intros Hext; [done|].
  rewrite !filter_cons.
  assert (Hx : P1 x ↔ P2 x) by (apply Hext, elem_of_cons; by left).
  rewrite IH by (intros y Hy; apply Hext, elem_of_cons; by right).
  destruct (decide (P1 x)), (decide (P2 x)); tauto || done.
Qed.

Lemma np_where_snoc (mask : list bool) (b : bool) :
  np_where (mask ++ [b]) = np_where mask ++ (if b then [length mask] else []).
Proof.
  unfold np_where. rewrite length_app. cbn [length].
  rewrite Nat.add_1_r, seq_S, filter_app. cbn [Nat.add]. f_equal.
  - apply filter_ext_in. intros i [_ Hi]%elem_of_seq.
    by rewrite lookup_app_l by (simpl in Hi; lia).
  - rewrite filter_cons, filter_nil.
    rewrite lookup_app_r, Nat.sub_diag by lia. cbn.
    destruct b; by destruct (decide _).
Qed.

Lemma length_np_where (mask : list bool) :
  length (np_where mask) = length (filter (λ b, b = true) mask).
Proof.
  induction mask as [|b mask IH] using rev_ind; [done|].
  rewrite np_where_snoc, filter_app, !length_app, IH. f_equal.
  rewrite filter_cons, filter_nil. destruct b; by destruct (decide _).
Qed.

Lemma length_where_eqZ (a : list Z) (v : Z) :
  length (np_where (np_eqZ_scalar a v)) = length (filter (λ x, x = v) a).
Proof.
  rewrite length_np_where. unfold np_eqZ_scalar.
  induction a as [|x a IH]; [done|]. cbn [fmap list_fmap]. rewrite !filter_cons.
  destruct (decide (x = v)) as [Hx|Hx].
  - rewrite (bool_decide_eq_true_2 _ Hx). rewrite decide_True by done.
    cbn [length]. by f_equal.
  - rewrite (bool_decide_eq_false_2 _ Hx). rewrite decide_False by done. done.
Qed.

Lemma length_where_eq_nat (a : list nat) (v : nat) :
  length (np_where (np_eq_scalar a v)) = count_state a v.
Proof.
  rewrite length_np_where. unfold np_eq_scalar, count_state.
  induction a as [|x a IH]; [done|]. cbn [fmap list_fmap]. rewrite !filter_cons.
  destruct (decide (x = v)) as [Hx|Hx].
  - rewrite (bool_decide_eq_true_2 _ Hx). rewrite decide_True by done.
    cbn [length]. by f_equal.
  - rewrite (bool_decide_eq_false_2 _ Hx). rewrite decide_False by done. done.
Qed.

Lemma count_zeros_ones (a : list Z) :
  Forall (λ x, x = 0 ∨ x = 1)%Z a →
  length (filter (λ x, x = 0%Z) a) + num_active a = length a.
Proof.
  unfold num_active. induction 1 as [|x a Hx Ha IH]; [done|].
  rewrite !filter_cons. destruct Hx as [-> | ->]; simpl; lia.
Qed.

(** The repair of [naive_actions] (the rule "naive" of FTVA, and the whole of
    [RandomTBPolicy.get_actions] after the draw): on 0/1 requests and a budget
    between 0 and the number of arms, it returns a 0/1 array with exactly
    [budget] arms at 1, and it changes requests in one direction only: over
    budget it only switches requests off, otherwise it only switches arms on. *)
Lemma naive_actions_spec rng (virtual_actions : list Z) (budget : Z) :
  np_random_ok rng →
  Forall (λ x, x = 0 ∨ x = 1)%Z virtual_actions →
  (0 ≤ budget ≤ Z.of_nat (length virtual_actions))%Z →
  ∃ actions,
    FTVAPolicy.naive_actions rng virtual_actions budget = Ok actions
    ∧ length actions = length virtual_actions
    ∧ Forall (λ x, x = 0 ∨ x = 1)%Z actions
    ∧ Z.of_nat (num_active actions) = budget
    ∧ ((budget < Z.of_nat (num_active virtual_actions))%Z →
       ∀ i, actions !! i = Some 1%Z → virtual_actions !! i = Some 1%Z)
    ∧ ((Z.of_nat (num_active virtual_actions) ≤ budget)%Z →
       ∀ i, virtual_actions !! i = Some 1%Z → actions !! i = Some 1%Z).
Proof.
  intros Hrng H01 Hb. unfold FTVAPolicy.naive_actions.
  rewrite (np_sumZ_num_active _ H01).
  pose proof (length_where_eqZ virtual_actions 1%Z) as Hones.
  fold (num_active virtual_actions) in Hones.
  pose proof (length_where_eqZ virtual_actions 0%Z) as Hzeros.
  pose proof (count_zeros_ones _ H01) as Hcount.
  destruct (decide (budget < Z.of_nat (num_active virtual_actions))%Z) as [Hover|Hunder].
  - unfold np_choice. rewrite decide_True by lia. cbn [mbind result_bind].
    set (k := Z.to_nat (Z.of_nat (num_active virtual_actions) - budget)).
    set (req := np_where (np_eqZ_scalar virtual_actions 1%Z)) in *.
    assert (Hk : k ≤ length req) by lia.
    pose proof (choice_length rng Hrng req k Hk) as Hclen.
    pose proof (choice_NoDup rng Hrng req k Hk (NoDup_np_where _)) as Hcnd.
    pose proof (choice_subset rng Hrng req k Hk) as Hcsub.
    set (chosen := choice_without_replacement rng req k) in *.
    assert (Hones_chosen : Forall (λ i, virtual_actions !! i = Some 1%Z) chosen).
    { apply Forall_forall. intros i Hi. by apply elem_of_where_eqZ, Hcsub. }
    exists (set_at chosen 0%Z virtual_actions). split_and!.
    + done.
    + apply length_set_at.
    + apply Forall_set_at; [by left|done].
    + pose proof (num_active_set_at_0 chosen virtual_actions Hcnd Hones_chosen). lia.
    + intros _ i Hi. destruct (decide (i ∈ chosen)) as [Hin|Hnin].
      * rewrite lookup_set_at_in in Hi; [done|done|].
        rewrite Forall_forall in Hones_chosen. eapply lookup_lt_Some, Hones_chosen, Hin.
      * by rewrite lookup_set_at_notin in Hi.
    + lia.
  - unfold np_choice. rewrite decide_True by lia. cbn [mbind result_bind].
    set (k := Z.to_nat (budget - Z.of_nat (num_active virtual_actions))).
    set (free := np_where (np_eqZ_scalar virtual_actions 0%Z)) in *.
    assert (Hk : k ≤ length free) by lia.
    pose proof (choice_length rng Hrng free k Hk) as Hclen.
    pose proof (choice_NoDup rng Hrng free k Hk (NoDup_np_where _)) as Hcnd.
    pose proof (choice_subset rng Hrng free k Hk) as Hcsub.
    set (chosen := choice_without_replacement rng free k) in *.
    assert (Hzeros_chosen : Forall (λ i, virtual_actions !! i = Some 0%Z) chosen).
    { apply Forall_forall. intros i Hi. by apply elem_of_where_eqZ, Hcsub. }
    exists (set_at chosen 1%Z virtual_actions). split_and!.
    + done.
    + apply length_set_at.
    + apply Forall_set_at; [by right|done].
    + rewrite num_active_set_at by done. lia.
    + lia.
    + intros _ i Hi. destruct (decide (i ∈ chosen)) as [Hin|Hnin].
      * rewrite Forall_forall in Hzeros_chosen. rewrite (Hzeros_chosen i Hin) in Hi. done.
      * by rewrite lookup_set_at_notin.
Qed.

(** X1. Under the rule "naive", with an activation fraction in [0, 1] and
    one virtual state per arm, [FTVAPolicy.get_actions] returns a 0/1 action array with exactly the
    rounded budget of arms at 1, whatever the current states are; it departs
    from the virtual actions in one direction only. *)
Theorem ftva_naive_budget rng (self : FTVAPolicy.t) (cur_states : list nat)
    (tb_param : option (list nat)) :
  np_random_ok rng →
  (0 <= FTVAPolicy.act_frac self)%Q → (FTVAPolicy.act_frac self <= 1)%Q →
  length (FTVAPolicy.virtual_states self) = FTVAPolicy.N self →
  ∃ budget actions virtual_actions,
    rounded_budget rng (FTVAPolicy.N self) (FTVAPolicy.act_frac self) = Ok budget
    ∧ virtual_actions = FTVAPolicy.draw_virtual_actions rng self
    ∧ FTVAPolicy.get_actions rng self cur_states (Some "naive") tb_param
      = (Ok (actions, virtual_actions), self)
    ∧ length actions = FTVAPolicy.N self
    ∧ Forall (λ x, x = 0 ∨ x = 1)%Z actions
    ∧ Z.of_nat (num_active actions) = budget
    ∧ ((budget < Z.of_nat (num_active virtual_actions))%Z →
       ∀ i, actions !! i = Some 1%Z → virtual_actions !! i = Some 1%Z)
    ∧ ((Z.of_nat (num_active virtual_actions) ≤ budget)%Z →
       ∀ i, virtual_actions !! i = Some 1%Z → actions !! i = Some 1%Z).
Proof.
  intros Hrng H0 H1 _.
  destruct (rounded_budget_spec rng (FTVAPolicy.N self) (FTVAPolicy.act_frac self)
              Hrng H0 H1) as (budget & Hbudget & _ & Hrange & _).
  destruct (draw_virtual_actions_spec rng self Hrng) as [Hva Hva01].
  destruct (naive_actions_spec rng (FTVAPolicy.draw_virtual_actions rng self) budget)
    as (actions & Hrun & Hlen & H01 & Hnum & Hoff & Hon); [done|done|lia|].
  exists budget, actions, (FTVAPolicy.draw_virtual_actions rng self).
  split_and!; try done; [|lia].
  unfold FTVAPolicy.get_actions. rewrite Hbudget. cbn [mbind result_bind].
  rewrite decide_False by (intros [?|?]; congruence).
  rewrite decide_True by done. by rewrite Hrun.
Qed.

Lemma ftva_naive_budget_witness :
  ∃ budget actions virtual_actions,
    rounded_budget rng_first (FTVAPolicy.N ftva_two_arms)
      (FTVAPolicy.act_frac ftva_two_arms) = Ok budget
    ∧ virtual_actions = FTVAPolicy.draw_virtual_actions rng_first ftva_two_arms
    ∧ FTVAPolicy.get_actions rng_first ftva_two_arms [0; 0] (Some "naive") None
      = (Ok (actions, virtual_actions), ftva_two_arms)
    ∧ length actions = FTVAPolicy.N ftva_two_arms
    ∧ Forall (λ x, x = 0 ∨ x = 1)%Z actions
    ∧ Z.of_nat (num_active actions) = budget
    ∧ ((budget < Z.of_nat (num_active virtual_actions))%Z →
       ∀ i, actions !! i = Some 1%Z → virtual_actions !! i = Some 1%Z)
    ∧ ((Z.of_nat (num_active virtual_actions) ≤ budget)%Z →
       ∀ i, virtual_actions !! i = Some 1%Z → actions !! i = Some 1%Z).
Proof.
  apply (ftva_naive_budget rng_first ftva_two_arms [0; 0] None);
    [exact rng_first_ok | by vm_compute | by vm_compute | reflexivity].
Defined.

Lemma draw_actions_spec rng (self : RandomTBPolicy.t) (cur_states : list nat) :
  np_random_ok rng →
  length (RandomTBPolicy.draw_actions rng self cur_states) = RandomTBPolicy.N self
  ∧ Forall (λ a, a = 0 ∨ a = 1)%Z (RandomTBPolicy.draw_actions rng self cur_states).
Proof.
  intros Hrng. unfold RandomTBPolicy.draw_actions.
  generalize (RandomTBPolicy.sspa self) as states.
  assert (Hinit : length (replicate (RandomTBPolicy.N self) 0%Z) = RandomTBPolicy.N self
                  ∧ Forall (λ a, a = 0 ∨ a = 1)%Z (replicate (RandomTBPolicy.N self) 0%Z)).
  { split; [apply length_replicate|]. apply Forall_replicate. by left. }
  revert Hinit. generalize (replicate (RandomTBPolicy.N self) 0%Z) as actions.
  intros actions Hinit states. revert actions Hinit.
  induction states as [|s states IH]; intros actions [Hlen H01]; [done|].
  cbn [foldl]. apply IH. split.
  - by rewrite length_set_at_list.
  - apply Forall_set_at_list; [apply (sample_action_range rng Hrng)|done].
Qed.

(** X2. [RandomTBPolicy.get_actions], with an activation fraction in [0, 1],
    returns for every array of one current state per arm and every outcome of
    the draws a 0/1 action array of length [N] whose number of 1-entries is the
    floor of [N * act_frac] plus the rounding draw: exactly the floor or the
    ceiling. *)
Theorem random_tb_budget rng (self : RandomTBPolicy.t) (cur_states : list nat) :
  np_random_ok rng →
  (0 <= RandomTBPolicy.act_frac self)%Q → (RandomTBPolicy.act_frac self <= 1)%Q →
  length cur_states = RandomTBPolicy.N self →
  ∃ actions,
    RandomTBPolicy.get_actions rng self cur_states = Ok actions
    ∧ length actions = RandomTBPolicy.N self
    ∧ Forall (λ a, a = 0 ∨ a = 1)%Z actions
    ∧ Z.of_nat (num_active actions)
      = (Qfloor (inject_Z (Z.of_nat (RandomTBPolicy.N self)) * RandomTBPolicy.act_frac self)
         + binomial1 rng
             (inject_Z (Z.of_nat (RandomTBPolicy.N self)) * RandomTBPolicy.act_frac self
              - inject_Z (Qfloor (inject_Z (Z.of_nat (RandomTBPolicy.N self))
                                  * RandomTBPolicy.act_frac self))))%Z
    ∧ (Z.of_nat (num_active actions)
       = Qfloor (inject_Z (Z.of_nat (RandomTBPolicy.N self)) * RandomTBPolicy.act_frac self)
       ∨ Z.of_nat (num_active actions)
         = Qceiling (inject_Z (Z.of_nat (RandomTBPolicy.N self))
                     * RandomTBPolicy.act_frac self)).
Proof.
  intros Hrng H0 H1 _.
  destruct (rounded_budget_spec rng (RandomTBPolicy.N self) (RandomTBPolicy.act_frac self)
              Hrng H0 H1) as (budget & Hbudget & Hformula & Hrange & Hfc).
  destruct (draw_actions_spec rng self cur_states Hrng) as [Hlen H01].
  destruct (naive_actions_spec rng (RandomTBPolicy.draw_actions rng self cur_states) budget)
    as (actions & Hrun & Hlen' & H01' & Hnum & _); [done|done|lia|].
  exists actions. split_and!; [|lia|done|by rewrite Hnum|by rewrite Hnum].
  unfold RandomTBPolicy.get_actions. rewrite Hbudget. cbn [mbind result_bind].
  exact Hrun.
Qed.

Lemma random_tb_budget_witness :
  ∃ actions,
    RandomTBPolicy.get_actions rng_first random_tb_five [0; 1; 0; 1; 1] = Ok actions
    ∧ length actions = RandomTBPolicy.N random_tb_five
    ∧ Forall (λ a, a = 0 ∨ a = 1)%Z actions
    ∧ Z.of_nat (num_active actions)
      = (Qfloor (inject_Z (Z.of_nat (RandomTBPolicy.N random_tb_five))
                 * RandomTBPolicy.act_frac random_tb_five)
         + binomial1 rng_first
             (inject_Z (Z.of_nat (RandomTBPolicy.N random_tb_five))
              * RandomTBPolicy.act_frac random_tb_five
              - inject_Z (Qfloor (inject_Z (Z.of_nat (RandomTBPolicy.N random_tb_five))
                                  * RandomTBPolicy.act_frac random_tb_five))))%Z
    ∧ (Z.of_nat (num_active actions)
       = Qfloor (inject_Z (Z.of_nat (RandomTBPolicy.N random_tb_five))
                 * RandomTBPolicy.act_frac random_tb_five)
       ∨ Z.of_nat (num_active actions)
         = Qceiling (inject_Z (Z.of_nat (RandomTBPolicy.N random_tb_five))
                     * RandomTBPolicy.act_frac random_tb_five)).
Proof.
  apply (random_tb_budget rng_first random_tb_five [0; 1; 0; 1; 1]);
    [exact rng_first_ok | by vm_compute | by vm_compute | reflexivity].
Defined.

(** ** The randomized policy of a solution *)

Lemma set_entry_both (m : list (Q * Q)) (s : nat) (a b : Q) :
  set_entry (set_entry m s 0 a) s 1 b = <[s := (a, b)]> m.
Proof.
  unfold set_entry. destruct (decide (s < length m)) as [Hlt|Hge].
  - rewrite (nth_lookup_Some (<[s := _]> m) s (0, 0)%Q (a, (nth s m (0, 0)%Q).2))
      by by apply list_lookup_insert_eq.
    cbn [fst]. by rewrite list_insert_insert_eq.
  - by rewrite !list_insert_ge by (rewrite ?length_insert; lia).
Qed.

Lemma lookup_row_sums (m : list (Q * Q)) (s : nat) :
  row_sums m !! s = (λ r : Q * Q, (r.1 + r.2)%Q) <$> m !! s.
Proof. unfold row_sums. apply list_lookup_fmap. Qed.

Lemma policy_loop_spec (EPS : Q) (y : list (Q * Q)) (states : list nat)
    (policy : list (Q * Q)) :
  NoDup states →
  Forall (λ s, s < length y) states → Forall (λ s, s < length policy) states →
  ∃ policy',
    policy_loop EPS y (row_sums y) states policy = Ok policy'
    ∧ length policy' = length policy
    ∧ ∀ s, policy' !! s
           = if decide (s ∈ states) then Some (policy_row EPS y s) else policy !! s.
Proof.
  revert policy. induction states as [|s0 states IH]; intros policy Hnd Hy Hp.
  { exists policy. split_and!; [done|done|]. intros s.
    destruct (decide (s ∈ [])) as [Hin|_]; [by apply elem_of_nil in Hin|done]. }
  apply NoDup_cons in Hnd as [Hs0 Hnd].
  apply Forall_cons in Hy as [Hy0 Hy]. apply Forall_cons in Hp as [Hp0 Hp].
  destruct (lookup_lt_is_Some_2 y s0 Hy0) as [row Hrow].
  cbn [policy_loop]. rewrite lookup_row_sums, Hrow. cbn [fmap option_fmap option_map].
  assert (Hstep : ∀ policy1,
            policy1 = <[s0 := policy_row EPS y s0]> policy →
            ∃ policy',
              policy_loop EPS y (row_sums y) states policy1 = Ok policy'
              ∧ length policy' = length policy
              ∧ ∀ s, policy' !! s
                     = if decide (s ∈ s0 :: states) then Some (policy_row EPS y s)
                       else policy !! s).
  { intros policy1 ->.
    destruct (IH (<[s0 := policy_row EPS y s0]> policy)) as (policy' & Hrun & Hlen & Hget);
      [done|done|by rewrite Forall_forall in Hp |- *; intros; rewrite length_insert; auto|].
    exists policy'. rewrite length_insert in Hlen. split_and!; [done|done|].
    intros s. rewrite Hget. destruct (decide (s = s0)) as [->|Hne].
    - destruct (decide (s0 ∈ states)) as [?|_]; [done|].
      destruct (decide (s0 ∈ s0 :: states)) as [_|Hn]; [|by destruct Hn; left].
      by apply list_lookup_insert_eq.
    - rewrite list_lookup_insert_ne by done.
      destruct (decide (s ∈ states)) as [Hin|Hnin].
      + destruct (decide (s ∈ s0 :: states)) as [_|Hn]; [done|]. destruct Hn. by right.
      + destruct (decide (s ∈ s0 :: states)) as [Hc|_]; [|done].
        apply elem_of_cons in Hc as [?|?]; done. }
  unfold policy_row in Hstep. rewrite (nth_lookup_Some _ _ _ _ Hrow) in Hstep.
  destruct (Qlt_bool EPS (row.1 + row.2)) eqn:Hlt.
  - by apply Hstep.
  - apply Hstep. apply set_entry_both.
Qed.

Lemma Qlt_bool_true (x y : Q) : Qlt_bool x y = true → (x < y)%Q.
Proof.
  unfold Qlt_bool. intros H%negb_true_iff. apply Qnot_le_lt. intros Hle.
  apply Qle_bool_iff in Hle. congruence.
Qed.

Lemma policy_row_sum (EPS : Q) (y : list (Q * Q)) (s : nat) :
  (0 <= EPS)%Q → ((policy_row EPS y s).1 + (policy_row EPS y s).2 == 1)%Q.
Proof.
  intros HE. unfold policy_row.
  destruct (Qlt_bool EPS _) eqn:Hlt; cbn [fst snd]; [|reflexivity].
  apply Qlt_bool_true in Hlt. field. lra.
Qed.


Lemma np_isclose_eq (a b atol : Q) : (a == b)%Q → (0 <= atol)%Q → np_isclose a b atol = true.
Proof.
  intros Hab Hatol. unfold np_isclose. apply Qle_bool_iff.
  assert (Hz : (a - b == 0)%Q) by lra. rewrite Hz.
  pose proof (Qabs_nonneg b). change (Qabs 0) with 0%Q. lra.
Qed.

(** The policy of [y] over [S] states: with at least [S] rows in [y] it is
    built and passes its assertion, with fewer the loop raises IndexError. *)
Lemma make_policy_spec (EPS : Q) (S : nat) (y : list (Q * Q)) :
  (0 <= EPS)%Q →
  (S ≤ length y →
   ∃ policy, make_policy EPS S y = Ok policy
     ∧ length policy = S
     ∧ ∀ s, s < S → policy !! s = Some (policy_row EPS y s))
  ∧ (length y < S → make_policy EPS S y = Raise IndexError).
Proof.
  intros HE. split.
  - intros HS.
    destruct (policy_loop_spec EPS y (seq 0 S) (replicate S (0, 0)%Q))
      as (policy & Hrun & Hlen & Hget).
    { apply NoDup_seq. }
    { apply Forall_forall. intros s [_ Hs]%elem_of_seq. simpl in Hs. lia. }
    { apply Forall_forall. intros s [_ Hs]%elem_of_seq. by rewrite length_replicate. }
    rewrite length_replicate in Hlen.
    assert (Hrows : ∀ s, s < S → policy !! s = Some (policy_row EPS y s)).
    { intros s Hs. rewrite Hget. rewrite decide_True; [done|]. apply elem_of_seq. lia. }
    exists policy. split_and!; [|done|done].
    unfold make_policy. rewrite Hrun. cbn [mbind result_bind].
    rewrite (proj2 (forallb_forall _ _)); [done|].
    intros p [s Hp]%list_elem_of_In%list_elem_of_lookup.
    rewrite lookup_row_sums in Hp. destruct (policy !! s) as [row|] eqn:Hps; [|done].
    pose proof (lookup_lt_Some _ _ _ Hps) as Hs.
    rewrite Hlen in Hs. rewrite (Hrows s Hs) in Hps.
    injection Hps as <-. cbn in Hp. injection Hp as <-.
    apply np_isclose_eq; [by apply policy_row_sum|lra].
  - intros HS. unfold make_policy.
    assert (Hgen : ∀ k policy, k ≤ length y →
              policy_loop EPS y (row_sums y) (seq k (S - k)) policy = Raise IndexError).
    { intros k. remember (length y - k) as n eqn:Hn. revert k Hn.
      induction n as [|n IH]; intros k Hn policy Hk.
      - replace k with (length y) by lia.
        destruct (S - length y) as [|m] eqn:Hm; [lia|]. cbn [seq policy_loop].
        rewrite lookup_row_sums, lookup_ge_None_2 by lia. done.
      - destruct (S - k) as [|m] eqn:Hm; [lia|]. cbn [seq policy_loop].
        destruct (lookup_lt_is_Some_2 y k) as [row Hrow]; [lia|].
        rewrite lookup_row_sums, Hrow. cbn [fmap option_fmap option_map].
        replace m with (S - Datatypes.S k) by lia.
        destruct (Qlt_bool EPS _); apply IH; lia. }
    rewrite <- (Nat.sub_0_r S) at 1. rewrite Hgen by lia. done.
Qed.



(** X4. With fewer rows in [y] than states, both constructors stop with the
    IndexError of the read of [state_probs] at the first missing state. *)
Theorem policy_constructors_short_y (S N : nat) (y : list (Q * Q)) (act_frac : Q)
    (trans_tensor : list (list Q * list Q)) (reward_tensor : list (Q * Q))
    (init_virtual : option (list nat)) (random_states : list nat) :
  length y < S →
  RandomTBPolicy.init S y N act_frac = Raise IndexError
  ∧ FTVAPolicy.init S trans_tensor reward_tensor y N act_frac
      init_virtual random_states = Raise IndexError.
Proof.
  intros HS.
  destruct (make_policy_spec (1 # 10000000) S y) as [_ Herr]; [lra|].
  unfold RandomTBPolicy.init, FTVAPolicy.init. by rewrite (Herr HS).
Qed.

Lemma policy_constructors_short_y_witness :
  RandomTBPolicy.init 2 [(1 # 2, 1 # 2)]%Q 5 (1 # 2) = Raise IndexError
  ∧ FTVAPolicy.init 2 two_state_P two_state_r [(1 # 2, 1 # 2)]%Q 5 (1 # 2)
      None [0; 1; 0; 1; 1] = Raise IndexError.
Proof.
  apply (policy_constructors_short_y 2 5 [(1 # 2, 1 # 2)]%Q (1 # 2)
           two_state_P two_state_r None [0; 1; 0; 1; 1]).
  simpl. lia.
Defined.

(** ** Entries and sums *)

Lemma entry_lookup (m : list (Q * Q)) (s : nat) (row : Q * Q) :
  m !! s = Some row → entry m s 0 = row.1 ∧ entry m s 1 = row.2.
Proof. intros H. unfold entry. by rewrite (nth_lookup_Some _ _ _ _ H). Qed.

Lemma np_sumQ_cons (x : Q) (l : list Q) : np_sumQ (x :: l) = (x + np_sumQ l)%Q.
Proof. reflexivity. Qed.

(** ** The simulation environment *)

Lemma lookup_foldl_insert {A} (g : nat → A) (l : list nat) (init : list A) (s : nat) :
  Forall (λ x, x < length init) l →
  foldl (λ acc x, <[x := g x]> acc) init l !! s
  = if decide (s ∈ l) then Some (g s) else init !! s.
Proof.
  revert init. induction l as [|x l IH] using rev_ind; intros init Hl.
  { cbn. destruct (decide (s ∈ [])) as [H|_]; [by apply elem_of_nil in H|done]. }
  apply Forall_app in Hl as [Hl Hx]. rewrite Forall_singleton in Hx.
  rewrite foldl_app. cbn [foldl].
  assert (Hlen : length (foldl (λ acc x, <[x := g x]> acc) init l) = length init).
  { apply length_foldl_preserve. intros acc y. apply length_insert. }
  destruct (decide (s = x)) as [->|Hne].
  - rewrite list_lookup_insert_eq by (rewrite Hlen; lia).
    rewrite decide_True; [done|]. apply elem_of_app. right. set_solver.
  - rewrite list_lookup_insert_ne by done. rewrite IH by done.
    destruct (decide (s ∈ l)) as [Hin|Hnin].
    + rewrite decide_True; [done|]. apply elem_of_app. by left.
    + rewrite decide_False; [done|]. rewrite elem_of_app, list_elem_of_singleton. tauto.
Qed.

Lemma length_filter_lt_S (l : list nat) (n : nat) :
  length (filter (λ x, x < S n) l)
  = length (filter (λ x, x < n) l) + count_state l n.
Proof.
  unfold count_state. induction l as [|x l IH]; [done|].
  rewrite !filter_cons.
  destruct (decide (x < S n)), (decide (x < n)), (decide (x = n)); simpl; lia.
Qed.

Lemma np_sumQ_counts (l : list nat) (n : nat) :
  (np_sumQ ((λ s, inject_Z (Z.of_nat (count_state l s))) <$> seq 0 n)
   == inject_Z (Z.of_nat (length (filter (λ x, (x < n)%nat) l))))%Q.
Proof.
  induction n as [|n IH].
  - cbn [seq fmap list_fmap np_sumQ foldr].
    replace (filter (λ x, x < 0) l) with (@nil nat); [reflexivity|].
    symmetry. induction l as [|x l IHl]; [done|].
    rewrite filter_cons. destruct (decide (x < 0)); [lia|done].
  - rewrite seq_S, fmap_app, np_sumQ_app, IH. cbn [fmap list_fmap np_sumQ foldr Nat.add].
    rewrite length_filter_lt_S, Nat2Z.inj_add, inject_Z_plus. lra.
Qed.

Lemma filter_all {A} (P : A → Prop) `{!∀ x, Decision (P x)} (l : list A) :
  Forall P l → filter P l = l.
Proof.
  induction 1 as [|x l Hx Hl IH]; [done|].
  rewrite filter_cons, decide_True by done. by rewrite IH.
Qed.

Lemma get_s_counts_lookup (self : RB.t) (s : nat) :
  s < RB.sspa_size self →
  RB.get_s_counts self !! s
  = Some (inject_Z (Z.of_nat (count_state (RB.states self) s))).
Proof.
  intros Hs. unfold RB.get_s_counts, RB.sspa.
  rewrite (lookup_foldl_insert
             (λ state, inject_Z (Z.of_nat (length
                (RB.np_where_wrapped_rows (np_eq_scalar (RB.states self) state)))))).
  - rewrite decide_True by (apply elem_of_seq; lia).
    unfold RB.np_where_wrapped_rows. by rewrite length_fmap, length_where_eq_nat.
  - apply Forall_forall. intros x [_ Hx]%elem_of_seq. by rewrite length_replicate.
Qed.

Lemma length_get_s_counts (self : RB.t) :
  length (RB.get_s_counts self) = RB.sspa_size self.
Proof.
  unfold RB.get_s_counts. rewrite length_foldl_preserve.
  - apply length_replicate.
  - intros acc y. apply length_insert.
Qed.

Lemma get_s_fracs_lookup (self : RB.t) (s : nat) :
  s < RB.sspa_size self →
  RB.get_s_fracs self !! s
  = Some (inject_Z (Z.of_nat (count_state (RB.states self) s))
          / inject_Z (Z.of_nat (RB.N self)))%Q.
Proof.
  intros Hs. unfold RB.get_s_fracs, RB.sspa.
  rewrite (lookup_foldl_insert
             (λ state, (nth state (RB.get_s_counts self) 0 / inject_Z (Z.of_nat (RB.N self)))%Q)).
  - rewrite decide_True by (apply elem_of_seq; lia).
    by rewrite (nth_lookup_Some _ _ _ _ (get_s_counts_lookup self s Hs)).
  - apply Forall_forall. intros x [_ Hx]%elem_of_seq. by rewrite length_replicate.
Qed.

Lemma length_get_s_fracs (self : RB.t) :
  length (RB.get_s_fracs self) = RB.sspa_size self.
Proof.
  unfold RB.get_s_fracs. rewrite length_foldl_preserve.
  - apply length_replicate.
  - intros acc y. apply length_insert.
Qed.

Lemma list_eq_fmap_seq {A} (l : list A) (g : nat → A) :
  (∀ s, s < length l → l !! s = Some (g s)) → l = g <$> seq 0 (length l).
Proof.
  intros H. apply list_eq. intros i. rewrite list_lookup_fmap.
  destruct (decide (i < length l)) as [Hi|Hi].
  - rewrite H by done. by rewrite lookup_seq_lt.
  - rewrite lookup_ge_None_2 by lia. rewrite lookup_seq_ge by lia. done.
Qed.

Lemma np_sumQ_scale {A} (g : A → Q) (l : list A) (c : Q) :
  (np_sumQ ((λ x, g x / c) <$> l) == np_sumQ (g <$> l) / c)%Q.
Proof.
  induction l as [|x l IH]; rewrite ?fmap_cons, ?np_sumQ_cons.
  - cbn. unfold Qdiv. lra.
  - rewrite IH. unfold Qdiv. lra.
Qed.

(** X7. [RB.get_s_counts] and [RB.get_s_fracs] with every arm in a state
    below [S] and [N > 0]: entry [s] of the first is the number of arms in state
    [s], entry [s] of the second is that number over [N]; the counts add up to
    the length of the state array and the fractions to that length over [N],
    which is one exactly when the state array has [N] entries. *)
Theorem rb_state_fractions (self : RB.t) :
  Forall (λ x, x < RB.sspa_size self) (RB.states self) → 0 < RB.N self →
  length (RB.get_s_counts self) = RB.sspa_size self
  ∧ length (RB.get_s_fracs self) = RB.sspa_size self
  ∧ (∀ s, s < RB.sspa_size self →
       RB.get_s_counts self !! s
       = Some (inject_Z (Z.of_nat (count_state (RB.states self) s)))
       ∧ RB.get_s_fracs self !! s
         = Some (inject_Z (Z.of_nat (count_state (RB.states self) s))
                 / inject_Z (Z.of_nat (RB.N self)))%Q)
  ∧ (np_sumQ (RB.get_s_counts self)
     == inject_Z (Z.of_nat (length (RB.states self))))%Q
  ∧ (np_sumQ (RB.get_s_fracs self)
     == inject_Z (Z.of_nat (length (RB.states self)))
        / inject_Z (Z.of_nat (RB.N self)))%Q
  ∧ (length (RB.states self) = RB.N self → np_sumQ (RB.get_s_fracs self) == 1)%Q.
Proof.
  intros Hvalid HN.
  assert (Hcounts : (np_sumQ (RB.get_s_counts self)
                     == inject_Z (Z.of_nat (length (RB.states self))))%Q).
  { rewrite (list_eq_fmap_seq (RB.get_s_counts self)
               (λ s, inject_Z (Z.of_nat (count_state (RB.states self) s)))).
    - rewrite length_get_s_counts, np_sumQ_counts. by rewrite filter_all.
    - intros s Hs. rewrite length_get_s_counts in Hs. by apply get_s_counts_lookup. }
  assert (Hfracs : (np_sumQ (RB.get_s_fracs self)
                    == inject_Z (Z.of_nat (length (RB.states self)))
                       / inject_Z (Z.of_nat (RB.N self)))%Q).
  { rewrite (list_eq_fmap_seq (RB.get_s_fracs self)
               (λ s, (inject_Z (Z.of_nat (count_state (RB.states self) s))
                      / inject_Z (Z.of_nat (RB.N self)))%Q)).
    - rewrite length_get_s_fracs.
      rewrite (np_sumQ_scale
                 (λ s, inject_Z (Z.of_nat (count_state (RB.states self) s)))).
      rewrite np_sumQ_counts. by rewrite filter_all.
    - intros s Hs. rewrite length_get_s_fracs in Hs. by apply get_s_fracs_lookup. }
  split_and!; [apply length_get_s_counts|apply length_get_s_fracs| |done|done|].
  - intros s Hs. split; [by apply get_s_counts_lookup|by apply get_s_fracs_lookup].
  - intros Hlen. rewrite Hfracs, Hlen.
    assert (Hn : (0 < inject_Z (Z.of_nat (RB.N self)))%Q).
    { change 0%Q with (inject_Z 0). rewrite <- Zlt_Qlt. lia. }
    field. lra.
Qed.

Lemma rb_state_fractions_witness :
  length (RB.get_s_counts rb_five) = RB.sspa_size rb_five
  ∧ length (RB.get_s_fracs rb_five) = RB.sspa_size rb_five
  ∧ (∀ s, s < RB.sspa_size rb_five →
       RB.get_s_counts rb_five !! s
       = Some (inject_Z (Z.of_nat (count_state (RB.states rb_five) s)))
       ∧ RB.get_s_fracs rb_five !! s
         = Some (inject_Z (Z.of_nat (count_state (RB.states rb_five) s))
                 / inject_Z (Z.of_nat (RB.N rb_five)))%Q)
  ∧ (np_sumQ (RB.get_s_counts rb_five)
     == inject_Z (Z.of_nat (length (RB.states rb_five))))%Q
  ∧ (np_sumQ (RB.get_s_fracs rb_five)
     == inject_Z (Z.of_nat (length (RB.states rb_five)))
        / inject_Z (Z.of_nat (RB.N rb_five)))%Q
  ∧ (length (RB.states rb_five) = RB.N rb_five → np_sumQ (RB.get_s_fracs rb_five) == 1)%Q.
Proof.
  apply (rb_state_fractions rb_five).
  - simpl. apply (bool_decide_unpack _). by vm_compute.
  - simpl. lia.
Defined.

(** *** One step of the environment *)

Lemma elem_of_sa_pairs (S : nat) (s : nat) (a : Z) :
  (s, a) ∈ ([0%Z; 1%Z] ≫= λ action, (λ state, (state, action)) <$> seq 0 S)
  ↔ s < S ∧ (a = 0 ∨ a = 1)%Z.
Proof.
  rewrite list_elem_of_bind. split.
  - intros (action & Hin & Ha). apply list_elem_of_fmap in Hin as (state & [= -> ->] & Hs).
    apply elem_of_seq in Hs. split; [lia|].
    apply elem_of_cons in Ha as [->|Ha]; [by left|].
    apply list_elem_of_singleton in Ha as ->. by right.
  - intros [Hs Ha]. exists a. split.
    + apply list_elem_of_fmap. exists s. split; [done|]. apply elem_of_seq. lia.
    + destruct Ha as [->| ->]; set_solver.
Qed.

Lemma NoDup_sa_pairs (S : nat) :
  NoDup ([0%Z; 1%Z] ≫= λ action, (λ state, (state, action)) <$> seq 0 S).
Proof.
  cbn [mbind list_bind]. rewrite app_nil_r. apply NoDup_app. split_and!.
  - apply NoDup_fmap_2; [|apply NoDup_seq]. by intros x y [= ->].
  - intros [s a] (x & [= -> ->] & _)%list_elem_of_fmap (y & [=] & _)%list_elem_of_fmap.
  - apply NoDup_fmap_2; [|apply NoDup_seq]. by intros x y [= ->].
Qed.

(** The size of a bucket is the number of arms with that state and action. *)
Lemma length_bucket_sa (states : list nat) (actions : list Z) (sa : nat * Z) :
  length (np_where (zip_with andb (np_eq_scalar states sa.1) (np_eqZ_scalar actions sa.2)))
  = length (filter (λ p, p = sa) (zip states actions)).
Proof.
  rewrite length_np_where. destruct sa as [s a]. cbn [fst snd].
  unfold np_eq_scalar, np_eqZ_scalar. revert actions.
  induction states as [|x states IH]; intros [|y actions]; try done.
  cbn [fmap list_fmap zip_with zip]. rewrite !filter_cons.
  specialize (IH actions). cbn [fmap list_fmap zip] in IH.
  destruct (decide ((x, y) = (s, a))) as [[= -> ->]|Hne].
  - rewrite !bool_decide_eq_true_2 by done. cbn [andb].
    rewrite decide_True by done. cbn [length]. by rewrite IH.
  - destruct (decide (bool_decide (x = s) && bool_decide (y = a) = true)) as [Ht|_].
    + apply andb_true_iff in Ht as [->%bool_decide_eq_true ->%bool_decide_eq_true]. done.
    + apply IH.
Qed.

Lemma inject_Z_S (n : nat) :
  (inject_Z (Z.of_nat (S n)) == 1 + inject_Z (Z.of_nat n))%Q.
Proof.
  rewrite Nat2Z.inj_succ. unfold Z.succ. rewrite inject_Z_plus.
  change (inject_Z 1) with 1%Q. lra.
Qed.

(** A sum over the entries of a list, taken class by class. *)
Lemma sum_by_class_cons {A} `{EqDecision A} (g : A → Q) (cs : list A) (x : A) (xs : list A) :
  NoDup cs →
  (np_sumQ ((λ c, g c * inject_Z (Z.of_nat (length (filter (λ y, y = c) (x :: xs))))) <$> cs)
   == (if decide (x ∈ cs) then g x else 0)
      + np_sumQ ((λ c, g c * inject_Z (Z.of_nat (length (filter (λ y, y = c) xs)))) <$> cs))%Q.
Proof.
  induction 1 as [|c cs Hc Hnd IH].
  - rewrite decide_False by apply not_elem_of_nil. cbn. lra.
  - rewrite !fmap_cons, !np_sumQ_cons, IH. cbn beta. rewrite filter_cons.
    destruct (decide (x = c)) as [->|Hne].
    + destruct (decide (c ∈ c :: cs)) as [_|Hn]; [|by destruct Hn; left].
      destruct (decide (c ∈ cs)) as [?|_]; [done|].
      cbn [length]. rewrite inject_Z_S. lra.
    + destruct (decide (x ∈ cs)) as [Hin|Hnin].
      * destruct (decide (x ∈ c :: cs)) as [_|Hn]; [lra|]. destruct Hn. by right.
      * destruct (decide (x ∈ c :: cs)) as [[?|?]%elem_of_cons|_]; [done|done|lra].
Qed.

Lemma sum_by_class {A} `{EqDecision A} (g : A → Q) (cs xs : list A) :
  NoDup cs → Forall (λ x, x ∈ cs) xs →
  (np_sumQ ((λ c, g c * inject_Z (Z.of_nat (length (filter (λ y, y = c) xs)))) <$> cs)
   == np_sumQ (g <$> xs))%Q.
Proof.
  intros Hnd. induction 1 as [|x xs Hx Hxs IH].
  - induction cs as [|c cs IHc]; [reflexivity|].
    apply NoDup_cons in Hnd as [_ Hnd]. rewrite fmap_cons, np_sumQ_cons, IHc by done.
    cbn beta. rewrite filter_nil. cbn [length].
    change (inject_Z (Z.of_nat 0)) with 0%Q. cbn [fmap list_fmap np_sumQ foldr]. lra.
  - rewrite sum_by_class_cons by done. rewrite decide_True by done.
    rewrite fmap_cons, np_sumQ_cons, IH. reflexivity.
Qed.

Lemma foldl_reward {B} (h : B → Q) (l : list B) (r : Q) :
  (foldl (λ r b, r + h b) r l == r + np_sumQ (h <$> l))%Q.
Proof.
  revert r. induction l as [|b l IH]; intros r; cbn [foldl].
  - cbn. lra.
  - rewrite IH, fmap_cons, np_sumQ_cons. lra.
Qed.

(** The two components of the loop of [RB.step] run side by side. *)
Lemma rb_step_fold (rng : np_random) (self : RB.t)
    (buckets : list (nat * Z * list nat)) (vs : list nat) (r : Q) :
  foldl (λ acc b,
      let '(states, instant_reward) := acc in
      let '(sa_pair, indices) := b in
      (set_at_list indices
         (sample_next_state rng sa_pair.1 sa_pair.2 (length indices)) states,
       (instant_reward
        + RB.reward_of self sa_pair * inject_Z (Z.of_nat (length indices)))%Q))
    (vs, r) buckets
  = (foldl (λ vs b,
        let '(sa_pair, cur_indices) := b in
        set_at_list cur_indices
          (sample_next_state rng sa_pair.1 sa_pair.2 (length cur_indices)) vs)
      vs buckets,
     foldl (λ r b, (r + RB.reward_of self b.1 * inject_Z (Z.of_nat (length b.2)))%Q)
       r buckets).
Proof.
  revert vs r. induction buckets as [|[sa idx] buckets IH]; intros vs r; [done|].
  cbn [foldl]. by rewrite IH.
Qed.

(** Writing draws bucket by bucket: an arm that lies in one bucket only, at
    position [k], ends with the draw number [k] of that bucket. *)
Lemma lookup_fold_buckets_in (rng : np_random) (buckets : list (nat * Z * list nat))
    (vs : list nat) (i k : nat) (b : nat * Z * list nat) (x : nat) :
  (∀ b', b' ∈ buckets → i ∈ b'.2 → b' = b) →
  NoDup b.2 → b.2 !! k = Some i →
  sample_next_state rng b.1.1 b.1.2 (length b.2) !! k = Some x →
  i < length vs →
  b ∈ buckets ∨ vs !! i = Some x →
  foldl (λ vs b,
      let '(sa_pair, cur_indices) := b in
      set_at_list cur_indices
        (sample_next_state rng sa_pair.1 sa_pair.2 (length cur_indices)) vs)
    vs buckets !! i = Some x.
Proof.
  intros Hone Hnd Hk Hx. revert vs.
  induction buckets as [|[sa idx] buckets IH]; intros vs Hi Hor; cbn [foldl].
  { destruct Hor as [Hin|Hvs]; [by apply elem_of_nil in Hin|done]. }
  apply IH.
  - intros b' Hb'. apply Hone. by right.
  - by rewrite length_set_at_list.
  - destruct (decide (i ∈ idx)) as [Hin|Hnin].
    + right. assert (Hb : (sa, idx) = b) by (apply Hone; [by left|done]).
      subst b. cbn [fst snd] in *.
      by apply (lookup_set_at_list_in idx _ vs k i x).
    + rewrite lookup_set_at_list_notin by done.
      destruct Hor as [[Heq|Hin]%elem_of_cons|Hvs]; [|by left|by right].
      destruct Hnin. subst b. cbn [snd] in Hk. by eapply list_elem_of_lookup_2.
Qed.

Lemma lookup_zip_with_andb (m1 m2 : list bool) (i : nat) :
  zip_with andb m1 m2 !! i = Some true ↔ m1 !! i = Some true ∧ m2 !! i = Some true.
Proof.
  rewrite lookup_zip_with.
  destruct (m1 !! i) as [[]|], (m2 !! i) as [[]|]; cbn; intuition congruence.
Qed.

Lemma elem_of_bucket_sa (states : list nat) (actions : list Z) (s : nat) (a : Z) (i : nat) :
  i ∈ np_where (zip_with andb (np_eq_scalar states s) (np_eqZ_scalar actions a))
  ↔ states !! i = Some s ∧ actions !! i = Some a.
Proof.
  rewrite elem_of_np_where, lookup_zip_with_andb.
  by rewrite <- !elem_of_np_where, elem_of_bucket, elem_of_where_eqZ.
Qed.

(** X8. One step of the environment, for [N > 0] arms with states below
    [S], tensors with a row per state, 0/1 actions and one action per arm: the value is the sum of the rewards
    [r(s_i, a_i)] of the arms over [N]; the state array keeps its length; and
    the arm that is number [k] among the arms with state [s] and action [a]
    moves to draw number [k] of the draws from the kernel at [(s, a)], one draw
    per such arm, whatever the loop has written before. *)
Theorem rb_step_spec (rng : np_random) (self : RB.t) (actions : list Z) :
  np_random_ok rng → 0 < RB.N self →
  RB.sspa_size self ≤ length (RB.trans_tensor self) →
  RB.sspa_size self ≤ length (RB.reward_tensor self) →
  length actions = length (RB.states self) →
  Forall (λ x, x < RB.sspa_size self) (RB.states self) →
  Forall (λ a, a = 0 ∨ a = 1)%Z actions →
  ((RB.step rng self actions).1
   == np_sumQ (RB.reward_of self <$> zip (RB.states self) actions)
      / inject_Z (Z.of_nat (RB.N self)))%Q
  ∧ length (RB.states (RB.step rng self actions).2) = length (RB.states self)
  ∧ ∀ i s a k,
      RB.states self !! i = Some s → actions !! i = Some a →
      np_where (zip_with andb (np_eq_scalar (RB.states self) s)
                              (np_eqZ_scalar actions a)) !! k = Some i →
      ∃ x,
        sample_next_state rng s a
          (length (filter (λ p, p = (s, a)) (zip (RB.states self) actions))) !! k
        = Some x
        ∧ RB.states (RB.step rng self actions).2 !! i = Some x.
Proof.
  intros Hrng HN _ _ Hlen Hvalid H01. unfold RB.step. rewrite rb_step_fold.
  cbn [fst snd RB.states RB.set_states].
  set (bucket := λ sa_pair : nat * Z,
         np_where (zip_with andb (np_eq_scalar (RB.states self) sa_pair.1)
                                 (np_eqZ_scalar actions sa_pair.2))).
  split_and!.
  - rewrite foldl_reward, <- list_fmap_compose.
    rewrite (list_fmap_ext _
               (λ c, (RB.reward_of self c
                      * inject_Z (Z.of_nat (length (filter (λ p, p = c)
                                                      (zip (RB.states self) actions)))))%Q)).
    2:{ intros j sa _. cbn. by rewrite length_bucket_sa. }
    rewrite sum_by_class; [by rewrite Qplus_0_l|apply NoDup_sa_pairs|].
    apply Forall_forall. intros [s a] Hin. apply elem_of_sa_pairs.
    rewrite Forall_forall in Hvalid. rewrite Forall_forall in H01. split.
    + apply Hvalid. apply (list_elem_of_fmap_2 fst) in Hin.
      rewrite fst_zip in Hin by lia. done.
    + apply H01. apply (list_elem_of_fmap_2 snd) in Hin.
      rewrite snd_zip in Hin by lia. done.
  - apply length_fold_buckets.
  - intros i s a k Hs Ha Hk.
    assert (Hklt : k < length (bucket (s, a))) by (by eapply lookup_lt_Some).
    destruct (lookup_lt_is_Some_2 (sample_next_state rng s a (length (bucket (s, a)))) k)
      as [x Hx].
    { by rewrite (sample_next_state_length rng Hrng). }
    exists x. split.
    { rewrite <- (length_bucket_sa (RB.states self) actions (s, a)). exact Hx. }
    apply (lookup_fold_buckets_in rng _ _ i k ((s, a), bucket (s, a)) x).
    + intros [[s' a'] idx] (sa & [= <- ->] & _)%list_elem_of_fmap Hi.
      cbn [fst snd] in Hi. apply elem_of_bucket_sa in Hi as [Hs' Ha'].
      rewrite Hs in Hs'. rewrite Ha in Ha'. by simplify_eq.
    + apply NoDup_np_where.
    + exact Hk.
    + exact Hx.
    + by eapply lookup_lt_Some.
    + left. apply list_elem_of_fmap. exists (s, a). split; [done|].
      apply elem_of_sa_pairs. rewrite Forall_forall in Hvalid. rewrite Forall_forall in H01. split.
      * apply Hvalid. by eapply list_elem_of_lookup_2.
      * apply H01. by eapply list_elem_of_lookup_2.
Qed.

Lemma rb_step_spec_witness :
  ((RB.step rng_first rb_five [1; 0; 0; 1; 0]%Z).1
   == np_sumQ (RB.reward_of rb_five <$> zip (RB.states rb_five) [1; 0; 0; 1; 0]%Z)
      / inject_Z (Z.of_nat (RB.N rb_five)))%Q
  ∧ length (RB.states (RB.step rng_first rb_five [1; 0; 0; 1; 0]%Z).2)
    = length (RB.states rb_five)
  ∧ ∀ i s a k,
      RB.states rb_five !! i = Some s → [1; 0; 0; 1; 0]%Z !! i = Some a →
      np_where (zip_with andb (np_eq_scalar (RB.states rb_five) s)
                              (np_eqZ_scalar [1; 0; 0; 1; 0]%Z a)) !! k = Some i →
      ∃ x,
        sample_next_state rng_first s a
          (length (filter (λ p, p = (s, a))
                     (zip (RB.states rb_five) [1; 0; 0; 1; 0]%Z))) !! k
        = Some x
        ∧ RB.states (RB.step rng_first rb_five [1; 0; 0; 1; 0]%Z).2 !! i = Some x.
Proof.
  apply (rb_step_spec rng_first rb_five [1; 0; 0; 1; 0]%Z).
  - exact rng_first_ok.
  - simpl. lia.
  - simpl. lia.
  - simpl. lia.
  - reflexivity.
  - simpl. apply (bool_decide_unpack _). by vm_compute.
  - apply (bool_decide_unpack _). by vm_compute.
Defined.

(** ** The virtual step of the arms that do not agree *)

Lemma np_where_ext (m1 m2 : list bool) :
  length m1 = length m2 →
  (∀ i, m1 !! i = Some true ↔ m2 !! i = Some true) →
  np_where m1 = np_where m2.
Proof.
  intros Hlen Hext. unfold np_where. rewrite Hlen.
  apply filter_ext_in. intros i _. apply Hext.
Qed.

Lemma lookup_negb_false (m : list bool) (i : nat) :
  (negb <$> m) !! i = Some true ↔ m !! i = Some false.
Proof.
  rewrite list_lookup_fmap. destruct (m !! i) as [[]|]; cbn; intuition congruence.
Qed.

Lemma lookup_eq_scalar (a : list nat) (s : nat) (i : nat) :
  np_eq_scalar a s !! i = Some true ↔ a !! i = Some s.
Proof. by rewrite <- elem_of_np_where, elem_of_bucket. Qed.

(** The buckets of the second loop of [virtual_step], read on the virtual
    states before the call. *)
Lemma virtual_step_buckets (self : FTVAPolicy.t) (prev cur : list nat)
    (actions va : list Z) (sa : nat * Z) :
  let mask := agree_mask self prev actions va in
  let vs := set_at_list (np_where mask) (take_at cur (np_where mask))
              (FTVAPolicy.virtual_states self) in
  np_where (zip_with andb
              (zip_with andb (np_eq_scalar vs sa.1) (np_eqZ_scalar va sa.2))
              (negb <$> mask))
  = bad_arms self prev actions va sa.
Proof.
  intros mask vs. unfold bad_arms. fold mask. apply np_where_ext.
  - rewrite !length_zip_with. unfold np_eq_scalar. rewrite !length_fmap.
    unfold vs. by rewrite length_set_at_list.
  - intros i. rewrite !lookup_zip_with_andb, !lookup_negb_false, !lookup_eq_scalar.
    split; intros [[Hv Ha] Hm]; (split; [split|]; try done).
    + unfold vs in Hv. rewrite lookup_set_at_list_notin in Hv; [done|].
      rewrite elem_of_np_where. congruence.
    + unfold vs. rewrite lookup_set_at_list_notin; [done|].
      rewrite elem_of_np_where. congruence.
Qed.

Lemma elem_of_bad_arms (self : FTVAPolicy.t) (prev : list nat) (actions va : list Z)
    (sa : nat * Z) (i : nat) :
  i ∈ bad_arms self prev actions va sa
  ↔ FTVAPolicy.virtual_states self !! i = Some sa.1 ∧ va !! i = Some sa.2
    ∧ agree_mask self prev actions va !! i = Some false.
Proof.
  unfold bad_arms.
  rewrite elem_of_np_where, !lookup_zip_with_andb, lookup_negb_false, lookup_eq_scalar.
  rewrite <- (elem_of_np_where (np_eqZ_scalar va sa.2)), elem_of_where_eqZ. tauto.
Qed.

(** X9. [virtual_step], on arrays of one entry per arm, at an arm that does
    not agree (its previous real state differs from its virtual state, or its
    real action from its virtual action): with virtual state [v] below [S] and virtual action [a], the arm is
    one of the arms collected for [(v, a)], say number [k] of them, and it moves
    to draw number [k] of the draws from the kernel at [(v, a)], one draw per
    such arm; its new real state plays no part. *)
Theorem virtual_step_bad_arm (rng : np_random) (self : FTVAPolicy.t)
    (prev_states cur_states : list nat) (actions virtual_actions : list Z)
    (i v p : nat) (a act : Z) :
  np_random_ok rng →
  length prev_states = length (FTVAPolicy.virtual_states self) →
  length cur_states = length (FTVAPolicy.virtual_states self) →
  length actions = length (FTVAPolicy.virtual_states self) →
  length virtual_actions = length (FTVAPolicy.virtual_states self) →
  FTVAPolicy.virtual_states self !! i = Some v → v < FTVAPolicy.sspa_size self →
  virtual_actions !! i = Some a → (a = 0 ∨ a = 1)%Z →
  prev_states !! i = Some p → actions !! i = Some act →
  p ≠ v ∨ act ≠ a →
  ∃ k x,
    bad_arms self prev_states actions virtual_actions (v, a) !! k = Some i
    ∧ sample_next_state rng v a
        (length (bad_arms self prev_states actions virtual_actions (v, a))) !! k = Some x
    ∧ FTVAPolicy.virtual_states
        (FTVAPolicy.virtual_step rng self prev_states cur_states actions virtual_actions)
      !! i = Some x.
Proof.
  intros Hrng _ _ _ _ Hv HvS Ha Ha01 Hp Hact Hbad.
  set (bucket := bad_arms self prev_states actions virtual_actions).
  assert (Hin : i ∈ bucket (v, a)).
  { apply elem_of_bad_arms. split_and!; [done|done|].
    unfold agree_mask. rewrite lookup_zip_with.
    rewrite (lookup_np_eq _ _ _ _ _ Hp Hv). cbn.
    rewrite (lookup_np_eqZ _ _ _ _ _ Hact Ha). cbn. f_equal.
    apply andb_false_iff. destruct Hbad as [Hne|Hne]; [left|right];
      by apply bool_decide_eq_false. }
  apply list_elem_of_lookup in Hin as [k Hk].
  assert (Hklt : k < length (bucket (v, a))) by (by eapply lookup_lt_Some).
  destruct (lookup_lt_is_Some_2 (sample_next_state rng v a (length (bucket (v, a)))) k)
    as [x Hx].
  { by rewrite (sample_next_state_length rng Hrng). }
  exists k, x. split_and!; [exact Hk|exact Hx|].
  unfold FTVAPolicy.virtual_step. cbn [FTVAPolicy.virtual_states FTVAPolicy.set_virtual_states].
  fold (agree_mask self prev_states actions virtual_actions).
  set (mask := agree_mask self prev_states actions virtual_actions).
  rewrite (list_fmap_ext _ (λ sa_pair : nat * Z, (sa_pair, bucket sa_pair))).
  2:{ intros j sa _. f_equal. apply virtual_step_buckets. }
  apply (lookup_fold_buckets_in rng _ _ i k ((v, a), bucket (v, a)) x).
  - intros [[s' a'] idx] (sa & [= <- ->] & _)%list_elem_of_fmap Hi.
    cbn [fst snd] in Hi. apply elem_of_bad_arms in Hi as (Hs' & Ha' & _).
    cbn [fst snd] in Hs', Ha'. rewrite Hv in Hs'. rewrite Ha in Ha'. by simplify_eq.
  - apply NoDup_np_where.
  - exact Hk.
  - exact Hx.
  - rewrite length_set_at_list. by eapply lookup_lt_Some.
  - left. apply list_elem_of_fmap. exists (v, a). split; [done|].
    unfold FTVAPolicy.sa_pairs, FTVAPolicy.sspa. by apply elem_of_sa_pairs.
Qed.

Lemma virtual_step_bad_arm_witness :
  ∃ k x,
    bad_arms ftva_two_arms [1; 1] [0; 1]%Z [1; 1]%Z (0, 1%Z) !! k = Some 0
    ∧ sample_next_state rng_first 0 1
        (length (bad_arms ftva_two_arms [1; 1] [0; 1]%Z [1; 1]%Z (0, 1%Z))) !! k
      = Some x
    ∧ FTVAPolicy.virtual_states
        (FTVAPolicy.virtual_step rng_first ftva_two_arms [1; 1] [0; 0]
           [0; 1]%Z [1; 1]%Z)
      !! 0 = Some x.
Proof.
  apply (virtual_step_bad_arm rng_first ftva_two_arms [1; 1] [0; 0] [0; 1]%Z [1; 1]%Z
           0 0 1 1%Z 0%Z).
  - exact rng_first_ok.
  - reflexivity.
  - reflexivity.
  - reflexivity.
  - reflexivity.
  - reflexivity.
  - simpl. lia.
  - reflexivity.
  - lia.
  - reflexivity.
  - reflexivity.
  - left. lia.
Defined.

(** ** The rules that refine classes by a priority list *)

Lemma elem_of_np_nonzero (a : list Z) (i : nat) :
  i ∈ np_nonzero a ↔ ∃ x, a !! i = Some x ∧ x ≠ 0%Z.
Proof.
  unfold np_nonzero. rewrite elem_of_np_where, list_lookup_fmap.
  destruct (a !! i) as [x|]; cbn.
  - unfold truthy. split.
    + intros [= H]. exists x. split; [done|]. apply negb_true_iff, Z.eqb_neq in H. done.
    + intros (y & [= <-] & Hy). f_equal. by apply negb_true_iff, Z.eqb_neq.
  - split; [done|]. by intros (y & [=] & _).
Qed.

(** The arms of one refined level: the arms of the rough class whose virtual
    state is the given one. *)
Lemma elem_of_refined_level (vs : list nat) (rough_class : list Z) (state i : nat) :
  i ∈ np_nonzero (zip_with (λ c m, c * Z.b2z m)%Z rough_class (np_eq_scalar vs state))
  ↔ i ∈ np_nonzero rough_class ∧ vs !! i = Some state.
Proof.
  rewrite !elem_of_np_nonzero, lookup_zip_with. unfold np_eq_scalar.
  rewrite list_lookup_fmap.
  destruct (rough_class !! i) as [c|]; cbn;
    [|split; [by intros (x & [=] & _)|by intros [(x & [=] & _) _]]].
  destruct (vs !! i) as [v|]; cbn;
    [|split; [by intros (x & [=] & _)|by intros [_ [=]]]].
  destruct (decide (v = state)) as [->|Hne].
  - rewrite bool_decide_eq_true_2 by done. cbn. split.
    + intros (x & [= <-] & Hx). split; [|done]. exists c. split; [done|lia].
    + intros [(x & [= <-] & Hx) _]. exists (c * 1)%Z. split; [done|lia].
  - rewrite bool_decide_eq_false_2 by done. cbn. split.
    + intros (x & [= <-] & Hx). lia.
    + intros [_ [= ?]]. done.
Qed.

Lemma lookup_bind_fmap {A B C} (f : A → B → C) (l : list A) (tb : list B)
    (k p : nat) (x : A) (s : B) :
  l !! k = Some x → tb !! p = Some s →
  (l ≫= λ c, f c <$> tb) !! (k * length tb + p) = Some (f x s).
Proof.
  revert k. induction l as [|c l IH]; intros k Hk Hp; [done|].
  csimpl. destruct k as [|k].
  - cbn in Hk. injection Hk as ->. cbn [Nat.mul Nat.add].
    rewrite lookup_app_l by (rewrite length_fmap; by eapply lookup_lt_Some).
    by rewrite list_lookup_fmap, Hp.
  - cbn in Hk. rewrite lookup_app_r by (rewrite length_fmap; lia).
    rewrite length_fmap. replace (S k * length tb + p - length tb) with (k * length tb + p) by lia.
    by apply IH.
Qed.

Lemma elem_of_concat_bind_fmap {A B} (f : A → B → list nat) (l : list A) (tb : list B)
    (i : nat) :
  i ∈ concat (l ≫= λ c, f c <$> tb) ↔ ∃ c s, c ∈ l ∧ s ∈ tb ∧ i ∈ f c s.
Proof.
  induction l as [|c l IH]; csimpl.
  - split; [by intros ?%elem_of_nil|]. by intros (c & s & ?%elem_of_nil & _).
  - rewrite concat_app, elem_of_app, IH, elem_of_concat_fmap. split.
    + intros [(s & Hs & Hi)|(c' & s & Hc & Hs & Hi)].
      * exists c, s. split_and!; [by left|done|done].
      * exists c', s. split_and!; [by right|done|done].
    + intros (c' & s & [->|Hc]%elem_of_cons & Hs & Hi).
      * left. eauto.
      * right. eauto.
Qed.

Lemma NoDup_concat_bind_fmap {A B} (f : A → B → list nat) (l : list A) (tb : list B) :
  NoDup tb →
  (∀ c s, NoDup (f c s)) →
  (∀ c s s' i, i ∈ f c s → i ∈ f c s' → s = s') →
  (∀ k k' c c' s s' i, l !! k = Some c → l !! k' = Some c' →
     i ∈ f c s → i ∈ f c' s' → k = k') →
  NoDup (concat (l ≫= λ c, f c <$> tb)).
Proof.
  intros Htb Hnd Hs. induction l as [|c l IH]; intros Hc; csimpl; [constructor|].
  rewrite concat_app. apply NoDup_app. split_and!.
  - apply NoDup_concat_fmap; [done|by intros|]. intros x y i _ _ Hx Hy. by eapply Hs.
  - intros i (s & _ & Hi)%elem_of_concat_fmap (c' & s' & Hc' & _ & Hi')%elem_of_concat_bind_fmap.
    apply list_elem_of_lookup in Hc' as [k' Hk'].
    by specialize (Hc 0 (S k') c c' s s' i eq_refl Hk' Hi Hi').
  - apply IH. intros k k' c1 c2 s s' i Hk Hk' Hi Hi'.
    by specialize (Hc (S k) (S k') c1 c2 s s' i Hk Hk' Hi Hi') as [= ->].
Qed.

Lemma take_lookup_split {A} (l : list A) (a b : nat) (x : A) :
  a < b → l !! a = Some x → ∃ rest, take b l = take a l ++ x :: rest.
Proof.
  revert a b. induction l as [|y l IH]; intros a b Hab Ha; [done|].
  destruct b as [|b]; [lia|]. destruct a as [|a].
  - cbn in Ha. injection Ha as ->. by exists (take b l).
  - cbn in Ha. destruct (IH a b) as [rest Hrest]; [lia|done|].
    exists rest. cbn. by rewrite Hrest.
Qed.

(** The budget walk fills the levels from the top: an activated arm has every
    arm of the levels before its own activated. *)
Lemma fill_levels_order rng (levels : list (list nat)) (actions actions' : list Z)
    (rem : Z) :
  np_random_ok rng → (0 ≤ rem)%Z →
  NoDup (concat levels) →
  Forall (λ i, actions !! i = Some 0%Z) (concat levels) →
  Forall (λ a, a = 0 ∨ a = 1)%Z actions →
  FTVAPolicy.fill_levels rng levels actions rem = Ok actions' →
  ∀ a b la lb i j,
    a < b → levels !! a = Some la → levels !! b = Some lb →
    i ∈ la → j ∈ lb → actions' !! j = Some 1%Z → actions' !! i = Some 1%Z.
Proof.
  intros Hrng Hrem Hnd Hz H01 Hrun a b la lb i j Hab Hla Hlb Hi Hj Hact.
  destruct (fill_levels_spec rng levels actions rem Hrng Hrem Hnd Hz H01)
    as (actions'' & Hrun' & _ & _ & _ & Hlvl & _).
  rewrite Hrun in Hrun'. injection Hrun' as <-.
  pose proof (Hlvl (take a levels) la (drop (S a) levels)
                (eq_sym (take_drop_middle _ _ _ Hla))) as Ha.
  pose proof (Hlvl (take b levels) lb (drop (S b) levels)
                (eq_sym (take_drop_middle _ _ _ Hlb))) as Hb.
  destruct (take_lookup_split levels a b la Hab Hla) as [rest Hrest].
  rewrite Hrest, concat_app, length_app in Hb. cbn [concat] in Hb.
  rewrite length_app in Hb.
  pose proof (active_in_pos actions' lb j Hj Hact) as Hpos.
  apply (active_in_full actions' la); [lia|done].
Qed.

Lemma lookup_replicate_active (n i : nat) : replicate n 0%Z !! i = Some 1%Z → False.
Proof. intros [[=] _]%lookup_replicate. Qed.

(** The walk over rough classes refined by a priority list without
    repetition, for classes that share no arm. *)
Lemma refined_rule_spec rng (self : FTVAPolicy.t) (classes : list (list Z))
    (tb_param : list nat) (budget : Z) :
  np_random_ok rng → (0 ≤ budget ≤ Z.of_nat (FTVAPolicy.N self))%Z →
  NoDup tb_param →
  (∀ c, c ∈ classes → length c = FTVAPolicy.N self) →
  (∀ k k' c c' i, classes !! k = Some c → classes !! k' = Some c' →
     i ∈ np_nonzero c → i ∈ np_nonzero c' → k = k') →
  ∃ actions,
    FTVAPolicy.fill_levels rng (FTVAPolicy.refine_by_priority self classes tb_param)
      (replicate (FTVAPolicy.N self) 0%Z) budget = Ok actions
    ∧ length actions = FTVAPolicy.N self
    ∧ Forall (λ a, a = 0 ∨ a = 1)%Z actions
    ∧ (Z.of_nat (num_active actions) ≤ budget)%Z
    ∧ ((∀ i, i < FTVAPolicy.N self →
          ∃ c s, c ∈ classes ∧ i ∈ np_nonzero c
                 ∧ FTVAPolicy.virtual_states self !! i = Some s ∧ s ∈ tb_param) →
       Z.of_nat (num_active actions) = budget)
    ∧ (∀ i, actions !! i = Some 1%Z →
         ∃ s, FTVAPolicy.virtual_states self !! i = Some s ∧ s ∈ tb_param)
    ∧ (∀ i j ki kj ci cj pi pj si sj,
         classes !! ki = Some ci → classes !! kj = Some cj →
         i ∈ np_nonzero ci → j ∈ np_nonzero cj →
         tb_param !! pi = Some si → tb_param !! pj = Some sj →
         FTVAPolicy.virtual_states self !! i = Some si →
         FTVAPolicy.virtual_states self !! j = Some sj →
         ki < kj ∨ (ki = kj ∧ pi < pj) →
         actions !! j = Some 1%Z → actions !! i = Some 1%Z).
Proof.
  intros Hrng Hb Htb Hlen Hdisj.
  set (vs := FTVAPolicy.virtual_states self).
  set (f := λ (rough_class : list Z) (state : nat),
         np_nonzero (zip_with (λ c m, c * Z.b2z m)%Z rough_class (np_eq_scalar vs state))).
  assert (Hlevels : FTVAPolicy.refine_by_priority self classes tb_param
                    = classes ≫= λ c, f c <$> tb_param) by done.
  rewrite Hlevels.
  assert (Hin : ∀ i, i ∈ concat (classes ≫= λ c, f c <$> tb_param)
                  ↔ ∃ c s, c ∈ classes ∧ s ∈ tb_param
                           ∧ i ∈ np_nonzero c ∧ vs !! i = Some s).
  { intros i. rewrite elem_of_concat_bind_fmap. unfold f.
    split; intros (c & s & Hc & Hs & Hi); exists c, s; split_and!; try done.
    - by apply elem_of_refined_level in Hi as [? _].
    - by apply elem_of_refined_level in Hi as [_ ?].
    - apply elem_of_refined_level. by destruct Hi. }
  assert (Hnd : NoDup (concat (classes ≫= λ c, f c <$> tb_param))).
  { apply NoDup_concat_bind_fmap; [done| | |].
    - intros c s. apply NoDup_np_where.
    - intros c s s' i [_ H1]%elem_of_refined_level [_ H2]%elem_of_refined_level.
      fold vs in H1, H2. congruence.
    - intros k k' c c' s s' i Hk Hk' [H1 _]%elem_of_refined_level [H2 _]%elem_of_refined_level.
      by eapply Hdisj. }
  assert (Hrange : ∀ i, i ∈ concat (classes ≫= λ c, f c <$> tb_param) →
                     i < FTVAPolicy.N self).
  { intros i (c & s & Hc & _ & Hi & _)%Hin.
    apply elem_of_np_nonzero in Hi as (x & Hx & _).
    apply lookup_lt_Some in Hx. by rewrite (Hlen c Hc) in Hx. }
  assert (Hzero : Forall (λ i, replicate (FTVAPolicy.N self) 0%Z !! i = Some 0%Z)
                    (concat (classes ≫= λ c, f c <$> tb_param))).
  { apply Forall_forall. intros i Hi. apply lookup_replicate_2. by apply Hrange. }
  assert (H01 : Forall (λ a, a = 0 ∨ a = 1)%Z (replicate (FTVAPolicy.N self) 0%Z)).
  { apply Forall_replicate. by left. }
  destruct (fill_levels_spec rng (classes ≫= λ c, f c <$> tb_param)
              (replicate (FTVAPolicy.N self) 0%Z) budget)
    as (actions & Hrun & Hlena & H01a & Hout & _ & Hnum); [done|lia|done|done|done|].
  rewrite length_replicate in Hlena. rewrite num_active_replicate_0 in Hnum.
  exists actions. split_and!; [done|done|done|lia| | |].
  - intros Hcover.
    assert (Hperm : concat (classes ≫= λ c, f c <$> tb_param)
                    ≡ₚ seq 0 (FTVAPolicy.N self)).
    { apply NoDup_Permutation; [done|apply NoDup_seq|]. intros i.
      rewrite elem_of_seq. split.
      - intros Hi%Hrange. lia.
      - intros [_ Hi]. apply Hin. destruct (Hcover i) as (c & s & ? & ? & ? & ?); [lia|].
        by exists c, s. }
    rewrite Hperm, length_seq in Hnum. lia.
  - intros i Hone.
    destruct (decide (i ∈ concat (classes ≫= λ c, f c <$> tb_param))) as [Hi|Hi].
    + apply Hin in Hi as (c & s & _ & Hs & _ & Hv). by exists s.
    + rewrite (Hout i Hi) in Hone. by apply lookup_replicate_active in Hone.
  - intros i j ki kj ci cj pi pj si sj Hci Hcj Hi Hj Hpi Hpj Hvi Hvj Hord Hact.
    pose proof (lookup_lt_Some _ _ _ Hpi) as Hpin.
    pose proof (lookup_lt_Some _ _ _ Hpj) as Hpjn.
    apply (fill_levels_order rng _ _ actions budget Hrng ltac:(lia) Hnd Hzero H01 Hrun
             (ki * length tb_param + pi) (kj * length tb_param + pj)
             (f ci si) (f cj sj) i j).
    + destruct Hord as [Hk|[-> Hp]]; [nia|lia].
    + by apply lookup_bind_fmap.
    + by apply lookup_bind_fmap.
    + by apply elem_of_refined_level.
    + by apply elem_of_refined_level.
    + done.
Qed.

Lemma action_classes_disjoint (va : list Z) (k k' : nat) (c c' : list Z) (i : nat) :
  Forall (λ a, a = 0 ∨ a = 1)%Z va →
  FTVAPolicy.action_classes va !! k = Some c →
  FTVAPolicy.action_classes va !! k' = Some c' →
  i ∈ np_nonzero c → i ∈ np_nonzero c' → k = k'.
Proof.
  intros H01 Hk Hk' Hi Hi'. unfold FTVAPolicy.action_classes in *.
  rewrite Forall_forall in H01.
  assert (Hcase : ∀ (k : nat) c,
            [va; (λ v, 1 - v)%Z <$> va] !! k = Some c → i ∈ np_nonzero c →
            ∃ a, va !! i = Some a ∧ (k = 0 ∧ a = 1%Z ∨ k = 1 ∧ a = 0%Z)).
  { intros k0 c0 Hk0 (x & Hx & Hne)%elem_of_np_nonzero.
    destruct k0 as [|[|k0]]; cbn in Hk0; [| |done]; injection Hk0 as <-.
    - exists x. split; [done|]. left. split; [done|].
      destruct (H01 x) as [->| ->]; [by eapply list_elem_of_lookup_2|done|done].
    - rewrite list_lookup_fmap in Hx. destruct (va !! i) as [a|] eqn:Ha; [|done].
      cbn in Hx. injection Hx as <-. exists a. split; [done|]. right. split; [done|].
      destruct (H01 a) as [->| ->]; [by eapply list_elem_of_lookup_2|done|done]. }
  destruct (Hcase k c Hk Hi) as (a & Ha & Hka).
  destruct (Hcase k' c' Hk' Hi') as (a' & Ha' & Hka').
  rewrite Ha in Ha'. injection Ha' as <-. lia.
Qed.

Lemma action_classes_lookup (va : list Z) (i : nat) (a : Z) :
  va !! i = Some a → (a = 0 ∨ a = 1)%Z →
  ∃ c, FTVAPolicy.action_classes va !! (Z.to_nat (1 - a)) = Some c ∧ i ∈ np_nonzero c.
Proof.
  intros Ha [-> | ->]; unfold FTVAPolicy.action_classes; cbn.
  - eexists. split; [done|]. apply elem_of_np_nonzero. exists 1%Z.
    by rewrite list_lookup_fmap, Ha.
  - eexists. split; [done|]. apply elem_of_np_nonzero. by exists 1%Z.
Qed.

(** X10. Under the rule "priority" with a priority list without repetition
    and an activation fraction in [0, 1], [FTVAPolicy.get_actions] returns a 0/1
    action array that never exceeds the rounded budget and meets it exactly when
    every virtual state is listed; an arm whose virtual state is not listed is
    never activated (nothing is asserted about the budget left); and an
    activated arm has every arm before it activated, where the arms with
    virtual action 1 come before those with 0 and, within the same virtual
    action, the virtual state listed first comes first. *)
Theorem ftva_priority_rule rng (self : FTVAPolicy.t) (cur_states tb_param : list nat) :
  np_random_ok rng →
  (0 <= FTVAPolicy.act_frac self)%Q → (FTVAPolicy.act_frac self <= 1)%Q →
  length (FTVAPolicy.virtual_states self) = FTVAPolicy.N self →
  NoDup tb_param →
  ∃ budget actions virtual_actions,
    rounded_budget rng (FTVAPolicy.N self) (FTVAPolicy.act_frac self) = Ok budget
    ∧ virtual_actions = FTVAPolicy.draw_virtual_actions rng self
    ∧ FTVAPolicy.get_actions rng self cur_states (Some "priority") (Some tb_param)
      = (Ok (actions, virtual_actions), self)
    ∧ length actions = FTVAPolicy.N self
    ∧ Forall (λ x, x = 0 ∨ x = 1)%Z actions
    ∧ (Z.of_nat (num_active actions) ≤ budget)%Z
    ∧ (Forall (λ s, s ∈ tb_param) (FTVAPolicy.virtual_states self) →
       Z.of_nat (num_active actions) = budget)
    ∧ (∀ i, actions !! i = Some 1%Z →
         ∃ s, FTVAPolicy.virtual_states self !! i = Some s ∧ s ∈ tb_param)
    ∧ (∀ i j si sj ai aj pi pj,
         FTVAPolicy.virtual_states self !! i = Some si →
         FTVAPolicy.virtual_states self !! j = Some sj →
         virtual_actions !! i = Some ai → virtual_actions !! j = Some aj →
         tb_param !! pi = Some si → tb_param !! pj = Some sj →
         (ai = 1 ∧ aj = 0)%Z ∨ (ai = aj ∧ pi < pj) →
         actions !! j = Some 1%Z → actions !! i = Some 1%Z).
Proof.
  intros Hrng H0 H1 Hv Htb.
  destruct (rounded_budget_spec rng (FTVAPolicy.N self) (FTVAPolicy.act_frac self)
              Hrng H0 H1) as (budget & Hbudget & _ & Hrange & _).
  destruct (draw_virtual_actions_spec rng self Hrng) as [Hva Hva01].
  set (va := FTVAPolicy.draw_virtual_actions rng self) in *.
  destruct (refined_rule_spec rng self (FTVAPolicy.action_classes va) tb_param budget)
    as (actions & Hrun & Hlen & H01 & Hle & Heq & Hlisted & Hord); [done|done|done| | |].
  { intros c [->|[->|[]%elem_of_nil]%elem_of_cons]%elem_of_cons; [done|].
    by rewrite length_fmap. }
  { intros k k' c c' i. by apply action_classes_disjoint. }
  assert (Hva_at : ∀ i a, va !! i = Some a → (a = 0 ∨ a = 1)%Z).
  { intros i a Ha. rewrite Forall_forall in Hva01. apply Hva01.
    by eapply list_elem_of_lookup_2. }
  exists budget, actions, va. split_and!; [done|done| |done|done|done| |done|].
  - unfold FTVAPolicy.get_actions. rewrite Hbudget. cbn [mbind result_bind].
    rewrite decide_False by (intros [?|?]; congruence).
    rewrite decide_False by congruence.
    rewrite decide_True by done. fold va. by rewrite Hrun.
  - intros Hcover. apply Heq. intros i Hi.
    destruct (lookup_lt_is_Some_2 va i) as [a Ha]; [lia|].
    destruct (lookup_lt_is_Some_2 (FTVAPolicy.virtual_states self) i) as [s Hs]; [lia|].
    destruct (action_classes_lookup va i a Ha (Hva_at i a Ha)) as (c & Hc & Hic).
    exists c, s. split_and!; [by eapply list_elem_of_lookup_2|done|done|].
    rewrite Forall_forall in Hcover. apply Hcover. by eapply list_elem_of_lookup_2.
  - intros i j si sj ai aj pi pj Hsi Hsj Hai Haj Hpi Hpj Hcase Hact.
    destruct (action_classes_lookup va i ai Hai (Hva_at i ai Hai)) as (ci & Hci & Hici).
    destruct (action_classes_lookup va j aj Haj (Hva_at j aj Haj)) as (cj & Hcj & Hjcj).
    apply (Hord i j _ _ ci cj pi pj si sj Hci Hcj Hici Hjcj Hpi Hpj Hsi Hsj); [|done].
    destruct Hcase as [[-> ->]|[-> Hp]]; [left; cbn; lia|right; done].
Qed.

Lemma ftva_priority_rule_witness :
  ∃ budget actions virtual_actions,
    rounded_budget rng_first (FTVAPolicy.N ftva_two_arms)
      (FTVAPolicy.act_frac ftva_two_arms) = Ok budget
    ∧ virtual_actions = FTVAPolicy.draw_virtual_actions rng_first ftva_two_arms
    ∧ FTVAPolicy.get_actions rng_first ftva_two_arms [0; 0] (Some "priority")
        (Some [1; 0])
      = (Ok (actions, virtual_actions), ftva_two_arms)
    ∧ length actions = FTVAPolicy.N ftva_two_arms
    ∧ Forall (λ x, x = 0 ∨ x = 1)%Z actions
    ∧ (Z.of_nat (num_active actions) ≤ budget)%Z
    ∧ (Forall (λ s, s ∈ [1; 0]) (FTVAPolicy.virtual_states ftva_two_arms) →
       Z.of_nat (num_active actions) = budget)
    ∧ (∀ i, actions !! i = Some 1%Z →
         ∃ s, FTVAPolicy.virtual_states ftva_two_arms !! i = Some s ∧ s ∈ [1; 0])
    ∧ (∀ i j si sj ai aj pi pj,
         FTVAPolicy.virtual_states ftva_two_arms !! i = Some si →
         FTVAPolicy.virtual_states ftva_two_arms !! j = Some sj →
         virtual_actions !! i = Some ai → virtual_actions !! j = Some aj →
         [1; 0] !! pi = Some si → [1; 0] !! pj = Some sj →
         (ai = 1 ∧ aj = 0)%Z ∨ (ai = aj ∧ pi < pj) →
         actions !! j = Some 1%Z → actions !! i = Some 1%Z).
Proof.
  apply (ftva_priority_rule rng_first ftva_two_arms [0; 0] [1; 0]).
  - exact rng_first_ok.
  - by vm_compute.
  - by vm_compute.
  - reflexivity.
  - apply (bool_decide_unpack _). by vm_compute.
Defined.

Lemma goodness_classes_lookup (self : FTVAPolicy.t) (cur_states : list nat) (va : list Z)
    (k : nat) (c : list Z) :
  length cur_states = FTVAPolicy.N self →
  length (FTVAPolicy.virtual_states self) = FTVAPolicy.N self →
  length va = FTVAPolicy.N self →
  Forall (λ a, a = 0 ∨ a = 1)%Z va →
  FTVAPolicy.goodness_classes self cur_states va !! k = Some c →
  k < 4 ∧ length c = FTVAPolicy.N self
  ∧ np_nonzero c = level_arms cur_states (FTVAPolicy.virtual_states self) va k.
Proof.
  intros Hc Hv Ha H01 Hk.
  pose proof (goodness_classes_levels self cur_states va Hc Hv Ha H01) as Heq.
  assert (Hk' : (np_nonzero <$> FTVAPolicy.goodness_classes self cur_states va) !! k
                = Some (np_nonzero c)) by by rewrite list_lookup_fmap, Hk.
  rewrite Heq, list_lookup_fmap in Hk'.
  assert (Hlt : k < 4).
  { apply lookup_lt_Some in Hk. exact Hk. }
  rewrite lookup_seq_lt in Hk' by done. cbn in Hk'. injection Hk' as Hk'.
  split_and!; [done| |done].
  unfold FTVAPolicy.goodness_classes in Hk.
  assert (Hm : length (Z.b2z <$> np_eq cur_states (FTVAPolicy.virtual_states self))
               = FTVAPolicy.N self).
  { rewrite length_fmap. unfold np_eq. rewrite length_zip_with. lia. }
  destruct k as [|[|[|[|k]]]]; cbn in Hk; [..|done]; injection Hk as <-;
    rewrite length_zip_with; lia.
Qed.

(** X11. Under the rule "goodness-priority" with a priority list without
    repetition, an activation fraction in [0, 1] and one current state per arm,
    [FTVAPolicy.get_actions] returns a 0/1 action array that never exceeds the
    rounded budget and meets it exactly when every virtual state is listed; an
    arm whose virtual state is not listed is never activated; and an activated
    arm has every arm before it activated, where the arms are ordered by their
    goodness level first (0: request and good, 1: request and bad, 2: no
    request and bad, 3: no request and good) and by the place of their virtual
    state in the list second. *)
Theorem ftva_goodness_priority_rule rng (self : FTVAPolicy.t)
    (cur_states tb_param : list nat) :
  np_random_ok rng →
  (0 <= FTVAPolicy.act_frac self)%Q → (FTVAPolicy.act_frac self <= 1)%Q →
  length cur_states = FTVAPolicy.N self →
  length (FTVAPolicy.virtual_states self) = FTVAPolicy.N self →
  NoDup tb_param →
  ∃ budget actions virtual_actions,
    rounded_budget rng (FTVAPolicy.N self) (FTVAPolicy.act_frac self) = Ok budget
    ∧ virtual_actions = FTVAPolicy.draw_virtual_actions rng self
    ∧ FTVAPolicy.get_actions rng self cur_states (Some "goodness-priority")
        (Some tb_param)
      = (Ok (actions, virtual_actions), self)
    ∧ length actions = FTVAPolicy.N self
    ∧ Forall (λ x, x = 0 ∨ x = 1)%Z actions
    ∧ (Z.of_nat (num_active actions) ≤ budget)%Z
    ∧ (Forall (λ s, s ∈ tb_param) (FTVAPolicy.virtual_states self) →
       Z.of_nat (num_active actions) = budget)
    ∧ (∀ i, actions !! i = Some 1%Z →
         ∃ s, FTVAPolicy.virtual_states self !! i = Some s ∧ s ∈ tb_param)
    ∧ (∀ i j si sj li lj pi pj,
         FTVAPolicy.virtual_states self !! i = Some si →
         FTVAPolicy.virtual_states self !! j = Some sj →
         arm_level cur_states (FTVAPolicy.virtual_states self) virtual_actions i
         = Some li →
         arm_level cur_states (FTVAPolicy.virtual_states self) virtual_actions j
         = Some lj →
         tb_param !! pi = Some si → tb_param !! pj = Some sj →
         li < lj ∨ (li = lj ∧ pi < pj) →
         actions !! j = Some 1%Z → actions !! i = Some 1%Z).
Proof.
  intros Hrng H0 H1 Hc Hv Htb.
  destruct (rounded_budget_spec rng (FTVAPolicy.N self) (FTVAPolicy.act_frac self)
              Hrng H0 H1) as (budget & Hbudget & _ & Hrange & _).
  destruct (draw_virtual_actions_spec rng self Hrng) as [Hva Hva01].
  set (va := FTVAPolicy.draw_virtual_actions rng self) in *.
  set (classes := FTVAPolicy.goodness_classes self cur_states va).
  assert (Hclass : ∀ k c, classes !! k = Some c →
            k < 4 ∧ length c = FTVAPolicy.N self
            ∧ np_nonzero c = level_arms cur_states (FTVAPolicy.virtual_states self) va k).
  { intros k c. by apply goodness_classes_lookup. }
  assert (Hlevel : ∀ i l,
            arm_level cur_states (FTVAPolicy.virtual_states self) va i = Some l →
            ∃ c, classes !! l = Some c ∧ i ∈ np_nonzero c).
  { intros i l Hl. pose proof (arm_level_lt _ _ _ _ _ Hl) as [_ Hl4].
    destruct (lookup_lt_is_Some_2 classes l) as [c Hcl]; [done|].
    exists c. split; [done|]. destruct (Hclass l c Hcl) as (_ & _ & ->).
    by apply elem_of_level_arms. }
  destruct (refined_rule_spec rng self classes tb_param budget)
    as (actions & Hrun & Hlen & H01 & Hle & Heq & Hlisted & Hord); [done|done|done| | |].
  { intros c [k Hk]%list_elem_of_lookup. by destruct (Hclass k c Hk) as (_ & ? & _). }
  { intros k k' c c' i Hk Hk' Hi Hi'.
    destruct (Hclass k c Hk) as (_ & _ & Hnz). destruct (Hclass k' c' Hk') as (_ & _ & Hnz').
    rewrite Hnz in Hi. rewrite Hnz' in Hi'.
    apply elem_of_level_arms in Hi, Hi'. congruence. }
  exists budget, actions, va. split_and!; [done|done| |done|done|done| |done|].
  - unfold FTVAPolicy.get_actions. rewrite Hbudget. cbn [mbind result_bind].
    rewrite decide_False by (intros [?|?]; congruence).
    rewrite decide_False by congruence.
    rewrite decide_False by congruence.
    rewrite decide_True by done. fold va. fold classes. by rewrite Hrun.
  - intros Hcover. apply Heq. intros i Hi.
    destruct (lookup_lt_is_Some_2 va i) as [a Ha]; [lia|].
    destruct (lookup_lt_is_Some_2 cur_states i) as [c Hci]; [lia|].
    destruct (lookup_lt_is_Some_2 (FTVAPolicy.virtual_states self) i) as [s Hs]; [lia|].
    destruct (Hlevel i _ (arm_level_Some _ _ _ _ _ _ _ Hci Hs Ha)) as (cl & Hcl & Hicl).
    exists cl, s. split_and!; [by eapply list_elem_of_lookup_2|done|done|].
    rewrite Forall_forall in Hcover. apply Hcover. by eapply list_elem_of_lookup_2.
  - intros i j si sj li lj pi pj Hsi Hsj Hli Hlj Hpi Hpj Hcase Hact.
    destruct (Hlevel i li Hli) as (ci & Hci & Hici).
    destruct (Hlevel j lj Hlj) as (cj & Hcj & Hjcj).
    by apply (Hord i j li lj ci cj pi pj si sj).
Qed.

Lemma ftva_goodness_priority_rule_witness :
  ∃ budget actions virtual_actions,
    rounded_budget rng_first (FTVAPolicy.N ftva_two_arms)
      (FTVAPolicy.act_frac ftva_two_arms) = Ok budget
    ∧ virtual_actions = FTVAPolicy.draw_virtual_actions rng_first ftva_two_arms
    ∧ FTVAPolicy.get_actions rng_first ftva_two_arms [0; 0] (Some "goodness-priority")
        (Some [1; 0])
      = (Ok (actions, virtual_actions), ftva_two_arms)
    ∧ length actions = FTVAPolicy.N ftva_two_arms
    ∧ Forall (λ x, x = 0 ∨ x = 1)%Z actions
    ∧ (Z.of_nat (num_active actions) ≤ budget)%Z
    ∧ (Forall (λ s, s ∈ [1; 0]) (FTVAPolicy.virtual_states ftva_two_arms) →
       Z.of_nat (num_active actions) = budget)
    ∧ (∀ i, actions !! i = Some 1%Z →
         ∃ s, FTVAPolicy.virtual_states ftva_two_arms !! i = Some s ∧ s ∈ [1; 0])
    ∧ (∀ i j si sj li lj pi pj,
         FTVAPolicy.virtual_states ftva_two_arms !! i = Some si →
         FTVAPolicy.virtual_states ftva_two_arms !! j = Some sj →
         arm_level [0; 0] (FTVAPolicy.virtual_states ftva_two_arms) virtual_actions i
         = Some li →
         arm_level [0; 0] (FTVAPolicy.virtual_states ftva_two_arms) virtual_actions j
         = Some lj →
         [1; 0] !! pi = Some si → [1; 0] !! pj = Some sj →
         li < lj ∨ (li = lj ∧ pi < pj) →
         actions !! j = Some 1%Z → actions !! i = Some 1%Z).
Proof.
  apply (ftva_goodness_priority_rule rng_first ftva_two_arms [0; 0] [1; 0]).
  - exact rng_first_ok.
  - by vm_compute.
  - by vm_compute.
  - reflexivity.
  - reflexivity.
  - apply (bool_decide_unpack _). by vm_compute.
Defined.

(** ** The mean-field system *)

Lemma np_broadcast_same {A B} (a : list A) (b : list B) :
  length a = length b → np_broadcast a b = Ok (zip a b).
Proof. intros H. unfold np_broadcast. by rewrite decide_True. Qed.

Lemma sum_product_slice (self : MeanFieldRB.t) (sa : list (Q * Q)) (new_state : nat) :
  length sa = length (MeanFieldRB.trans_tensor self) →
  MeanFieldRB.sum_product sa (MeanFieldRB.trans_slice self new_state)
  = Ok (mean_field_next sa (MeanFieldRB.trans_tensor self) new_state).
Proof.
  intros Hlen. unfold MeanFieldRB.sum_product, MeanFieldRB.trans_slice.
  rewrite np_broadcast_same by (by rewrite length_fmap).
  cbn [mbind result_bind]. f_equal. unfold mean_field_next, np_sum2, row_sums. f_equal.
  clear Hlen. revert sa.
  induction (MeanFieldRB.trans_tensor self) as [|row P IH]; intros [|x sa]; try done.
  cbn [fmap list_fmap zip zip_with fst snd]. f_equal. apply IH.
Qed.

Lemma sum_product_reward (sa r : list (Q * Q)) :
  length sa = length r →
  MeanFieldRB.sum_product sa r = Ok (mean_field_reward sa r).
Proof.
  intros Hlen. unfold MeanFieldRB.sum_product.
  rewrite np_broadcast_same by done.
  cbn [mbind result_bind]. f_equal. unfold mean_field_reward, np_sum2, row_sums. f_equal.
  clear Hlen. revert sa.
  induction r as [|y r IH]; intros [|x sa]; try done.
  cbn [fmap list_fmap zip zip_with fst snd]. f_equal. apply IH.
Qed.

Lemma new_fracs_loop_run (self : MeanFieldRB.t) (sa : list (Q * Q)) (states : list nat)
    (init : list Q) :
  length sa = length (MeanFieldRB.trans_tensor self) →
  MeanFieldRB.new_fracs_loop self sa states init
  = Ok (foldl (λ acc s, <[s := mean_field_next sa (MeanFieldRB.trans_tensor self) s]> acc)
          init states).
Proof.
  intros Hlen. revert init. induction states as [|s states IH]; intros init; [done|].
  cbn [MeanFieldRB.new_fracs_loop foldl]. rewrite sum_product_slice by done.
  cbn [mbind result_bind]. apply IH.
Qed.

Lemma np_sumQ_plus {A} (g h : A → Q) (l : list A) :
  (np_sumQ ((λ x, g x + h x) <$> l) == np_sumQ (g <$> l) + np_sumQ (h <$> l))%Q.
Proof.
  induction l as [|x l IH]; rewrite ?fmap_cons, ?np_sumQ_cons.
  - cbn. lra.
  - rewrite IH. lra.
Qed.

Lemma np_sumQ_mult {A} (c : Q) (g : A → Q) (l : list A) :
  (np_sumQ ((λ x, c * g x) <$> l) == c * np_sumQ (g <$> l))%Q.
Proof.
  induction l as [|x l IH]; rewrite ?fmap_cons, ?np_sumQ_cons.
  - cbn. lra.
  - rewrite IH. lra.
Qed.

Lemma np_sumQ_zero {A} (l : list A) : (np_sumQ ((λ _, 0) <$> l) == 0)%Q.
Proof.
  induction l as [|x l IH]; rewrite ?fmap_cons, ?np_sumQ_cons.
  - reflexivity.
  - rewrite IH. lra.
Qed.

Lemma np_sumQ_nth (l : list Q) :
  np_sumQ ((λ i, nth i l 0%Q) <$> seq 0 (length l)) = np_sumQ l.
Proof.
  f_equal. symmetry. apply list_eq_fmap_seq. intros s Hs.
  destruct (lookup_lt_is_Some_2 l s Hs) as [x Hx].
  by rewrite (nth_lookup_Some _ _ _ _ Hx).
Qed.

(** Summing the image over the new states gives back the mass of the
    state-action fractions, row by row. *)
Lemma mean_field_next_total (S : nat) (sa : list (Q * Q)) (P : list (list Q * list Q)) :
  Forall (λ row, (length row.1 = S ∧ np_sumQ row.1 == 1)%Q
                 ∧ (length row.2 = S ∧ np_sumQ row.2 == 1)%Q) P →
  length sa = length P →
  (np_sumQ ((λ s, mean_field_next sa P s) <$> seq 0 S) == np_sumQ (row_sums sa))%Q.
Proof.
  intros HP. revert sa. induction HP as [|row P [[Hl1 Hs1] [Hl2 Hs2]] HP IH];
    intros [|x sa] Hlen; try done.
  - unfold mean_field_next. cbn [zip_with]. apply np_sumQ_zero.
  - unfold mean_field_next in *. cbn [zip_with]. unfold row_sums.
    rewrite fmap_cons, np_sumQ_cons.
    assert (Hsplit : (np_sumQ ((λ s, np_sumQ
                        ((x.1 * nth s row.1 0 + x.2 * nth s row.2 0)
                         :: zip_with (λ x row, x.1 * nth s row.1 0 + x.2 * nth s row.2 0)
                              sa P)) <$> seq 0 S)
                      == np_sumQ ((λ s, x.1 * nth s row.1 0) <$> seq 0 S)
                         + np_sumQ ((λ s, x.2 * nth s row.2 0) <$> seq 0 S)
                         + np_sumQ ((λ s, np_sumQ
                              (zip_with (λ x row, x.1 * nth s row.1 0 + x.2 * nth s row.2 0)
                                 sa P)) <$> seq 0 S))%Q).
    { clear. induction (seq 0 S) as [|s l IHl]; rewrite ?fmap_cons, ?np_sumQ_cons.
      - cbn. lra.
      - rewrite IHl. cbn beta. rewrite ?np_sumQ_cons. lra. }
    rewrite Hsplit. rewrite !np_sumQ_mult.
    rewrite <- Hl1 at 1. rewrite np_sumQ_nth, Hs1.
    rewrite <- Hl2 at 1. rewrite np_sumQ_nth, Hs2.
    fold (row_sums sa). rewrite (IH sa) by (cbn in Hlen; lia). lra.
Qed.

Lemma np_sumQ_Forall2 (sa : list (Q * Q)) (f : list Q) :
  Forall2 (λ x y, x.1 + x.2 == y)%Q sa f → (np_sumQ (row_sums sa) == np_sumQ f)%Q.
Proof.
  induction 1 as [|x y sa f Hxy _ IH]; [reflexivity|].
  unfold row_sums in *. rewrite fmap_cons, !np_sumQ_cons, IH, Hxy. reflexivity.
Qed.

Lemma isclose_Forall2 (sa : list (Q * Q)) (f : list Q) :
  Forall2 (λ x y, x.1 + x.2 == y)%Q sa f →
  forallb (λ p : Q * Q, np_isclose p.1 p.2 (1 # 10000)) (zip (row_sums sa) f) = true.
Proof.
  induction 1 as [|x y sa f Hxy _ IH]; [done|].
  unfold row_sums in *. cbn [fmap list_fmap zip zip_with forallb fst snd].
  rewrite np_isclose_eq by (done || lra). exact IH.
Qed.

Lemma mean_field_next_nonneg (sa : list (Q * Q)) (P : list (list Q * list Q)) (s : nat) :
  Forall (λ x : Q * Q, 0 <= x.1 ∧ 0 <= x.2)%Q sa →
  Forall (λ row : list Q * list Q, Forall (λ p, 0 <= p)%Q row.1
                                   ∧ Forall (λ p, 0 <= p)%Q row.2) P →
  (0 <= mean_field_next sa P s)%Q.
Proof.
  intros Hsa HP. unfold mean_field_next. apply np_sumQ_nonneg.
  revert P HP. induction Hsa as [|x sa [Hx1 Hx2] _ IH]; intros P HP; [constructor|].
  destruct HP as [|row P [Hr1 Hr2] HP]; [constructor|].
  cbn [zip_with]. constructor; [|by apply IH].
  assert (Hnth : ∀ l : list Q, Forall (λ p, 0 <= p)%Q l → (0 <= nth s l 0)%Q).
  { intros l Hl. destruct (decide (s < length l)) as [Hlt|Hge].
    - destruct (lookup_lt_is_Some_2 l s Hlt) as [p Hp].
      rewrite (nth_lookup_Some _ _ _ _ Hp). rewrite Forall_forall in Hl.
      apply Hl. by eapply list_elem_of_lookup_2.
    - rewrite nth_overflow by lia. lra. }
  pose proof (Hnth _ Hr1). pose proof (Hnth _ Hr2). nra.
Qed.

(** One step on consistent fractions. *)
Lemma mean_field_step_run (self : MeanFieldRB.t) (sa_pair_fracs : list (Q * Q)) :
  length (MeanFieldRB.state_fracs self) = MeanFieldRB.sspa_size self →
  length (MeanFieldRB.reward_tensor self) = MeanFieldRB.sspa_size self →
  stochastic (MeanFieldRB.sspa_size self) (MeanFieldRB.trans_tensor self) →
  Forall2 (λ x y, x.1 + x.2 == y)%Q sa_pair_fracs (MeanFieldRB.state_fracs self) →
  (np_sumQ (MeanFieldRB.state_fracs self) == 1)%Q →
  ∃ new_state_fracs,
    MeanFieldRB.step self sa_pair_fracs
    = (Ok (mean_field_reward sa_pair_fracs (MeanFieldRB.reward_tensor self)),
       MeanFieldRB.set_state_fracs new_state_fracs self)
    ∧ length new_state_fracs = MeanFieldRB.sspa_size self
    ∧ (∀ s, s < MeanFieldRB.sspa_size self →
         new_state_fracs !! s
         = Some (mean_field_next sa_pair_fracs (MeanFieldRB.trans_tensor self) s))
    ∧ (np_sumQ new_state_fracs == 1)%Q
    ∧ (Forall (λ x : Q * Q, 0 <= x.1 ∧ 0 <= x.2)%Q sa_pair_fracs →
       Forall (λ p, 0 <= p)%Q new_state_fracs).
Proof.
  intros Hf Hr [HPlen HP] Hcons Hsum.
  pose proof (Forall2_length _ _ _ Hcons) as Hsalen.
  set (S := MeanFieldRB.sspa_size self) in *.
  set (P := MeanFieldRB.trans_tensor self) in *.
  set (new := foldl (λ acc s, <[s := mean_field_next sa_pair_fracs P s]> acc)
                (replicate S 0%Q) (seq 0 S)).
  assert (Hnewlen : length new = S).
  { unfold new. rewrite length_foldl_preserve; [apply length_replicate|].
    intros acc y. apply length_insert. }
  assert (Hnew : ∀ s, s < S → new !! s = Some (mean_field_next sa_pair_fracs P s)).
  { intros s Hs. unfold new.
    rewrite (lookup_foldl_insert (λ s, mean_field_next sa_pair_fracs P s)).
    - rewrite decide_True; [done|]. apply elem_of_seq. lia.
    - apply Forall_forall. intros x [_ Hx]%elem_of_seq. by rewrite length_replicate. }
  assert (Hnewsum : (np_sumQ new == 1)%Q).
  { rewrite (list_eq_fmap_seq new (λ s, mean_field_next sa_pair_fracs P s))
      by (intros s Hs; apply Hnew; lia).
    rewrite Hnewlen, (mean_field_next_total S).
    - by rewrite (np_sumQ_Forall2 _ _ Hcons).
    - eapply Forall_impl; [exact HP|].
      intros row [(Hl1 & _ & Hs1) (Hl2 & _ & Hs2)]. done.
    - lia. }
  exists new. split_and!; [|done|done|done|].
  - unfold MeanFieldRB.step.
    rewrite np_broadcast_same by (unfold row_sums; rewrite length_fmap; lia).
    cbn [mbind result_bind]. rewrite (isclose_Forall2 _ _ Hcons).
    rewrite new_fracs_loop_run by (fold P; lia). cbn [mbind result_bind].
    rewrite sum_product_reward by lia. cbn [mbind result_bind].
    fold P S new. rewrite np_isclose_eq by (done || lra). done.
  - intros Hpos. apply Forall_forall. intros p [s Hp]%list_elem_of_lookup.
    pose proof (lookup_lt_Some _ _ _ Hp) as Hs. rewrite Hnewlen in Hs.
    rewrite (Hnew s Hs) in Hp. injection Hp as <-.
    apply mean_field_next_nonneg; [done|].
    eapply Forall_impl; [exact HP|]. intros row [(_ & H1 & _) (_ & H2 & _)]. done.
Qed.

(** X12. One step of the mean-field system on state-action fractions whose
    rows add up to the current state fractions, with a kernel that holds a
    distribution over the [S] states per state and action, a reward array of
    [S] rows and state fractions adding up to one: both assertions hold; the
    value is the reward of the fractions; the new state fractions are the
    mean-field image of the fractions, one entry per state, they add up to one
    again, and they are non-negative when the fractions are. *)
Theorem mean_field_step_spec (self : MeanFieldRB.t) (sa_pair_fracs : list (Q * Q)) :
  length (MeanFieldRB.state_fracs self) = MeanFieldRB.sspa_size self →
  length (MeanFieldRB.reward_tensor self) = MeanFieldRB.sspa_size self →
  stochastic (MeanFieldRB.sspa_size self) (MeanFieldRB.trans_tensor self) →
  Forall2 (λ x y, x.1 + x.2 == y)%Q sa_pair_fracs (MeanFieldRB.state_fracs self) →
  (np_sumQ (MeanFieldRB.state_fracs self) == 1)%Q →
  ∃ new_state_fracs,
    MeanFieldRB.step self sa_pair_fracs
    = (Ok (mean_field_reward sa_pair_fracs (MeanFieldRB.reward_tensor self)),
       MeanFieldRB.set_state_fracs new_state_fracs self)
    ∧ length new_state_fracs = MeanFieldRB.sspa_size self
    ∧ (∀ s, s < MeanFieldRB.sspa_size self →
         new_state_fracs !! s
         = Some (mean_field_next sa_pair_fracs (MeanFieldRB.trans_tensor self) s))
    ∧ (np_sumQ new_state_fracs == 1)%Q
    ∧ (Forall (λ x : Q * Q, 0 <= x.1 ∧ 0 <= x.2)%Q sa_pair_fracs →
       Forall (λ p, 0 <= p)%Q new_state_fracs).
Proof. apply mean_field_step_run. Qed.

Lemma two_state_P_stochastic : stochastic 2 two_state_P.
Proof.
  split; [done|]. unfold two_state_P, simplex.
  repeat constructor; by vm_compute.
Qed.

Lemma mean_field_step_spec_witness :
  ∃ new_state_fracs,
    MeanFieldRB.step mean_field_two_states [(1 # 2, 1 # 2); (0, 0)]%Q
    = (Ok (mean_field_reward [(1 # 2, 1 # 2); (0, 0)]%Q
             (MeanFieldRB.reward_tensor mean_field_two_states)),
       MeanFieldRB.set_state_fracs new_state_fracs mean_field_two_states)
    ∧ length new_state_fracs = MeanFieldRB.sspa_size mean_field_two_states
    ∧ (∀ s, s < MeanFieldRB.sspa_size mean_field_two_states →
         new_state_fracs !! s
         = Some (mean_field_next [(1 # 2, 1 # 2); (0, 0)]%Q
                   (MeanFieldRB.trans_tensor mean_field_two_states) s))
    ∧ (np_sumQ new_state_fracs == 1)%Q
    ∧ (Forall (λ x : Q * Q, 0 <= x.1 ∧ 0 <= x.2)%Q [(1 # 2, 1 # 2); (0, 0)]%Q →
       Forall (λ p, 0 <= p)%Q new_state_fracs).
Proof.
  apply (mean_field_step_spec mean_field_two_states [(1 # 2, 1 # 2); (0, 0)]%Q).
  - reflexivity.
  - reflexivity.
  - exact two_state_P_stochastic.
  - simpl. repeat constructor; by vm_compute.
  - by vm_compute.
Defined.

(** ** The order of the LP-priority list *)

Lemma insert_by_sorted (key : nat → Q) (i : nat) (l : list nat) :
  StronglySorted (λ a b, key a <= key b)%Q l →
  StronglySorted (λ a b, key a <= key b)%Q (insert_by key i l).
Proof.
  induction 1 as [|j l Hs IH Hall]; cbn [insert_by].
  { constructor; [constructor|constructor]. }
  destruct (Qle_bool (key i) (key j)) eqn:Hle.
  - apply Qle_bool_iff in Hle. constructor; [by constructor|].
    constructor; [done|]. eapply Forall_impl; [exact Hall|].
    intros x Hx. cbn in *. lra.
  - assert (Hlt : (key j <= key i)%Q).
    { apply Qlt_le_weak, Qnot_le_lt. intros H. apply Qle_bool_iff in H. congruence. }
    constructor; [exact IH|].
    rewrite insert_by_Permutation. by constructor.
Qed.

Lemma np_argsort_sorted (a : list Q) :
  StronglySorted (λ i j, nth i a 0 <= nth j a 0)%Q (np_argsort a).
Proof.
  unfold np_argsort. induction (seq 0 (length a)) as [|i l IH]; cbn [foldr].
  - constructor.
  - by apply (insert_by_sorted (λ i, nth i a 0%Q)).
Qed.

(** [np.flip(np.argsort(a))]: entries in non-increasing order. *)
Lemma flip_argsort_order (a : list Q) (i j s s' : nat) :
  i < j →
  np_flip (np_argsort a) !! i = Some s → np_flip (np_argsort a) !! j = Some s' →
  (nth s' a 0 <= nth s a 0)%Q.
Proof.
  unfold np_flip. intros Hij [Hi Hil]%reverse_lookup_Some [Hj Hjl]%reverse_lookup_Some.
  apply (StronglySorted_lookup (λ i j, nth i a 0 <= nth j a 0)%Q (np_argsort a)
           (length (np_argsort a) - S j) (length (np_argsort a) - S i) s' s);
    [apply np_argsort_sorted|lia|done|done].
Qed.

Lemma q_func_fold (val : nat → nat → Q) (S : nat) (qf : list (Q * Q)) :
  foldl (λ qf i, foldl (λ qf j, set_entry qf i j (val i j)) qf (seq 0 2)) qf (seq 0 S)
  = foldl (λ qf i, <[i := (val i 0, val i 1)]> qf) qf (seq 0 S).
Proof.
  revert qf. induction (seq 0 S) as [|i l IH]; intros qf; [done|].
  cbn [foldl seq]. rewrite set_entry_both. apply IH.
Qed.

(** X14. [solve_LP_Priority] on an analyzer of the constructor's shape,
    with or without a fixed subsidy: the analyzer it leaves stores an average
    reward [g], a subsidy [l] (the fixed one when given) and a q-function with
    [q[s, a] = r[s, a] + l * (a == 0) - g + sum(P[s, a, :] * v)] for the stored
    value function [v]; and the priority list it returns ranks the states by
    non-increasing action gap [q[s, 1] - q[s, 0]]. *)
Theorem lp_priority_order (cvx : lp_problem → cvx_solution)
    (self : SingleArmAnalyzer.t) (fixed_dual : option Q) :
  analyzer_ok self →
  ∃ g l,
    SingleArmAnalyzer.avg_reward
      (SingleArmAnalyzer.solve_LP_Priority cvx self fixed_dual).2 = Some g
    ∧ SingleArmAnalyzer.opt_subsidy
        (SingleArmAnalyzer.solve_LP_Priority cvx self fixed_dual).2 = Some l
    ∧ (∀ d, fixed_dual = Some d → l = d)
    ∧ (∀ s a, s < SingleArmAnalyzer.sspa_size self → a < 2 →
         entry (SingleArmAnalyzer.q_func_relaxed
                  (SingleArmAnalyzer.solve_LP_Priority cvx self fixed_dual).2) s a
         = (entry (SingleArmAnalyzer.reward_tensor self) s a
            + l * (if decide (a = 0%nat) then 1 else 0) - g
            + SingleArmAnalyzer.expected_value self s a
                (SingleArmAnalyzer.value_func_relaxed
                   (SingleArmAnalyzer.solve_LP_Priority cvx self fixed_dual).2))%Q)
    ∧ (∀ i j s s', i < j →
         (SingleArmAnalyzer.solve_LP_Priority cvx self fixed_dual).1 !! i = Some s →
         (SingleArmAnalyzer.solve_LP_Priority cvx self fixed_dual).1 !! j = Some s' →
         (action_gap (SingleArmAnalyzer.q_func_relaxed
                        (SingleArmAnalyzer.solve_LP_Priority cvx self fixed_dual).2) s'
          <= action_gap (SingleArmAnalyzer.q_func_relaxed
                           (SingleArmAnalyzer.solve_LP_Priority cvx self fixed_dual).2) s)%Q).
Proof.
  intros Hok.
  pose proof (solve_LP_Priority_Permutation cvx self fixed_dual Hok) as Hperm.
  pose proof (ok_q_func _ (solve_LP_Priority_ok cvx self fixed_dual Hok)) as Hqlen.
  pose proof (ok_q_func _ Hok) as Hq0.
  assert (HS : SingleArmAnalyzer.sspa_size
                 (SingleArmAnalyzer.solve_LP_Priority cvx self fixed_dual).2
               = SingleArmAnalyzer.sspa_size self) by (by destruct fixed_dual).
  rewrite HS in Hqlen. clear HS.
  set (out := SingleArmAnalyzer.solve_LP_Priority cvx self fixed_dual) in *.
  set (qf := SingleArmAnalyzer.q_func_relaxed out.2) in *.
  assert (Hlist : out.1 = np_flip (np_argsort ((λ row : Q * Q, (row.2 - row.1)%Q) <$> qf))).
  { unfold qf, out, SingleArmAnalyzer.solve_LP_Priority. by destruct fixed_dual. }
  assert (Hgap : ∀ s, s < SingleArmAnalyzer.sspa_size self →
            nth s ((λ row : Q * Q, (row.2 - row.1)%Q) <$> qf) 0%Q = action_gap qf s).
  { intros s Hs. destruct (lookup_lt_is_Some_2 qf s) as [row Hrow]; [lia|].
    rewrite (nth_lookup_Some _ _ _ (row.2 - row.1)%Q) by (by rewrite list_lookup_fmap, Hrow).
    unfold action_gap. by destruct (entry_lookup _ _ _ Hrow) as [-> ->]. }
  assert (Hmem : ∀ i s, out.1 !! i = Some s → s < SingleArmAnalyzer.sspa_size self).
  { intros i s Hi. apply list_elem_of_lookup_2 in Hi. rewrite Hperm in Hi.
    apply elem_of_seq in Hi. lia. }
  assert (Horder : ∀ i j s s', i < j → out.1 !! i = Some s → out.1 !! j = Some s' →
            (action_gap qf s' <= action_gap qf s)%Q).
  { intros i j s s' Hij Hi Hj.
    rewrite <- (Hgap s) by (by eapply Hmem). rewrite <- (Hgap s') by (by eapply Hmem).
    rewrite Hlist in Hi, Hj. by eapply flip_argsort_order. }
  assert (Hq : ∀ (val : nat → nat → Q) s a,
            s < SingleArmAnalyzer.sspa_size self → a < 2 →
            entry (foldl (λ qf i, foldl (λ qf j, set_entry qf i j (val i j)) qf (seq 0 2))
                     (SingleArmAnalyzer.q_func_relaxed self)
                     (seq 0 (SingleArmAnalyzer.sspa_size self))) s a
            = val s a).
  { intros val s a Hs Ha. rewrite q_func_fold.
    assert (Hrow : foldl (λ qf i, <[i := (val i 0, val i 1)]> qf)
                     (SingleArmAnalyzer.q_func_relaxed self)
                     (seq 0 (SingleArmAnalyzer.sspa_size self)) !! s
                   = Some (val s 0, val s 1)).
    { rewrite (lookup_foldl_insert (λ i, (val i 0, val i 1))).
      - rewrite decide_True; [done|]. apply elem_of_seq. lia.
      - apply Forall_forall. intros x [_ Hx]%elem_of_seq. lia. }
    destruct (entry_lookup _ _ _ Hrow) as [E0 E1].
    destruct a as [|[|a]]; [exact E0|exact E1|lia]. }
  unfold qf, out in *. clear qf out Hlist Hgap Hmem Hperm Hqlen.
  destruct fixed_dual as [d|]; unfold SingleArmAnalyzer.solve_LP_Priority in *;
    cbn [fst snd SingleArmAnalyzer.avg_reward SingleArmAnalyzer.opt_subsidy
         SingleArmAnalyzer.q_func_relaxed SingleArmAnalyzer.value_func_relaxed
         SingleArmAnalyzer.set_solution SingleArmAnalyzer.set_dualvar
         SingleArmAnalyzer.sspa_size SingleArmAnalyzer.reward_tensor] in *.
  - eexists _, _. split_and!; [done|done|by intros ? [= ->]| |exact Horder].
    intros s a Hs Ha. by rewrite Hq.
  - eexists _, _. split_and!; [done|done|by intros ? [=]| |exact Horder].
    intros s a Hs Ha. by rewrite Hq.
Qed.

Lemma lp_priority_order_witness :
  ∃ g l,
    SingleArmAnalyzer.avg_reward
      (SingleArmAnalyzer.solve_LP_Priority cvx_two_states analyzer_two_states
         (Some (1 # 2)%Q)).2 = Some g
    ∧ SingleArmAnalyzer.opt_subsidy
        (SingleArmAnalyzer.solve_LP_Priority cvx_two_states analyzer_two_states
         (Some (1 # 2)%Q)).2 = Some l
    ∧ (∀ d, Some (1 # 2)%Q = Some d → l = d)
    ∧ (∀ s a, s < SingleArmAnalyzer.sspa_size analyzer_two_states → a < 2 →
         entry (SingleArmAnalyzer.q_func_relaxed
                  (SingleArmAnalyzer.solve_LP_Priority cvx_two_states analyzer_two_states
         (Some (1 # 2)%Q)).2) s a
         = (entry (SingleArmAnalyzer.reward_tensor analyzer_two_states) s a
            + l * (if decide (a = 0%nat) then 1 else 0) - g
            + SingleArmAnalyzer.expected_value analyzer_two_states s a
                (SingleArmAnalyzer.value_func_relaxed
                   (SingleArmAnalyzer.solve_LP_Priority cvx_two_states analyzer_two_states
         (Some (1 # 2)%Q)).2))%Q)
    ∧ (∀ i j s s', i < j →
         (SingleArmAnalyzer.solve_LP_Priority cvx_two_states analyzer_two_states
         (Some (1 # 2)%Q)).1 !! i = Some s →
         (SingleArmAnalyzer.solve_LP_Priority cvx_two_states analyzer_two_states
         (Some (1 # 2)%Q)).1 !! j = Some s' →
         (action_gap (SingleArmAnalyzer.q_func_relaxed
                        (SingleArmAnalyzer.solve_LP_Priority cvx_two_states analyzer_two_states
         (Some (1 # 2)%Q)).2) s'
          <= action_gap (SingleArmAnalyzer.q_func_relaxed
                           (SingleArmAnalyzer.solve_LP_Priority cvx_two_states analyzer_two_states
         (Some (1 # 2)%Q)).2) s)%Q).
Proof.
  apply (lp_priority_order cvx_two_states analyzer_two_states
         (Some (1 # 2)%Q)).
  exact analyzer_two_states_ok.
Defined.

(** ** The state-action frequencies of a sample *)

Lemma count_sa_run (sa : list (nat * Z)) (tbl : list (Z * Z)) :
  Forall (λ p, p.1 < length tbl ∧ (p.2 = 0 ∨ p.2 = 1)%Z) sa →
  ∃ tbl',
    count_sa sa tbl = Ok tbl'
    ∧ length tbl' = length tbl
    ∧ ∀ s c0 c1, tbl !! s = Some (c0, c1) →
        tbl' !! s
        = Some ((c0 + Z.of_nat (length (filter (λ p, p = (s, 0%Z)) sa)))%Z,
                (c1 + Z.of_nat (length (filter (λ p, p = (s, 1%Z)) sa)))%Z).
Proof.
  revert tbl. induction sa as [|[s0 a0] sa IH]; intros tbl Hall.
  { exists tbl. split_and!; [done|done|]. intros s c0 c1 Hs.
    rewrite !filter_nil. cbn [length]. rewrite Hs. do 2 f_equal; lia. }
  apply Forall_cons in Hall as [[Hs0 Ha0] Hall]. cbn [fst snd] in Hs0, Ha0.
  destruct (lookup_lt_is_Some_2 tbl s0 Hs0) as [[d0 d1] Hrow].
  cbn [count_sa]. rewrite Hrow.
  assert (Hstep : ∀ row,
            row = (if decide (a0 = 0%Z) then ((d0 + 1)%Z, d1) else (d0, (d1 + 1)%Z)) →
            ∃ tbl',
              count_sa sa (<[s0 := row]> tbl) = Ok tbl'
              ∧ length tbl' = length tbl
              ∧ ∀ s c0 c1, tbl !! s = Some (c0, c1) →
                  tbl' !! s
                  = Some ((c0 + Z.of_nat (length (filter (λ p, p = (s, 0%Z))
                                                    ((s0, a0) :: sa))))%Z,
                          (c1 + Z.of_nat (length (filter (λ p, p = (s, 1%Z))
                                                    ((s0, a0) :: sa))))%Z)).
  { intros row Hrow'.
    destruct (IH (<[s0 := row]> tbl)) as (tbl' & Hrun & Hlen & Hcount).
    { eapply Forall_impl; [exact Hall|]. intros p Hp. by rewrite length_insert. }
    exists tbl'. rewrite length_insert in Hlen. split_and!; [done|done|].
    intros s c0 c1 Hs. rewrite !filter_cons. destruct (decide (s = s0)) as [->|Hne].
    - rewrite Hrow in Hs. injection Hs as <- <-.
      rewrite (Hcount s0 row.1 row.2)
        by (rewrite list_lookup_insert_eq by done; by destruct row).
      subst row. destruct Ha0 as [-> | ->].
      + rewrite decide_True by done. rewrite (decide_True (P := (s0, 0%Z) = (s0, 0%Z))) by done.
        rewrite (decide_False (P := (s0, 0%Z) = (s0, 1%Z))) by (by intros [=]).
        cbn [fst snd length]. do 2 f_equal; lia.
      + rewrite decide_False by done. rewrite (decide_False (P := (s0, 1%Z) = (s0, 0%Z)))
          by (by intros [=]).
        rewrite (decide_True (P := (s0, 1%Z) = (s0, 1%Z))) by done.
        cbn [fst snd length]. do 2 f_equal; lia.
    - rewrite (Hcount s c0 c1) by (by rewrite list_lookup_insert_ne).
      rewrite (decide_False (P := (s0, a0) = (s, 0%Z))) by (intros [=]; congruence).
      rewrite (decide_False (P := (s0, a0) = (s, 1%Z))) by (intros [=]; congruence).
      done. }
  destruct Ha0 as [-> | ->].
  - rewrite decide_True by (by left). by apply Hstep.
  - rewrite decide_False by (intros [?|?]; done).
    rewrite decide_True by (by left). by apply Hstep.
Qed.

Lemma np_sumQ_ones {A} (l : list A) :
  (np_sumQ ((λ _, 1) <$> l) == inject_Z (Z.of_nat (length l)))%Q.
Proof.
  induction l as [|x l IH]; [reflexivity|].
  rewrite fmap_cons, np_sumQ_cons, IH. cbn [length]. rewrite inject_Z_S. lra.
Qed.

Lemma np_sumQ_fmap_ext {A} (g h : A → Q) (l : list A) :
  (∀ x, g x == h x)%Q → (np_sumQ (g <$> l) == np_sumQ (h <$> l))%Q.
Proof.
  intros Hext. induction l as [|x l IH]; [reflexivity|].
  rewrite !fmap_cons, !np_sumQ_cons, IH, Hext. reflexivity.
Qed.

(** X16. [sa_list_to_freq] on at least one arm, with as many actions as
    states, states below [S] and 0/1 actions: it returns an S x 2 array whose
    entry [(s, a)] is the number of arms with state [s] and action [a] over the
    number of arms, and the entries add up to one. *)
Theorem sa_list_to_freq_spec (S : nat) (states : list nat) (actions : list Z) :
  length states = length actions → 0 < length states →
  Forall (λ s, s < S) states → Forall (λ a, a = 0 ∨ a = 1)%Z actions →
  ∃ freq,
    sa_list_to_freq S states actions = Ok freq
    ∧ length freq = S
    ∧ (∀ s, s < S →
         freq !! s
         = Some (inject_Z (Z.of_nat (length (filter (λ p, p = (s, 0%Z))
                                               (zip states actions))))
                 / inject_Z (Z.of_nat (length states)),
                 inject_Z (Z.of_nat (length (filter (λ p, p = (s, 1%Z))
                                               (zip states actions))))
                 / inject_Z (Z.of_nat (length states)))%Q)
    ∧ (np_sum2 freq == 1)%Q.
Proof.
  intros Hlen HN Hs Ha.
  set (n := inject_Z (Z.of_nat (length states))).
  assert (Hn : (0 < n)%Q).
  { unfold n. change 0%Q with (inject_Z 0). rewrite <- Zlt_Qlt. lia. }
  set (cnt := λ c : nat * Z,
         inject_Z (Z.of_nat (length (filter (λ p, p = c) (zip states actions))))).
  assert (Hpairs : Forall (λ p, p ∈ ([0%Z; 1%Z] ≫= λ action,
                                      (λ state, (state, action)) <$> seq 0 S))
                     (zip states actions)).
  { apply Forall_forall. intros [s a] Hin. apply elem_of_sa_pairs.
    rewrite Forall_forall in Hs. rewrite Forall_forall in Ha. split.
    - apply Hs. apply (list_elem_of_fmap_2 fst) in Hin. rewrite fst_zip in Hin by lia. done.
    - apply Ha. apply (list_elem_of_fmap_2 snd) in Hin. rewrite snd_zip in Hin by lia. done. }
  destruct (count_sa_run (zip states actions) (replicate S (0, 0)%Z))
    as (tbl & Hrun & Hlen' & Hcount).
  { eapply Forall_impl; [exact Hpairs|]. intros [s a] [Hp1 Hp2]%elem_of_sa_pairs.
    by rewrite length_replicate. }
  rewrite length_replicate in Hlen'.
  assert (Hrow : ∀ s, s < S →
            ((λ c : Z * Z, (inject_Z c.1 / n, inject_Z c.2 / n)%Q) <$> tbl) !! s
            = Some (cnt (s, 0%Z) / n, cnt (s, 1%Z) / n)%Q).
  { intros s Hs'. rewrite list_lookup_fmap.
    rewrite (Hcount s 0%Z 0%Z) by (by apply lookup_replicate_2). done. }
  eexists. split_and!.
  - unfold sa_list_to_freq. rewrite decide_True by done. rewrite Hrun.
    cbn [mbind result_bind]. done.
  - by rewrite length_fmap.
  - exact Hrow.
  - unfold np_sum2, row_sums.
    rewrite (list_eq_fmap_seq _ (λ s, (cnt (s, 0%Z) / n, cnt (s, 1%Z) / n)%Q))
      by (intros s Hs'; rewrite length_fmap, Hlen' in Hs'; by apply Hrow).
    rewrite length_fmap, Hlen', <- list_fmap_compose.
    pose proof (sum_by_class (λ _, 1%Q) _ _ (NoDup_sa_pairs S) Hpairs) as Htotal.
    rewrite np_sumQ_ones in Htotal. cbn [mbind list_bind] in Htotal.
    rewrite app_nil_r, fmap_app, np_sumQ_app, <- !list_fmap_compose in Htotal.
    rewrite length_zip_with, <- Hlen, Nat.min_id in Htotal. fold n in Htotal.
    rewrite (np_sumQ_plus (λ s, cnt (s, 0%Z) / n)%Q (λ s, cnt (s, 1%Z) / n)%Q (seq 0 S)).
    rewrite !np_sumQ_scale.
    assert (H0 : (np_sumQ ((λ s, cnt (s, 0%Z)) <$> seq 0 S)
                  + np_sumQ ((λ s, cnt (s, 1%Z)) <$> seq 0 S) == n)%Q).
    { rewrite <- Htotal. apply Qplus_comp; apply np_sumQ_fmap_ext.
      - intros s. cbn. unfold cnt. lra.
      - intros s. cbn. unfold cnt. lra. }
    assert (Hdiv : ∀ a b, (a / n + b / n == (a + b) / n)%Q) by (intros; field; lra).
    rewrite Hdiv, H0. field. lra.
Qed.

Lemma sa_list_to_freq_spec_witness :
  ∃ freq,
    sa_list_to_freq 2 [0; 1; 1] [1; 0; 1]%Z = Ok freq
    ∧ length freq = 2
    ∧ (∀ s, s < 2 →
         freq !! s
         = Some (inject_Z (Z.of_nat (length (filter (λ p, p = (s, 0%Z))
                                               (zip [0; 1; 1]%nat [1; 0; 1]%Z))))
                 / inject_Z (Z.of_nat (length [0; 1; 1]%nat)),
                 inject_Z (Z.of_nat (length (filter (λ p, p = (s, 1%Z))
                                               (zip [0; 1; 1]%nat [1; 0; 1]%Z))))
                 / inject_Z (Z.of_nat (length [0; 1; 1]%nat)))%Q)
    ∧ (np_sum2 freq == 1)%Q.
Proof.
  apply (sa_list_to_freq_spec 2 [0; 1; 1] [1; 0; 1]%Z).
  - reflexivity.
  - simpl. lia.
  - apply (bool_decide_unpack _). by vm_compute.
  - apply (bool_decide_unpack _). by vm_compute.
Defined.

Lemma count_sa_bad_state (sa : list (nat * Z)) (tbl : list (Z * Z)) :
  Exists (λ p, length tbl ≤ p.1) sa → count_sa sa tbl = Raise IndexError.
Proof.
  revert tbl. induction sa as [|[s a] sa IH]; intros tbl Hex.
  { by apply Exists_nil in Hex. }
  cbn [count_sa]. destruct (tbl !! s) as [[c0 c1]|] eqn:Hrow; [|done].
  apply Exists_cons in Hex as [Hbad|Hex].
  { cbn in Hbad. apply lookup_lt_Some in Hrow. lia. }
  destruct (decide (a = 0 ∨ a = -2)%Z); [apply IH; by rewrite length_insert|].
  destruct (decide (a = 1 ∨ a = -1)%Z); [apply IH; by rewrite length_insert|done].
Qed.

(** X17. With as many actions as states and some arm in a state outside
    the state space, [sa_list_to_freq] stops with an IndexError, whatever the
    actions are. *)
Theorem sa_list_to_freq_bad_state (S : nat) (states : list nat) (actions : list Z) :
  length states = length actions → Exists (λ s, S ≤ s) states →
  sa_list_to_freq S states actions = Raise IndexError.
Proof.
  intros Hlen Hex. unfold sa_list_to_freq. rewrite decide_True by done.
  rewrite count_sa_bad_state; [done|].
  rewrite length_replicate. apply Exists_exists in Hex as (s & Hin & Hs).
  rewrite <- (fst_zip states actions) in Hin by lia.
  apply list_elem_of_fmap in Hin as (p & -> & Hp).
  apply Exists_exists. by exists p.
Qed.

Lemma sa_list_to_freq_bad_state_witness :
  sa_list_to_freq 2 [0; 2; 1] [1; 0; 1]%Z = Raise IndexError.
Proof.
  apply (sa_list_to_freq_bad_state 2 [0; 2; 1] [1; 0; 1]%Z).
  - reflexivity.
  - apply Exists_cons_tl, Exists_cons_hd. lia.
Defined.

(** ** Fresh environments *)

Lemma np_sumQ_replicate_0 (n : nat) : (np_sumQ (replicate n 0) == 0)%Q.
Proof.
  induction n as [|n IH]; [reflexivity|].
  cbn [replicate]. rewrite np_sumQ_cons, IH. lra.
Qed.

(** X18. The two environments built without initial data, for [S > 0]
    states, tensors with a row per state and [N > 0] arms: [RB] starts with all
    [N] arms in state 0, [MeanFieldRB] with all the mass on state 0, and the
    state fractions the first reports are those the second holds: one for state
    0 and zero elsewhere, a distribution over the states. *)
Theorem fresh_environments (S N : nat) (P : list (list Q * list Q)) (r : list (Q * Q)) :
  0 < S → S ≤ length P → S ≤ length r → 0 < N →
  ∃ rb mf,
    RB.init S P r N None = Ok rb
    ∧ MeanFieldRB.init S P r None = Ok mf
    ∧ RB.get_states rb = replicate N 0
    ∧ length (RB.get_s_fracs rb) = S
    ∧ (∀ s, s < S →
         ∃ x, RB.get_s_fracs rb !! s = Some x
              ∧ MeanFieldRB.get_state_fracs mf !! s = Some (if decide (s = 0%nat) then 1 else 0)%Q
              ∧ (x == if decide (s = 0%nat) then 1 else 0)%Q)
    ∧ simplex S (MeanFieldRB.get_state_fracs mf).
Proof.
  intros HS HP Hr HN. unfold RB.init, MeanFieldRB.init.
  rewrite decide_True by done. rewrite decide_True by done.
  eexists _, _. split_and!; [done|done|done|apply length_get_s_fracs| |].
  - intros s Hs. eexists. split; [by apply get_s_fracs_lookup|].
    cbn [RB.states RB.N MeanFieldRB.get_state_fracs MeanFieldRB.state_fracs from_option id].
    rewrite count_state_replicate.
    assert (Hn : (0 < inject_Z (Z.of_nat N))%Q).
    { change 0%Q with (inject_Z 0). rewrite <- Zlt_Qlt. lia. }
    destruct (decide (s = 0)) as [->|Hne].
    + split; [by apply list_lookup_insert_eq; rewrite length_replicate|].
      rewrite decide_True by done. field. lra.
    + split.
      * rewrite list_lookup_insert_ne by done. apply lookup_replicate_2. lia.
      * rewrite decide_False by done. change (inject_Z (Z.of_nat 0)) with 0%Q.
        field. lra.
  - cbn [MeanFieldRB.get_state_fracs MeanFieldRB.state_fracs]. split_and!.
    + by rewrite length_insert, length_replicate.
    + apply Forall_insert; [|lra]. apply Forall_replicate. lra.
    + destruct S as [|S']; [lia|]. cbn [replicate insert list_insert].
      rewrite np_sumQ_cons, np_sumQ_replicate_0. lra.
Qed.

Lemma fresh_environments_witness :
  ∃ rb mf,
    RB.init 2 two_state_P two_state_r 5 None = Ok rb
    ∧ MeanFieldRB.init 2 two_state_P two_state_r None = Ok mf
    ∧ RB.get_states rb = replicate 5 0
    ∧ length (RB.get_s_fracs rb) = 2
    ∧ (∀ s, s < 2 →
         ∃ x, RB.get_s_fracs rb !! s = Some x
              ∧ MeanFieldRB.get_state_fracs mf !! s = Some (if decide (s = 0%nat) then 1 else 0)%Q
              ∧ (x == if decide (s = 0%nat) then 1 else 0)%Q)
    ∧ simplex 2 (MeanFieldRB.get_state_fracs mf).
Proof.
  apply (fresh_environments 2 5 two_state_P two_state_r); simpl; lia.
Defined.
